(** * sym-ts: canonical construction of symbolic expressions

    A shallow embedding of [src/core/types.ts] (hashing, the type order, the
    symbol registry), [src/expressions/core.ts] (the expression classes and
    the [create] routines of [Add], [Mul] and [Pow]) and of
    [TypeScriptBackend.evaluateNumerical].

    Modelling conventions.
    - A JavaScript [number] is a [Z], and [Math.pow] is [Z.pow].  The two
      agree with the doubles of the code on the integers up to [2^53] in
      absolute value, under exponents that are not negative; a statement
      that depends on the result of the arithmetic says so in its
      hypotheses ([exactInteger], [exactFactors], [exactTerms],
      [magnitude]).  [Module Doubles] embeds [Pow.create] and
      [evaluateNumerical] once more on binary64 doubles, for the statements
      about their floating-point results.
    - 32-bit integer operations ([^], [Math.imul], [>>> 0]) are written out
      with their wrap-around.
    - A class instance is a constructor of [Expression] holding the
      constructor arguments; the read-only fields [type], [hash] and [args],
      which the class constructors compute once, are functions of the node.
    - A JS [Map] is an association list in insertion order.
    - [Array.prototype.sort] is a stable sort.
    - [String.prototype.localeCompare] is the code-unit order, with which
      it agrees, in the root collation that the English locales use, on
      names made of lower-case ASCII letters; a statement that
      depends on the order of two different symbols says so in its
      hypotheses ([lowerCaseNames]).
    - The record of substitutions is a plain object: a finite map for its
      own keys, and the property names of [Object.prototype], which the
      operator [in] finds as well. *)

From Stdlib Require Import ZArith List String Ascii Bool Lia Permutation Sorted.
From Stdlib Require Import DecimalString Floats.
From stdpp Require Import gmap strings.
Import ListNotations.
Local Open Scope Z_scope.
Set Warnings "-register-all".
Set Warnings "-clear-no-such-hyp".

(** ** [src/core/types.ts] *)

Inductive ExpressionType : Set :=
| TNumber | TSymbol | TAdd | TMul | TPow | TZero | TOne | TNegativeOne.

(** The string that the source uses as the tag. *)
Definition type_name (t : ExpressionType) : string :=
  match t with
  | TNumber => "Number" | TSymbol => "Symbol" | TAdd => "Add" | TMul => "Mul"
  | TPow => "Pow" | TZero => "Zero" | TOne => "One" | TNegativeOne => "NegativeOne"
  end%string.

Definition TYPE_ORDER (t : ExpressionType) : Z :=
  match t with
  | TZero => 0 | TOne => 1 | TNegativeOne => 2 | TNumber => 3
  | TSymbol => 4 | TPow => 5 | TMul => 6 | TAdd => 7
  end.

Definition type_eqb (s t : ExpressionType) : bool :=
  TYPE_ORDER s =? TYPE_ORDER t.

(** 32-bit conversions of ECMAScript. *)
Definition ToInt32 (x : Z) : Z := (x + 2 ^ 31) mod 2 ^ 32 - 2 ^ 31.
Definition ToUint32 (x : Z) : Z := x mod 2 ^ 32.

(** [a ^ b] on numbers, [Math.imul], and [x >>> 0]. *)
Definition xor32 (a b : Z) : Z := Z.lxor (ToInt32 a) (ToInt32 b).
Definition imul (a b : Z) : Z := ToInt32 (ToInt32 a * ToInt32 b).
Definition ushr0 (x : Z) : Z := ToUint32 x.

Definition charCode (c : ascii) : Z := Z.of_nat (nat_of_ascii c).

Fixpoint charCodes (s : string) : list Z :=
  match s with
  | EmptyString => []
  | String c rest => charCode c :: charCodes rest
  end.

Definition FNV_OFFSET : Z := 2166136261.
Definition FNV_PRIME : Z := 16777619.

Definition fnv_step (hash h : Z) : Z := imul (xor32 hash h) FNV_PRIME.

Definition fastHash (data : string) : Z :=
  ushr0 (fold_left fnv_step (charCodes data) FNV_OFFSET).

Definition combineHashes (hashes : list Z) : Z :=
  ushr0 (fold_left fnv_step hashes FNV_OFFSET).

(** [`${value}`] for an integer below [10^21] in absolute value, which is
    printed with all its digits. *)
Definition numberToString (value : Z) : string :=
  NilZero.string_of_int (Z.to_int value).

(** *** SymbolRegistry *)

Module SymbolRegistry.

Record t : Type := mk {
  nameToId : list (string * Z);
  idToName : list (Z * string);
  nextId : Z
}.

Definition initial : t := mk [] [] 1.

Fixpoint lookup (name : string) (m : list (string * Z)) : option Z :=
  match m with
  | [] => None
  | (k, v) :: rest => if String.eqb k name then Some v else lookup name rest
  end.

Definition getId (name : string) (r : t) : Z * t :=
  match lookup name (nameToId r) with
  | Some id => (id, r)
  | None =>
      let id := nextId r in
      (id, mk ((name, id) :: nameToId r) ((id, name) :: idToName r) (id + 1))
  end.

Definition clear (_ : t) : t := initial.

End SymbolRegistry.

(** ** [src/expressions/core.ts]: the expression classes *)

Inductive Expression : Type :=
| SymNumber (value : Z)
| MkSymbol (name : string) (symbolId : Z)
| NewAdd (args : list Expression)
| NewMul (args : list Expression)
| NewPow (base exponent : Expression).

(** [new SymSymbol(name)] reads and updates the registry. *)
Definition SymSymbol (name : string) (r : SymbolRegistry.t)
  : Expression * SymbolRegistry.t :=
  let (symbolId, r') := SymbolRegistry.getId name r in
  (MkSymbol name symbolId, r').

Definition type_of (e : Expression) : ExpressionType :=
  match e with
  | SymNumber value =>
      if value =? 0 then TZero
      else if value =? 1 then TOne
      else if value =? -1 then TNegativeOne
      else TNumber
  | MkSymbol _ _ => TSymbol
  | NewAdd _ => TAdd
  | NewMul _ => TMul
  | NewPow _ _ => TPow
  end.

Definition args_of (e : Expression) : list Expression :=
  match e with
  | SymNumber _ | MkSymbol _ _ => []
  | NewAdd args | NewMul args => args
  | NewPow base exponent => [base; exponent]
  end.

(** [BaseExpression.computeHash], on the hashes of the operands. *)
Definition computeHash (type : ExpressionType) (argHashes : list Z) : Z :=
  match argHashes with
  | [] => fastHash (type_name type)
  | _ => combineHashes (fastHash (type_name type) :: argHashes)
  end.

Fixpoint hash (e : Expression) : Z :=
  match e with
  | SymNumber value =>
      fastHash (type_name (type_of e) +:+ ":" +:+ numberToString value)%string
  | MkSymbol name _ => fastHash ("Symbol:" +:+ name)%string
  | NewAdd args => computeHash TAdd (map hash args)
  | NewMul args => computeHash TMul (map hash args)
  | NewPow base exponent => computeHash TPow [hash base; hash exponent]
  end.

Definition ZERO : Expression := SymNumber 0.
Definition ONE : Expression := SymNumber 1.
Definition NEGATIVE_ONE : Expression := SymNumber (-1).

Definition isNumericType (t : ExpressionType) : bool :=
  match t with
  | TNumber | TZero | TOne | TNegativeOne => true
  | _ => false
  end.

(** [(expr as SymNumber).value]; only read on nodes of a numeric type. *)
Definition value_of (e : Expression) : Z :=
  match e with
  | SymNumber value => value
  | _ => 0
  end.

(** [a.localeCompare(b)], as the code-unit order, which is the order of
    the code on names of lower-case ASCII letters. *)
Definition localeCompare (a b : string) : Z :=
  match String.compare a b with
  | Lt => -1
  | Eq => 0
  | Gt => 1
  end.

(** The loop of [compareToSameType] in [Add] and [Mul]: the first operand
    pair that differs decides, else [lengths], the difference of the operand
    counts. *)
Definition compareArgs (cmp : Expression -> Expression -> Z) (lengths : Z)
  : list Expression -> list Expression -> Z :=
  fix loop (l l' : list Expression) {struct l} : Z :=
    match l, l' with
    | x :: r, y :: r' =>
        let c := cmp x y in
        if negb (c =? 0) then c else loop r r'
    | _, _ => lengths
    end.

(** [compareTo]: the type order first, then [compareToSameType] of the
    class of [a]. *)
Fixpoint compareTo (a b : Expression) : Z :=
  let typeOrder := TYPE_ORDER (type_of a) - TYPE_ORDER (type_of b) in
  if negb (typeOrder =? 0) then typeOrder
  else
    match a, b with
    | SymNumber v, SymNumber w => v - w
    | MkSymbol n _, MkSymbol m _ => localeCompare n m
    | NewAdd xs, NewAdd ys | NewMul xs, NewMul ys =>
        compareArgs compareTo (Z.of_nat (length xs) - Z.of_nat (length ys)) xs ys
    | NewPow b1 e1, NewPow b2 e2 =>
        let baseCmp := compareTo b1 b2 in
        if negb (baseCmp =? 0) then baseCmp else compareTo e1 e2
    | _, _ => 0
    end.

(** The loop of [deepEquals] in [Add] and [Mul], entered with operand lists
    of one length. *)
Definition equalsArgs (eq : Expression -> Expression -> bool)
  : list Expression -> list Expression -> bool :=
  fix loop (l l' : list Expression) {struct l} : bool :=
    match l, l' with
    | x :: r, y :: r' => if negb (eq x y) then false else loop r r'
    | _, _ => true
    end.

(** [equals]: hash, type, then [deepEquals] of the class of [a]. *)
Fixpoint equals (a b : Expression) : bool :=
  (hash a =? hash b) && type_eqb (type_of a) (type_of b) &&
  match a, b with
  | SymNumber v, SymNumber w => v =? w
  | MkSymbol _ i, MkSymbol _ j => i =? j
  | NewAdd xs, NewAdd ys | NewMul xs, NewMul ys =>
      if negb (Nat.eqb (length xs) (length ys)) then false
      else equalsArgs equals xs ys
  | NewPow b1 e1, NewPow b2 e2 => equals b1 b2 && equals e1 e2
  | _, _ => false
  end.

(** ** Collections of the host language *)

(** A [Map<number, V>]: [get], and [set], which keeps the position of a key
    that is present and appends a new one. *)
Definition JsMap (V : Type) : Type := list (Z * V).

Fixpoint map_get {V} (m : JsMap V) (k : Z) : option V :=
  match m with
  | [] => None
  | (k', v) :: rest => if k' =? k then Some v else map_get rest k
  end.

Fixpoint map_set {V} (m : JsMap V) (k : Z) (v : V) : JsMap V :=
  match m with
  | [] => [(k, v)]
  | (k', v') :: rest =>
      if k' =? k then (k, v) :: rest else (k', v') :: map_set rest k v
  end.

(** [m.get(k) || 0] *)
Definition get_or_0 (m : JsMap Z) (k : Z) : Z :=
  match map_get m k with
  | Some v => v
  | None => 0
  end.

(** [Array.prototype.sort(cmp)]: [x] goes behind the elements it is
    strictly greater than and stays in front of its ties. *)
Fixpoint sort_insert {A} (cmp : A -> A -> Z) (x : A) (sorted : list A) : list A :=
  match sorted with
  | [] => [x]
  | y :: rest =>
      if 0 <? cmp x y then y :: sort_insert cmp x rest else x :: sorted
  end.

Fixpoint sort {A} (cmp : A -> A -> Z) (l : list A) : list A :=
  match l with
  | [] => []
  | x :: rest => sort_insert cmp x (sort cmp rest)
  end.

(** ** [Pow] *)

Module Pow.

Definition create (base exponent : Expression) : Expression :=
  if type_eqb (type_of exponent) TZero then ONE
  else if type_eqb (type_of exponent) TOne then base
  else if type_eqb (type_of base) TZero then ZERO
  else if type_eqb (type_of base) TOne then ONE
  else if isNumericType (type_of base) && isNumericType (type_of exponent)
  then SymNumber (Z.pow (value_of base) (value_of exponent))
  else NewPow base exponent.

End Pow.

(** ** [Mul] *)

Record PowerPair : Type := { pp_base : Expression; pp_exp : Z }.

Record MulFlattenResult : Type := {
  mf_factors : list Expression;
  mf_powers : list PowerPair;
  mf_coeff : Z
}.

Module Mul.

(** The variables that the closure [collectFactors] updates. *)
Record state : Type := {
  powers : JsMap Z;
  factors : list Expression;
  baseHashToExpr : JsMap Expression;
  coeff : Z
}.

Definition initial : state :=
  {| powers := []; factors := []; baseHashToExpr := []; coeff := 1 |}.

Fixpoint collectFactors (expr : Expression) (exponent : Z) (st : state) : state :=
  match expr with
  | SymNumber value =>
      if type_eqb (type_of expr) TZero then
        {| powers := powers st; factors := factors st;
           baseHashToExpr := baseHashToExpr st; coeff := 0 |}
      else if type_eqb (type_of expr) TOne then st
      else
        {| powers := powers st; factors := factors st;
           baseHashToExpr := baseHashToExpr st;
           coeff := coeff st * Z.pow value exponent |}
  | NewMul args =>
      fold_left (fun st arg => collectFactors arg exponent st) args st
  | NewPow base exp =>
      if isNumericType (type_of exp) then
        collectFactors base (value_of exp * exponent) st
      else
        {| powers := powers st; factors := factors st ++ [expr];
           baseHashToExpr := baseHashToExpr st; coeff := coeff st |}
  | _ =>
      let baseHash := hash expr in
      {| powers := map_set (powers st) baseHash (get_or_0 (powers st) baseHash + exponent);
         factors := factors st;
         baseHashToExpr := map_set (baseHashToExpr st) baseHash expr;
         coeff := coeff st |}
  end.

(** [for (const expr of seq) { if (coeff === 0) break; collectFactors(expr); }] *)
Fixpoint collectAll (seq : list Expression) (st : state) : state :=
  match seq with
  | [] => st
  | expr :: rest =>
      if coeff st =? 0 then st else collectAll rest (collectFactors expr 1 st)
  end.

(** The loop over [powers] that builds [powerPairs]. *)
Fixpoint powerPairs (entries : JsMap Z) (bases : JsMap Expression) : list PowerPair :=
  match entries with
  | [] => []
  | (baseHash, expValue) :: rest =>
      if expValue =? 0 then powerPairs rest bases
      else
        match map_get bases baseHash with
        | Some base => {| pp_base := base; pp_exp := expValue |} :: powerPairs rest bases
        | None => powerPairs rest bases
        end
  end.

Definition flatten (seq : list Expression) : MulFlattenResult :=
  let st := collectAll seq initial in
  {| mf_factors := sort compareTo (factors st);
     mf_powers :=
       sort (fun a b => compareTo (pp_base a) (pp_base b))
            (powerPairs (powers st) (baseHashToExpr st));
     mf_coeff := coeff st |}.

Definition powerArg (power : PowerPair) : Expression :=
  if pp_exp power =? 1 then pp_base power
  else Pow.create (pp_base power) (SymNumber (pp_exp power)).

Definition create (args : list Expression) : Expression :=
  match args with
  | [] => ONE
  | [a] => a
  | _ =>
      let flattened := flatten args in
      if mf_coeff flattened =? 0 then ZERO
      else if Nat.eqb (length (mf_factors flattened)) 0
              && Nat.eqb (length (mf_powers flattened)) 0
      then SymNumber (mf_coeff flattened)
      else
        let finalArgs :=
          (if negb (mf_coeff flattened =? 1)
           then [SymNumber (mf_coeff flattened)] else [])
          ++ map powerArg (mf_powers flattened)
          ++ mf_factors flattened in
        match finalArgs with
        | [] => ONE
        | [a] => a
        | _ => NewMul finalArgs
        end
  end.

End Mul.

(** ** [Add] *)

Record FlattenResult : Type := {
  fr_terms : list Expression;
  fr_coeff : Z
}.

Module Add.

Definition extractCoeffTerm (expr : Expression) : Z * Expression :=
  if isNumericType (type_of expr) then (value_of expr, ONE)
  else
    match expr with
    | NewMul (firstArg :: remainingArgs) =>
        if isNumericType (type_of firstArg) then
          (value_of firstArg,
           match remainingArgs with
           | [term] => term
           | _ => NewMul remainingArgs
           end)
        else (1, expr)
    | _ => (1, expr)
    end.

(** The variables that the closure [collectTerms] updates. *)
Record state : Type := {
  terms : JsMap Z;
  coeff : Z
}.

Definition initial : state := {| terms := []; coeff := 0 |}.

Definition addTerm (termHash amount : Z) (st : state) : state :=
  {| terms := map_set (terms st) termHash (get_or_0 (terms st) termHash + amount);
     coeff := coeff st |}.

Fixpoint collectTerms (expr : Expression) (coefficient : Z) (st : state) : state :=
  match expr with
  | SymNumber value =>
      if type_eqb (type_of expr) TZero then st
      else {| terms := terms st; coeff := coeff st + value * coefficient |}
  | NewAdd args =>
      fold_left (fun st arg => collectTerms arg coefficient st) args st
  | NewMul _ =>
      let (mulCoeff, term) := extractCoeffTerm expr in
      addTerm (hash term) (mulCoeff * coefficient) st
  | _ => addTerm (hash expr) coefficient st
  end.

(** What one element of [seq] offers to the search for the term with
    hash [termHash]. *)
Definition candidate (expr : Expression) (termHash : Z) : option Expression :=
  match type_of expr with
  | TAdd => find (fun arg => hash arg =? termHash) (args_of expr)
  | TMul =>
      let (_, extractedTerm) := extractCoeffTerm expr in
      if hash extractedTerm =? termHash then Some extractedTerm else None
  | _ => if hash expr =? termHash then Some expr else None
  end.

(** "Find the original term expression": the first candidate in [seq]. *)
Fixpoint findTerm (seq : list Expression) (termHash : Z) : option Expression :=
  match seq with
  | [] => None
  | expr :: rest =>
      match candidate expr termHash with
      | Some term => Some term
      | None => findTerm rest termHash
      end
  end.

(** The loop over [terms] that fills [resultTerms]. *)
Fixpoint resultTerms (entries : JsMap Z) (seq : list Expression) : list Expression :=
  match entries with
  | [] => []
  | (termHash, coeffValue) :: rest =>
      if coeffValue =? 0 then resultTerms rest seq
      else
        match findTerm seq termHash with
        | None => resultTerms rest seq
        | Some term =>
            (if coeffValue =? 1 then term
             else Mul.create [SymNumber coeffValue; term])
            :: resultTerms rest seq
        end
  end.

Definition collectAll (seq : list Expression) : state :=
  fold_left (fun st expr => collectTerms expr 1 st) seq initial.

Definition flatten (seq : list Expression) : FlattenResult :=
  let st := collectAll seq in
  {| fr_terms := sort compareTo (resultTerms (terms st) seq);
     fr_coeff := coeff st |}.

Definition create (args : list Expression) : Expression :=
  match args with
  | [] => ZERO
  | [a] => a
  | _ =>
      let flattened := flatten args in
      match fr_terms flattened with
      | [] => SymNumber (fr_coeff flattened)
      | term :: others =>
          if Nat.eqb (length (fr_terms flattened)) 1 && (fr_coeff flattened =? 0)
          then term
          else
            NewAdd ((if negb (fr_coeff flattened =? 0)
                     then [SymNumber (fr_coeff flattened)] else [])
                    ++ fr_terms flattened)
      end
  end.

End Add.

(** ** [TypeScriptBackend.evaluateNumerical] *)

Inductive EvalError : Type :=
| UnboundSymbol (name : string)
| Unevaluable (expr : Expression).

(** [Returns v]: the call returns the number [v].  [ReturnsOther]: the
    call returns a value that is no number of the embedding, which is a
    property that the record inherits, or the string or the [NaN] that the
    arithmetic of JavaScript makes of such a property. *)
Inductive EvalResult : Type :=
| Returns (value : Z)
| ReturnsOther
| Throws (error : EvalError).

(** The property names of [Object.prototype].  The record of substitutions
    is a plain object, so [name in substitutions] holds of its own keys and
    of these names. *)
Definition Object_prototype : list string :=
  ["constructor"; "__defineGetter__"; "__defineSetter__"; "hasOwnProperty";
   "__lookupGetter__"; "__lookupSetter__"; "isPrototypeOf";
   "propertyIsEnumerable"; "toString"; "valueOf"; "__proto__";
   "toLocaleString"]%string.

Definition inherited (name : string) : bool :=
  existsb (String.eqb name) Object_prototype.

(** The rest of a loop over the operands once the accumulator is no number
    any more ([0 + f] is a string, [1 * f] is [NaN], and both stay so): the
    operands are still evaluated, and only an exception changes the
    outcome. *)
Definition otherLoop (eval : Expression -> EvalResult)
  : list Expression -> EvalResult :=
  fix loop (args : list Expression) {struct args} : EvalResult :=
    match args with
    | [] => ReturnsOther
    | arg :: rest =>
        match eval arg with
        | Throws err => Throws err
        | _ => loop rest
        end
    end.

(** One round of [for (const arg of expr.args) acc = op(acc, evaluate(arg))];
    an exception leaves the loop. *)
Definition evalLoop (eval : Expression -> EvalResult) (op : Z -> Z -> Z)
  : list Expression -> Z -> EvalResult :=
  fix loop (args : list Expression) (acc : Z) {struct args} : EvalResult :=
    match args with
    | [] => Returns acc
    | arg :: rest =>
        match eval arg with
        | Returns v => loop rest (op acc v)
        | ReturnsOther => otherLoop eval rest
        | Throws err => Throws err
        end
    end.

(** [name in substitutions] holds of the keys of the record and of the
    names it inherits; [substitutions[name]] is a number for a key and the
    inherited property otherwise.  [Math.pow] of any value and 0 is 1, and
    [NaN] when one of the two is no number. *)
Fixpoint evaluateNumerical (expr : Expression) (substitutions : gmap string Z)
  : EvalResult :=
  match expr with
  | SymNumber value => Returns value
  | MkSymbol name _ =>
      match substitutions !! name with
      | Some v => Returns v
      | None =>
          if inherited name then ReturnsOther
          else Throws (UnboundSymbol name)
      end
  | NewAdd args =>
      evalLoop (fun arg => evaluateNumerical arg substitutions) Z.add args 0
  | NewMul args =>
      evalLoop (fun arg => evaluateNumerical arg substitutions) Z.mul args 1
  | NewPow b e =>
      match evaluateNumerical b substitutions with
      | Throws err => Throws err
      | Returns base =>
          match evaluateNumerical e substitutions with
          | Throws err => Throws err
          | Returns exponent => Returns (Z.pow base exponent)
          | ReturnsOther => ReturnsOther
          end
      | ReturnsOther =>
          match evaluateNumerical e substitutions with
          | Throws err => Throws err
          | Returns exponent => if exponent =? 0 then Returns 1 else ReturnsOther
          | ReturnsOther => ReturnsOther
          end
      end
  end.

(** [getSymbols] *)
Fixpoint getSymbols (e : Expression) : gset string :=
  match e with
  | SymNumber _ => ∅
  | MkSymbol name _ => {[ name ]}
  | NewAdd args | NewMul args => ⋃ (map getSymbols args)
  | NewPow b x => getSymbols b ∪ getSymbols x
  end.

(** ** Predicates used in the statements *)

(** Induction over expressions, with the operands of a node as hypotheses. *)
Section ExpressionInduction.
Variable P : Expression -> Prop.
Hypothesis HNumber : forall value, P (SymNumber value).
Hypothesis HSymbol : forall name symbolId, P (MkSymbol name symbolId).
Hypothesis HAdd : forall args, Forall P args -> P (NewAdd args).
Hypothesis HMul : forall args, Forall P args -> P (NewMul args).
Hypothesis HPow : forall b x, P b -> P x -> P (NewPow b x).

Fixpoint Expression_nested_ind (e : Expression) : P e :=
  match e with
  | SymNumber value => HNumber value
  | MkSymbol name symbolId => HSymbol name symbolId
  | NewAdd args =>
      HAdd args
        ((fix go (l : list Expression) : Forall P l :=
            match l with
            | [] => @List.Forall_nil _ P
            | x :: r => @List.Forall_cons _ P x r (Expression_nested_ind x) (go r)
            end) args)
  | NewMul args =>
      HMul args
        ((fix go (l : list Expression) : Forall P l :=
            match l with
            | [] => @List.Forall_nil _ P
            | x :: r => @List.Forall_cons _ P x r (Expression_nested_ind x) (go r)
            end) args)
  | NewPow b x => HPow b x (Expression_nested_ind b) (Expression_nested_ind x)
  end.
End ExpressionInduction.

(** Registries obtained from the empty one by [getId] alone. *)

Inductive registry_reachable : SymbolRegistry.t -> Prop :=
| reach_initial : registry_reachable SymbolRegistry.initial
| reach_getId r name :
    registry_reachable r -> registry_reachable (snd (SymbolRegistry.getId name r)).

Definition registered (r : SymbolRegistry.t) (name : string) (id : Z) : Prop :=
  SymbolRegistry.lookup name (SymbolRegistry.nameToId r) = Some id.

(** Every symbol node of [e] carries the id that [r] gives to its name. *)
Fixpoint interned (r : SymbolRegistry.t) (e : Expression) : Prop :=
  match e with
  | SymNumber _ => True
  | MkSymbol name symbolId => registered r name symbolId
  | NewAdd args | NewMul args =>
      (fix all (l : list Expression) : Prop :=
         match l with
         | [] => True
         | x :: rest => interned r x /\ all rest
         end) args
  | NewPow b x => interned r b /\ interned r x
  end.

Definition registry_inv (r : SymbolRegistry.t) : Prop :=
  (forall name id, registered r name id -> id < SymbolRegistry.nextId r) /\
  (forall n1 n2 id, registered r n1 id -> registered r n2 id -> n1 = n2).


(** [new SymSymbol("x")] in the empty registry. *)
Definition symbol_x : Expression := fst (SymSymbol "x" SymbolRegistry.initial).

Definition symbol_y : Expression :=
  fst (SymSymbol "y" (snd (SymSymbol "x" SymbolRegistry.initial))).

Definition symbol_z : Expression :=
  fst (SymSymbol "z"
         (snd (SymSymbol "y" (snd (SymSymbol "x" SymbolRegistry.initial))))).

(** The registry after [x], [y] and [z] were created in this order. *)
Definition registry_xyz : SymbolRegistry.t :=
  snd (SymSymbol "z"
         (snd (SymSymbol "y" (snd (SymSymbol "x" SymbolRegistry.initial))))).

(** Two names on which [fastHash] collides: [Symbol:ijjbij] and
    [Symbol:unzfyv] both hash to 655341361. *)
Definition symbol_p : Expression := fst (SymSymbol "ijjbij" SymbolRegistry.initial).
Definition symbol_q : Expression :=
  fst (SymSymbol "unzfyv" (snd (SymSymbol "ijjbij" SymbolRegistry.initial))).

(** [new SymSymbol("unzfyv")] after [new SymSymbol("ijjbij")] and
    [SymbolRegistry.clear()]. *)
Definition symbol_q_cleared : Expression :=
  fst (SymSymbol "unzfyv"
         (SymbolRegistry.clear (snd (SymSymbol "ijjbij" SymbolRegistry.initial)))).

(** The difference of the operand counts, the last resort of the comparison
    of two operand lists. *)
Definition lengthDiff (l l' : list Expression) : Z :=
  Z.of_nat (length l) - Z.of_nat (length l').



(** ** What a call of [collectFactors] does, variable by variable *)

(** The number that [collectFactors(expr, exponent)] multiplies into
    [coeff] (a node of type Zero sets it to 0). *)
Fixpoint numFactor (expr : Expression) (exponent : Z) : Z :=
  match expr with
  | SymNumber value =>
      if type_eqb (type_of expr) TZero then 0
      else if type_eqb (type_of expr) TOne then 1
      else value ^ exponent
  | NewMul args => fold_right (fun arg acc => numFactor arg exponent * acc) 1 args
  | NewPow base exp =>
      if isNumericType (type_of exp) then numFactor base (value_of exp * exponent)
      else 1
  | _ => 1
  end.

(** The bases that it records, with the exponent added for each, in the
    order of the calls. *)
Fixpoint baseList (expr : Expression) (exponent : Z) : list (Expression * Z) :=
  match expr with
  | SymNumber _ => []
  | NewMul args => flat_map (fun arg => baseList arg exponent) args
  | NewPow base exp =>
      if isNumericType (type_of exp) then baseList base (value_of exp * exponent)
      else []
  | _ => [(expr, exponent)]
  end.

(** The powers that it appends to [factors]. *)
Fixpoint factorList (expr : Expression) (exponent : Z) : list Expression :=
  match expr with
  | SymNumber _ => []
  | NewMul args => flat_map (fun arg => factorList arg exponent) args
  | NewPow base exp =>
      if isNumericType (type_of exp) then factorList base (value_of exp * exponent)
      else [expr]
  | _ => []
  end.

Definition numFactors (seq : list Expression) (exponent : Z) : Z :=
  fold_right (fun arg acc => numFactor arg exponent * acc) 1 seq.

Definition baseLists (seq : list Expression) (exponent : Z) : list (Expression * Z) :=
  flat_map (fun arg => baseList arg exponent) seq.

Definition factorLists (seq : list Expression) (exponent : Z) : list Expression :=
  flat_map (fun arg => factorList arg exponent) seq.

(** The updates of the two maps for a list of recorded bases. *)
Definition addPower (m : JsMap Z) (entry : Expression * Z) : JsMap Z :=
  map_set m (hash (fst entry)) (get_or_0 m (hash (fst entry)) + snd entry).

Definition setBase (m : JsMap Expression) (entry : Expression * Z) : JsMap Expression :=
  map_set m (hash (fst entry)) (fst entry).

Definition addPowers (bases : list (Expression * Z)) (m : JsMap Z) : JsMap Z :=
  fold_left addPower bases m.

Definition setBases (bases : list (Expression * Z)) (m : JsMap Expression)
  : JsMap Expression :=
  fold_left setBase bases m.

(** The comparator of [powerPairs.sort]. *)
Definition cmpBase (a b : PowerPair) : Z := compareTo (pp_base a) (pp_base b).

(** [Mul.create] after the call of [flatten]. *)
Definition Mul_assemble (flattened : MulFlattenResult) : Expression :=
  if mf_coeff flattened =? 0 then ZERO
  else if Nat.eqb (length (mf_factors flattened)) 0
          && Nat.eqb (length (mf_powers flattened)) 0
  then SymNumber (mf_coeff flattened)
  else
    let finalArgs :=
      (if negb (mf_coeff flattened =? 1)
       then [SymNumber (mf_coeff flattened)] else [])
      ++ map Mul.powerArg (mf_powers flattened)
      ++ mf_factors flattened in
    match finalArgs with
    | [] => ONE
    | [a] => a
    | _ => NewMul finalArgs
    end.

(** The power pairs that a list of recorded bases leaves. *)
Definition pairsOf (bases : list (Expression * Z)) : list PowerPair :=
  Mul.powerPairs (addPowers bases []) (setBases bases []).

(** The sum of the exponents recorded under the hash [h], and the base
    recorded last under it. *)
Fixpoint total (bases : list (Expression * Z)) (h : Z) : Z :=
  match bases with
  | [] => 0
  | entry :: rest =>
      if hash (fst entry) =? h then snd entry + total rest h else total rest h
  end.

Fixpoint lastBase (bases : list (Expression * Z)) (h : Z) : option Expression :=
  match bases with
  | [] => None
  | entry :: rest =>
      match lastBase rest h with
      | Some b => Some b
      | None => if hash (fst entry) =? h then Some (fst entry) else None
      end
  end.

Definition hashesOf (bases : list (Expression * Z)) : list Z :=
  map (fun entry => hash (fst entry)) bases.

Definition keysOf {V} (m : JsMap V) : list Z := map fst m.

(** The nodes that [collectFactors] records as bases, and those that it
    keeps as factors. *)
Definition isBase (e : Expression) : Prop :=
  match e with
  | MkSymbol _ _ | NewAdd _ => True
  | _ => False
  end.

Definition isFactor (e : Expression) : Prop :=
  match e with
  | NewPow _ x => isNumericType (type_of x) = false
  | _ => False
  end.

(** No two different nodes of the list share a hash. *)
Definition collision_free (l : list Expression) : Prop :=
  forall x y, In x l -> In y l -> hash x = hash y -> x = y.

(** The bases that [Mul.flatten(seq)] records. *)
Definition Mul_bases (seq : list Expression) : list Expression :=
  map fst (baseLists seq 1).

(** The power pairs read back as recorded bases. *)
Definition eventsOfPairs (pairs : list PowerPair) : list (Expression * Z) :=
  map (fun p => (pp_base p, pp_exp p)) pairs.

(** The operand list that [Mul.create] puts together. *)
Definition Mul_finalArgs (flattened : MulFlattenResult) : list Expression :=
  (if negb (mf_coeff flattened =? 1)
   then [SymNumber (mf_coeff flattened)] else [])
  ++ map Mul.powerArg (mf_powers flattened)
  ++ mf_factors flattened.

(** A pair that [powerPairs] can hold: a recorded base, an exponent that is
    not 0. *)
Definition goodPair (p : PowerPair) : Prop := isBase (pp_base p) /\ pp_exp p <> 0.

Definition pairHash (p : PowerPair) : Z := hash (pp_base p).

(** ** What a call of [collectTerms] does, variable by variable *)

(** The number that [collectTerms(expr, coefficient)] adds to [coeff]. *)
Fixpoint numSum (expr : Expression) (coefficient : Z) : Z :=
  match expr with
  | SymNumber value =>
      if type_eqb (type_of expr) TZero then 0 else value * coefficient
  | NewAdd args => fold_right (fun arg acc => numSum arg coefficient + acc) 0 args
  | _ => 0
  end.

(** The terms under whose hashes it adds, with the amounts, in the order of
    the calls. *)
Fixpoint termList (expr : Expression) (coefficient : Z) : list (Expression * Z) :=
  match expr with
  | SymNumber _ => []
  | NewAdd args => flat_map (fun arg => termList arg coefficient) args
  | NewMul _ =>
      let (mulCoeff, term) := Add.extractCoeffTerm expr in
      [(term, mulCoeff * coefficient)]
  | _ => [(expr, coefficient)]
  end.

Definition numSums (seq : list Expression) (coefficient : Z) : Z :=
  fold_right (fun arg acc => numSum arg coefficient + acc) 0 seq.

Definition termLists (seq : list Expression) (coefficient : Z) : list (Expression * Z) :=
  flat_map (fun arg => termList arg coefficient) seq.

(** [Add.create] after the call of [flatten]. *)
Definition Add_assemble (flattened : FlattenResult) : Expression :=
  match fr_terms flattened with
  | [] => SymNumber (fr_coeff flattened)
  | term :: others =>
      if Nat.eqb (length (fr_terms flattened)) 1 && (fr_coeff flattened =? 0)
      then term
      else
        NewAdd ((if negb (fr_coeff flattened =? 0)
                 then [SymNumber (fr_coeff flattened)] else [])
                ++ fr_terms flattened)
  end.

(** The entry of [resultTerms] for a term and its coefficient. *)
Definition rebuild (coeffValue : Z) (term : Expression) : Expression :=
  if coeffValue =? 1 then term else Mul.create [SymNumber coeffValue; term].

(** The nodes among which [Add.flatten(seq)] looks for the term of a key. *)
Definition Add_candidates (seq : list Expression) : list Expression :=
  flat_map (fun expr =>
              match type_of expr with
              | TAdd => args_of expr
              | TMul => [snd (Add.extractCoeffTerm expr)]
              | _ => [expr]
              end) seq.

(** A check that the hashes of a list of nodes are pairwise different. *)
Fixpoint distinct_hashes (l : list Expression) : bool :=
  match l with
  | [] => true
  | x :: rest =>
      forallb (fun y => negb (hash x =? hash y)) rest && distinct_hashes rest
  end.






(** ** [src/core/types.ts]: the rest of [SymbolRegistry], and [NumericOps] *)

(** [idToName.get(id)] *)
Fixpoint lookupName (id : Z) (m : list (Z * string)) : option string :=
  match m with
  | [] => None
  | (k, v) :: rest => if k =? id then Some v else lookupName id rest
  end.

(** [SymbolRegistry.getName]: [idToName.get(id) || `symbol_${id}`]; the
    empty string is falsy as [undefined] is. *)
Definition getName (id : Z) (r : SymbolRegistry.t) : string :=
  match lookupName id (SymbolRegistry.idToName r) with
  | Some name =>
      if String.eqb name "" then ("symbol_" +:+ numberToString id)%string else name
  | None => ("symbol_" +:+ numberToString id)%string
  end.

Module NumericOps.

(** [addCoeffs]: the copy into a [Float64Array] keeps the numbers, and both
    loops add from the left, starting at 0. *)
Definition addCoeffs (coeffs : list Z) : Z :=
  match coeffs with
  | [] => 0
  | [c] => c
  | [c; d] => c + d
  | _ =>
      if (10 <? length coeffs)%nat then
        let arr := coeffs in
        fold_left (fun sum c => sum + c) arr 0
      else fold_left (fun sum c => sum + c) coeffs 0
  end.

(** The loop of [mulCoeffs], which returns 0 at the first 0 and skips the
    ones. *)
Fixpoint mulLoop (coeffs : list Z) (result : Z) : Z :=
  match coeffs with
  | [] => result
  | c :: rest =>
      if c =? 0 then 0
      else if c =? 1 then mulLoop rest result
      else mulLoop rest (result * c)
  end.

Definition mulCoeffs (coeffs : list Z) : Z :=
  match coeffs with
  | [] => 1
  | [c] => c
  | [c; d] => c * d
  | _ => mulLoop coeffs 1
  end.

(** The loop [while (b !== 0) { temp = b; b = a % b; a = temp }] of [gcd],
    run for at most [fuel] rounds; [None] when they do not suffice. *)
Fixpoint gcdLoop (fuel : nat) (a b : Z) : option Z :=
  match fuel with
  | O => None
  | S fuel' => if b =? 0 then Some a else gcdLoop fuel' b (Z.rem a b)
  end.

Definition gcd (fuel : nat) (a b : Z) : option Z :=
  gcdLoop fuel (Z.abs a) (Z.abs b).

(** The loop [for (i = 1; i < nums.length && result > 1; i++)] of
    [gcdArray], over the elements from the second on. *)
Fixpoint gcdArrayLoop (fuel : nat) (rest : list Z) (result : Z) : option Z :=
  match rest with
  | [] => Some result
  | x :: rest' =>
      if 1 <? result then
        match gcd fuel result x with
        | Some g => gcdArrayLoop fuel rest' g
        | None => None
        end
      else Some result
  end.

Definition gcdArray (fuel : nat) (nums : list Z) : option Z :=
  match nums with
  | [] => Some 1
  | [x] => Some (Z.abs x)
  | x :: rest => gcdArrayLoop fuel rest (Z.abs x)
  end.

End NumericOps.

(** What [getId] leaves behind links the two maps: a name has an id in
    [nameToId] exactly when the id has that name in [idToName], and the ids
    run from 1 to [nextId - 1]. *)
Definition registry_linked (r : SymbolRegistry.t) : Prop :=
  (forall name id, registered r name id <->
                   lookupName id (SymbolRegistry.idToName r) = Some name) /\
  (forall name id, registered r name id -> 1 <= id < SymbolRegistry.nextId r).

(** ** Predicates of the statements on what [create] keeps *)

(** Every [Add] and [Mul] node of [e] has two operands or more. *)
Fixpoint wellFormed (e : Expression) : Prop :=
  match e with
  | SymNumber _ | MkSymbol _ _ => True
  | NewAdd args | NewMul args =>
      (2 <= length args)%nat /\
      (fix all (l : list Expression) : Prop :=
         match l with
         | [] => True
         | x :: rest => wellFormed x /\ all rest
         end) args
  | NewPow b x => wellFormed b /\ wellFormed x
  end.

(** The expressions that the exported constructors build: [num], [sym],
    and [Add.create], [Mul.create] and [Pow.create] on built operands. *)
Inductive built : Expression -> Prop :=
| built_num value : built (SymNumber value)
| built_sym name r : built (fst (SymSymbol name r))
| built_Add args : (forall a, In a args -> built a) -> built (Add.create args)
| built_Mul args : (forall a, In a args -> built a) -> built (Mul.create args)
| built_Pow b x : built b -> built x -> built (Pow.create b x).

(** ** Predicates of the statements on evaluation *)

(** The number that [evaluateNumerical] returns, 0 when it returns none. *)
Definition valueOf (s : gmap string Z) (e : Expression) : Z :=
  match evaluateNumerical e s with
  | Returns v => v
  | _ => 0
  end.

Definition evaluable (s : gmap string Z) (e : Expression) : Prop :=
  exists v, evaluateNumerical e s = Returns v.

(** On the way of [collectFactors(expr, exponent)] through products and
    powers, every numeric exponent is positive, and a power with an
    exponent that is no number is met under the exponent 1 only. *)
Fixpoint powersKept (expr : Expression) (exponent : Z) : Prop :=
  match expr with
  | NewMul args =>
      (fix all (l : list Expression) : Prop :=
         match l with
         | [] => True
         | x :: rest => powersKept x exponent /\ all rest
         end) args
  | NewPow base exp =>
      if isNumericType (type_of exp)
      then 0 < value_of exp /\ powersKept base (value_of exp * exponent)
      else exponent = 1
  | _ => True
  end.

(** The products of the values of a list of nodes, of recorded bases with
    their exponents, and of power pairs. *)
Definition prodValues (s : gmap string Z) (l : list Expression) : Z :=
  fold_right (fun a acc => valueOf s a * acc) 1 l.

Definition prodBases (s : gmap string Z) (B : list (Expression * Z)) : Z :=
  fold_right (fun p acc => valueOf s (fst p) ^ snd p * acc) 1 B.

Definition prodPairs (s : gmap string Z) (P : list PowerPair) : Z :=
  fold_right (fun p acc => valueOf s (pp_base p) ^ pp_exp p * acc) 1 P.

(** The value of the term that [Add.flatten(seq)] finds for a key, 0 when
    it finds none; the sums of the values of map entries, of recorded
    terms with their coefficients, and of a list of nodes. *)
Definition termValue (s : gmap string Z) (seq : list Expression) (h : Z) : Z :=
  match Add.findTerm seq h with
  | Some t => valueOf s t
  | None => 0
  end.

Definition sumEntries (s : gmap string Z) (seq : list Expression) (E : JsMap Z) : Z :=
  fold_right (fun entry acc => snd entry * termValue s seq (fst entry) + acc) 0 E.

Definition sumTerms (s : gmap string Z) (T : list (Expression * Z)) : Z :=
  fold_right (fun p acc => snd p * valueOf s (fst p) + acc) 0 T.

Definition sumValues (s : gmap string Z) (l : list Expression) : Z :=
  fold_right (fun a acc => valueOf s a + acc) 0 l.

(** An operand of [Add.create] that is a sum has neither a sum nor a
    product among its own operands. *)
Definition flatSum (e : Expression) : Prop :=
  match e with
  | NewAdd args => Forall (fun a => type_of a <> TAdd /\ type_of a <> TMul) args
  | _ => True
  end.

(** ** The fragment on which the embedding agrees with the code *)

(** The integers that a double holds exactly.  The sum, the difference and
    the product of two of them are exact when the result is one of them,
    and so is a power with an exponent that is not negative. *)
Definition exactInteger (v : Z) : Prop := Z.abs v <= 2 ^ 53.

(** The values that the accumulator of a loop [acc = op(acc, v)] takes. *)
Fixpoint accumulated (op : Z -> Z -> Z) (acc : Z) (vs : list Z) : list Z :=
  match vs with
  | [] => []
  | v :: rest => op acc v :: accumulated op (op acc v) rest
  end.

(** Every number node of [e] holds such an integer. *)
Fixpoint exactNumbers (e : Expression) : Prop :=
  match e with
  | SymNumber value => exactInteger value
  | MkSymbol _ _ => True
  | NewAdd args | NewMul args =>
      (fix all (l : list Expression) : Prop :=
         match l with
         | [] => True
         | x :: rest => exactNumbers x /\ all rest
         end) args
  | NewPow b x => exactNumbers b /\ exactNumbers x
  end.

(** Names made of the letters [a] to [z].  On them [localeCompare] is the
    code-unit order of the embedding, and it returns 0 for equal names
    only. *)
Definition lowerCase (name : string) : bool :=
  forallb (fun c => (97 <=? c) && (c <=? 122)) (charCodes name).

(** Every symbol of [e] has such a name. *)
Fixpoint lowerCaseNames (e : Expression) : Prop :=
  match e with
  | SymNumber _ => True
  | MkSymbol name _ => lowerCase name = true
  | NewAdd args | NewMul args =>
      (fix all (l : list Expression) : Prop :=
         match l with
         | [] => True
         | x :: rest => lowerCaseNames x /\ all rest
         end) args
  | NewPow b x => lowerCaseNames b /\ lowerCaseNames x
  end.

(** A bound, 2 at least, of the absolute values of the numbers that the code
    computes from [e] when the symbols stand for the numbers [val]: a number
    counts with its absolute value, a sum with the sum and a product with
    the product of the bounds of its operands, and a power with the bound of
    the base raised to the bound of the exponent.  The bounds being 2 at
    least, a sum of bounds is at most their product, and the bound of a
    power exceeds its exponent. *)
Fixpoint magnitude (val : string -> Z) (e : Expression) : Z :=
  match e with
  | SymNumber value => 2 + Z.abs value
  | MkSymbol name _ => 2 + Z.abs (val name)
  | NewAdd args => fold_right (fun arg acc => magnitude val arg + acc) 2 args
  | NewMul args => fold_right (fun arg acc => magnitude val arg * acc) 2 args
  | NewPow b x => magnitude val b ^ magnitude val x
  end.

(** The bound for the [create] routines, which do not look at the values of
    the symbols, and the numbers that a record of substitutions gives to the
    names. *)
Definition size (e : Expression) : Z := magnitude (fun _ => 0) e.

Definition valuation (s : gmap string Z) (name : string) : Z :=
  match s !! name with
  | Some v => v
  | None => 0
  end.

(** On the way of [collectFactors(expr, exponent)] through products and
    powers, every number is met under an exponent that is not negative, so
    that [Math.pow(value, exponent)] is an integer. *)
Fixpoint integralPowers (expr : Expression) (exponent : Z) : Prop :=
  match expr with
  | SymNumber _ => 0 <= exponent
  | NewMul args =>
      (fix all (l : list Expression) : Prop :=
         match l with
         | [] => True
         | x :: rest => integralPowers x exponent /\ all rest
         end) args
  | NewPow base exp =>
      if isNumericType (type_of exp)
      then integralPowers base (value_of exp * exponent)
      else True
  | _ => True
  end.

(** The arithmetic of [Mul.flatten(ops)] is exact in doubles.  The
    function multiplies into [coeff] the powers [v ^ k] of the numbers [v]
    of the operands, where [k] is the product of the numeric exponents
    above [v], and adds up such products [k] for every base.  When no
    number is met under a negative exponent these are integers, and the
    absolute values of the products and sums of them that it computes are
    at most the product of the bounds of the operands, which stays below
    [2^53]. *)
Definition exactFactors (ops : list Expression) : Prop :=
  Forall (fun e => integralPowers e 1) ops /\ size (NewMul ops) <= 2 ^ 53.

(** The arithmetic of [Add.flatten(ops)] is exact in doubles, that of the
    products [Mul.create(coeff, term)] which it builds included.  The
    function adds up the numbers and the numeric coefficients of the
    operands, and [Mul.create] multiplies the sum of the coefficients of the
    operands with one term into the numbers of this term; the absolute
    values are at most the sum of the bounds of the operands, which stays
    below [2^53]. *)
Definition exactTerms (ops : list Expression) : Prop :=
  Forall (fun t => integralPowers t 1) (Add_candidates ops) /\
  size (NewAdd ops) <= 2 ^ 53.

(** Under [s], every power inside [e] has an exponent whose value is not
    negative, so that [evaluateNumerical] stays within the integers. *)
Fixpoint nonnegExponents (s : gmap string Z) (e : Expression) : Prop :=
  match e with
  | SymNumber _ | MkSymbol _ _ => True
  | NewAdd args | NewMul args =>
      (fix all (l : list Expression) : Prop :=
         match l with
         | [] => True
         | x :: rest => nonnegExponents s x /\ all rest
         end) args
  | NewPow b x => 0 <= valueOf s x /\ nonnegExponents s b /\ nonnegExponents s x
  end.

(** ** Numbers as doubles

    [Pow.create] and [evaluateNumerical] once more, with the numbers of the
    code for numbers: a number node holds a binary64 double, [===], [+] and
    [*] are the operations of IEEE 754, and [Math.pow], which ECMAScript
    leaves to the implementation, is a parameter.  The statements about the
    floating-point results of the two functions are made on this
    embedding. *)

Module Doubles.

Inductive Expression : Type :=
| SymNumber (value : float)
| MkSymbol (name : string) (symbolId : Z)
| NewAdd (args : list Expression)
| NewMul (args : list Expression)
| NewPow (base exponent : Expression).

(** The type that the constructor of [SymNumber] computes with [===]: [-0]
    is of type Zero as [0] is, and [NaN] is of type Number. *)
Definition type_of (e : Expression) : ExpressionType :=
  match e with
  | SymNumber value =>
      if PrimFloat.eqb value 0 then TZero
      else if PrimFloat.eqb value 1 then TOne
      else if PrimFloat.eqb value (-1) then TNegativeOne
      else TNumber
  | MkSymbol _ _ => TSymbol
  | NewAdd _ => TAdd
  | NewMul _ => TMul
  | NewPow _ _ => TPow
  end.

Definition args_of (e : Expression) : list Expression :=
  match e with
  | SymNumber _ | MkSymbol _ _ => []
  | NewAdd args | NewMul args => args
  | NewPow base exponent => [base; exponent]
  end.

Definition ZERO : Expression := SymNumber 0.
Definition ONE : Expression := SymNumber 1.

(** [(expr as SymNumber).value]; only read on nodes of a numeric type. *)
Definition value_of (e : Expression) : float :=
  match e with
  | SymNumber value => value
  | _ => nan
  end.

Fixpoint getSymbols (e : Expression) : gset string :=
  match e with
  | SymNumber _ => ∅
  | MkSymbol name _ => {[ name ]}
  | NewAdd args | NewMul args => ⋃ (map getSymbols args)
  | NewPow b x => getSymbols b ∪ getSymbols x
  end.

(** A value at run time: a number, or a value that is no number, which is
    a property that the record of substitutions inherits or a string that
    [+] made of one. *)
Inductive Value : Type :=
| Num (number : float)
| Other.

(** [a + b]: the sum of two numbers; with an operand that is no number,
    the concatenation of two strings. *)
Definition plus (a b : Value) : Value :=
  match a, b with
  | Num x, Num y => Num (x + y)
  | _, _ => Other
  end.

(** [ToNumber]: [NaN] for an inherited property and for a string made of
    one. *)
Definition toNumber (a : Value) : float :=
  match a with
  | Num x => x
  | Other => nan
  end.

(** [a * b] *)
Definition times (a b : Value) : Value := Num (toNumber a * toNumber b).

Inductive EvalError : Type :=
| UnboundSymbol (name : string)
| Unevaluable (expr : Expression).

Inductive EvalResult : Type :=
| Returns (value : Value)
| Throws (error : EvalError).

(** One round of [for (const arg of expr.args) acc = op(acc, evaluate(arg))];
    an exception leaves the loop. *)
Definition evalLoop (eval : Expression -> EvalResult) (op : Value -> Value -> Value)
  : list Expression -> Value -> EvalResult :=
  fix loop (args : list Expression) (acc : Value) {struct args} : EvalResult :=
    match args with
    | [] => Returns acc
    | arg :: rest =>
        match eval arg with
        | Returns v => loop rest (op acc v)
        | Throws err => Throws err
        end
    end.

Module Pow.
Section Host.

(** [Math.pow], for ECMAScript "an implementation-approximated Number
    value". *)
Variable Math_pow : float -> float -> float.

Definition create (base exponent : Expression) : Expression :=
  if type_eqb (type_of exponent) TZero then ONE
  else if type_eqb (type_of exponent) TOne then base
  else if type_eqb (type_of base) TZero then ZERO
  else if type_eqb (type_of base) TOne then ONE
  else if isNumericType (type_of base) && isNumericType (type_of exponent)
  then SymNumber (Math_pow (value_of base) (value_of exponent))
  else NewPow base exponent.

End Host.
End Pow.

Section Host.

Variable Math_pow : float -> float -> float.

Fixpoint evaluateNumerical (expr : Expression) (substitutions : gmap string float)
  : EvalResult :=
  match expr with
  | SymNumber value => Returns (Num value)
  | MkSymbol name _ =>
      match substitutions !! name with
      | Some v => Returns (Num v)
      | None =>
          if inherited name then Returns Other
          else Throws (UnboundSymbol name)
      end
  | NewAdd args =>
      evalLoop (fun arg => evaluateNumerical arg substitutions) plus args (Num 0)
  | NewMul args =>
      evalLoop (fun arg => evaluateNumerical arg substitutions) times args (Num 1)
  | NewPow b e =>
      match evaluateNumerical b substitutions with
      | Throws err => Throws err
      | Returns base =>
          match evaluateNumerical e substitutions with
          | Throws err => Throws err
          | Returns exponent =>
              Returns (Num (Math_pow (toNumber base) (toNumber exponent)))
          end
      end
  end.

End Host.

End Doubles.



(** * Properties *)

(** ** Structural facts *)

(** Hashes of symbolic nodes are never unfolded by simplification. *)
Arguments hash : simpl never.


Lemma type_eqb_eq s t : type_eqb s t = true <-> s = t.
Proof. unfold type_eqb. rewrite Z.eqb_eq. destruct s, t; simpl; split; congruence || lia. Qed.

Lemma type_eqb_refl t : type_eqb t t = true.
Proof. apply type_eqb_eq. reflexivity. Qed.

Lemma equalsArgs_refl (l : list Expression) :
  Forall (fun e => equals e e = true) l -> equalsArgs equals l l = true.
Proof. induction 1 as [|x r Hx _ IH]; simpl; [reflexivity|]. rewrite Hx. exact IH. Qed.

Lemma equals_refl e : equals e e = true.
Proof.
  induction e as [v|n i|l IH|l IH|b x IHb IHx] using Expression_nested_ind;
    cbn [equals]; rewrite Z.eqb_refl, type_eqb_refl; simpl.
  - apply Z.eqb_refl.
  - apply Z.eqb_refl.
  - rewrite Nat.eqb_refl. simpl. apply equalsArgs_refl, IH.
  - rewrite Nat.eqb_refl. simpl. apply equalsArgs_refl, IH.
  - rewrite IHb, IHx. reflexivity.
Qed.

Lemma equals_hash a b : equals a b = true -> hash a = hash b.
Proof.
  destruct a, b; cbn [equals]; intros H;
    apply andb_true_iff in H as [H _]; apply andb_true_iff in H as [H _];
    apply Z.eqb_eq in H; exact H.
Qed.

Lemma interned_args r l :
  (fix all (l : list Expression) : Prop :=
     match l with
     | [] => True
     | x :: rest => interned r x /\ all rest
     end) l <-> Forall (interned r) l.
Proof.
  induction l as [|x rest IH]; simpl.
  - split; auto.
  - rewrite IH. split.
    + intros [? ?]. constructor; assumption.
    + intros H. inversion H; subst. auto.
Qed.

Lemma registry_reachable_inv r : registry_reachable r -> registry_inv r.
Proof.
  induction 1 as [|r name _ [Hlt Hinj]].
  - split; unfold registered; simpl; intros; discriminate.
  - unfold SymbolRegistry.getId.
    destruct (SymbolRegistry.lookup name (SymbolRegistry.nameToId r)) eqn:Hl; simpl.
    + split; assumption.
    + unfold registered in *. simpl. split.
      * intros n id H. unfold registered in H. cbn in H |- *.
        destruct (String.eqb name n) eqn:E; rewrite ?E in H.
        -- injection H as Hid. lia.
        -- apply Hlt in H. lia.
      * intros n1 n2 id H1 H2. unfold registered in H1, H2. cbn in H1, H2.
        destruct (String.eqb name n1) eqn:E1; destruct (String.eqb name n2) eqn:E2;
          rewrite ?E1 in H1; rewrite ?E2 in H2.
        -- apply String.eqb_eq in E1, E2. congruence.
        -- injection H1 as Hid. apply Hlt in H2. lia.
        -- injection H2 as Hid. apply Hlt in H1. lia.
        -- eapply Hinj; eassumption.
Qed.

Lemma equalsArgs_eq r (l l' : list Expression) :
  Forall (fun a => forall b, interned r a -> interned r b -> equals a b = true -> a = b) l ->
  Forall (interned r) l -> Forall (interned r) l' ->
  length l = length l' ->
  equalsArgs equals l l' = true -> l = l'.
Proof.
  intros HF. revert l'.
  induction HF as [|x rest Hx _ IH]; intros [|y rest'] Hl Hl' Hlen; simpl in *;
    try discriminate; [reflexivity|].
  inversion Hl; inversion Hl'; subst.
  destruct (equals x y) eqn:E; simpl; [|discriminate].
  intros H. f_equal; [apply Hx; assumption | apply IH; auto; lia].
Qed.

Lemma equals_eq r a b :
  registry_reachable r -> interned r a -> interned r b ->
  equals a b = true -> a = b.
Proof.
  intros Hr. apply registry_reachable_inv in Hr as [_ Hinj]. revert b.
  induction a as [v|n i|l IH|l IH|b1 x1 IHb IHx] using Expression_nested_ind;
    intros [w|m j|l'|l'|b2 x2] Ha Hb; cbn [equals]; intros H;
    repeat (apply andb_true_iff in H as [H ?]);
    try discriminate.
  - f_equal. apply Z.eqb_eq. assumption.
  - simpl in Ha, Hb.
    match goal with E : (i =? j) = true |- _ => apply Z.eqb_eq in E; subst j end.
    f_equal. eapply Hinj; eassumption.
  - simpl in Ha, Hb. apply interned_args in Ha, Hb.
    destruct (Nat.eqb (length l) (length l')) eqn:E; simpl in *; [|discriminate].
    apply Nat.eqb_eq in E. f_equal. eapply equalsArgs_eq; eassumption.
  - simpl in Ha, Hb. apply interned_args in Ha, Hb.
    destruct (Nat.eqb (length l) (length l')) eqn:E; simpl in *; [|discriminate].
    apply Nat.eqb_eq in E. f_equal. eapply equalsArgs_eq; eassumption.
  - destruct Ha, Hb.
    match goal with E : equals b1 b2 && equals x1 x2 = true |- _ =>
      apply andb_true_iff in E as [? ?] end.
    f_equal; [apply IHb | apply IHx]; assumption.
Qed.

Lemma type_of_SymNumber_numeric v : isNumericType (type_of (SymNumber v)) = true.
Proof. simpl. repeat destruct (_ =? _); reflexivity. Qed.


Lemma type_of_Add_inv x : type_of x = TAdd -> exists l, x = NewAdd l.
Proof.
  destruct x; try discriminate; [|eauto].
  intros H. pose proof (type_of_SymNumber_numeric value) as N. rewrite H in N. discriminate.
Qed.




(** ** The canonical order *)

Lemma compareArgs_cons cmp d x r y r' :
  compareArgs cmp d (x :: r) (y :: r')
  = if negb (cmp x y =? 0) then cmp x y else compareArgs cmp d r r'.
Proof. reflexivity. Qed.

Lemma compareArgs_nil_l cmp d l' : compareArgs cmp d [] l' = d.
Proof. reflexivity. Qed.

Lemma compareArgs_nil_r cmp d l : compareArgs cmp d l [] = d.
Proof. destruct l; reflexivity. Qed.

Lemma compareTo_same_type a b :
  compareTo a b = 0 -> type_of a = type_of b.
Proof.
  intros H. destruct (negb (TYPE_ORDER (type_of a) - TYPE_ORDER (type_of b) =? 0)) eqn:E.
  - assert (compareTo a b = TYPE_ORDER (type_of a) - TYPE_ORDER (type_of b)) as H'.
    { destruct a; cbn [compareTo]; rewrite E; reflexivity. }
    rewrite H' in H. rewrite H in E. discriminate.
  - apply negb_false_iff, Z.eqb_eq in E.
    destruct (type_of a), (type_of b); simpl in E; try lia; reflexivity.
Qed.

Lemma compareTo_types a b :
  type_of a <> type_of b ->
  compareTo a b = TYPE_ORDER (type_of a) - TYPE_ORDER (type_of b).
Proof.
  intros H.
  assert (negb (TYPE_ORDER (type_of a) - TYPE_ORDER (type_of b) =? 0) = true) as E.
  { apply negb_true_iff, Z.eqb_neq. intros C. apply H.
    destruct (type_of a), (type_of b); simpl in C; try lia; reflexivity. }
  destruct a; cbn [compareTo]; rewrite E; reflexivity.
Qed.

Lemma localeCompare_antisym n m : localeCompare m n = - localeCompare n m.
Proof.
  unfold localeCompare. rewrite (String.compare_antisym n m).
  destruct (String.compare m n); reflexivity.
Qed.

Lemma localeCompare_eq n m : localeCompare n m = 0 -> n = m.
Proof.
  unfold localeCompare. destruct (String.compare n m) eqn:E; try discriminate.
  intros _. apply String.compare_eq_iff. exact E.
Qed.

Lemma compareArgs_antisym (l : list Expression) :
  Forall (fun a => forall b, compareTo b a = - compareTo a b) l ->
  forall l' d, compareArgs compareTo (- d) l' l = - compareArgs compareTo d l l'.
Proof.
  induction 1 as [|x r Hx _ IH]; intros [|y r'] d; try reflexivity.
  rewrite !compareArgs_cons, (Hx y), IH.
  destruct (Z.eqb_spec (compareTo x y) 0) as [E|E].
  - rewrite E. reflexivity.
  - destruct (Z.eqb_spec (- compareTo x y) 0); [lia|reflexivity].
Qed.

Lemma compareTo_antisym a : forall b, compareTo b a = - compareTo a b.
Proof.
  induction a as [v|n i|l IH|l IH|b1 x1 IHb IHx] using Expression_nested_ind; intros b;
    (match goal with |- compareTo _ ?a = _ =>
       destruct (type_eqb (type_of b) (type_of a)) eqn:T end;
     [apply type_eqb_eq in T
     |rewrite !compareTo_types;
      [lia| |]; intros C; rewrite C, type_eqb_refl in T; discriminate]).
  - destruct b as [w| | | |];
      try (pose proof (type_of_SymNumber_numeric v) as N; rewrite <- T in N; discriminate).
    cbn [compareTo]. rewrite T, Z.sub_diag. simpl. lia.
  - destruct b as [w|m j| | |]; try discriminate T.
    + pose proof (type_of_SymNumber_numeric w) as N. rewrite T in N. discriminate.
    + cbn [compareTo type_of]. simpl. apply localeCompare_antisym.
  - destruct b as [w| |l'| |]; try discriminate T.
    + pose proof (type_of_SymNumber_numeric w) as N. rewrite T in N. discriminate.
    + cbn [compareTo type_of]. simpl.
      rewrite <- (compareArgs_antisym l IH).
      f_equal. lia.
  - destruct b as [w| | |l'|]; try discriminate T.
    + pose proof (type_of_SymNumber_numeric w) as N. rewrite T in N. discriminate.
    + cbn [compareTo type_of]. simpl.
      rewrite <- (compareArgs_antisym l IH).
      f_equal. lia.
  - destruct b as [w| | | |b2 x2]; try discriminate T.
    + pose proof (type_of_SymNumber_numeric w) as N. rewrite T in N. discriminate.
    + cbn [compareTo type_of]. simpl. rewrite (IHb b2), (IHx x2).
      destruct (Z.eqb_spec (compareTo b1 b2) 0) as [E|E].
      * rewrite E. reflexivity.
      * destruct (Z.eqb_spec (- compareTo b1 b2) 0); [lia|reflexivity].
Qed.

Lemma ascii_compare_lt_trans a b c :
  Ascii.compare a b = Lt -> Ascii.compare b c = Lt -> Ascii.compare a c = Lt.
Proof.
  unfold Ascii.compare. rewrite !N.compare_lt_iff. apply N.lt_trans.
Qed.

Lemma string_compare_lt_trans s1 : forall s2 s3,
  String.compare s1 s2 = Lt -> String.compare s2 s3 = Lt -> String.compare s1 s3 = Lt.
Proof.
  induction s1 as [|c1 r1 IH]; intros [|c2 r2] [|c3 r3]; simpl; try discriminate; auto.
  destruct (Ascii.compare c1 c2) eqn:E12; try discriminate;
    destruct (Ascii.compare c2 c3) eqn:E23; try discriminate; intros H1 H2.
  - apply Ascii.compare_eq_iff in E12, E23. subst.
    assert (Ascii.compare c3 c3 = Eq) as -> by (unfold Ascii.compare; apply N.compare_refl).
    eapply IH; eassumption.
  - apply Ascii.compare_eq_iff in E12. subst. rewrite E23. reflexivity.
  - apply Ascii.compare_eq_iff in E23. subst. rewrite E12. reflexivity.
  - rewrite (ascii_compare_lt_trans _ _ _ E12 E23). reflexivity.
Qed.

Lemma localeCompare_lt_trans n m k :
  localeCompare n m < 0 -> localeCompare m k < 0 -> localeCompare n k < 0.
Proof.
  unfold localeCompare.
  destruct (String.compare n m) eqn:E1; try lia.
  destruct (String.compare m k) eqn:E2; try lia.
  rewrite (string_compare_lt_trans _ _ _ E1 E2). lia.
Qed.

Lemma lengthDiff_cons x r y r' : lengthDiff (x :: r) (y :: r') = lengthDiff r r'.
Proof. unfold lengthDiff. simpl length. lia. Qed.

Lemma registered_functional r n i j : registered r n i -> registered r n j -> i = j.
Proof. unfold registered. congruence. Qed.

Lemma compareArgs_eq r (l : list Expression) :
  Forall (fun a => forall b, interned r a -> interned r b -> compareTo a b = 0 -> a = b) l ->
  forall l', Forall (interned r) l -> Forall (interned r) l' ->
  compareArgs compareTo (lengthDiff l l') l l' = 0 -> l = l'.
Proof.
  induction 1 as [|x rest Hx _ IH]; intros [|y rest'] Hl Hl'.
  - reflexivity.
  - rewrite compareArgs_nil_l. unfold lengthDiff. simpl length. lia.
  - rewrite compareArgs_nil_r. unfold lengthDiff. simpl length. lia.
  - inversion Hl; inversion Hl'; subst.
    rewrite compareArgs_cons, lengthDiff_cons.
    destruct (Z.eqb_spec (compareTo x y) 0) as [E|E]; simpl.
    + intros H. f_equal; [apply Hx; assumption | apply IH; assumption].
    + intros H. contradiction.
Qed.

Lemma compareTo_eq r a : forall b,
  interned r a -> interned r b -> compareTo a b = 0 -> a = b.
Proof.
  induction a as [v|n i|l IH|l IH|b1 x1 IHb IHx] using Expression_nested_ind;
    intros b Ha Hb H; pose proof (compareTo_same_type _ _ H) as T.
  - destruct b as [w| | | |];
      try (pose proof (type_of_SymNumber_numeric v) as N; rewrite T in N; discriminate).
    cbn [compareTo] in H. rewrite T, Z.sub_diag in H. simpl in H. f_equal. lia.
  - destruct b as [w|m j| | |]; try discriminate T.
    + pose proof (type_of_SymNumber_numeric w) as N. rewrite <- T in N. discriminate.
    + cbn [compareTo type_of] in H. simpl in H. apply localeCompare_eq in H. subst m.
      f_equal. eapply registered_functional; [exact Ha | exact Hb].
  - destruct b as [w| |l'| |]; try discriminate T.
    + pose proof (type_of_SymNumber_numeric w) as N. rewrite <- T in N. discriminate.
    + cbn [compareTo type_of] in H. simpl in H. simpl in Ha, Hb.
      apply interned_args in Ha, Hb. f_equal. eapply compareArgs_eq; eassumption.
  - destruct b as [w| | |l'|]; try discriminate T.
    + pose proof (type_of_SymNumber_numeric w) as N. rewrite <- T in N. discriminate.
    + cbn [compareTo type_of] in H. simpl in H. simpl in Ha, Hb.
      apply interned_args in Ha, Hb. f_equal. eapply compareArgs_eq; eassumption.
  - destruct b as [w| | | |b2 x2]; try discriminate T.
    + pose proof (type_of_SymNumber_numeric w) as N. rewrite <- T in N. discriminate.
    + cbn [compareTo type_of] in H. simpl in H. destruct Ha, Hb.
      destruct (Z.eqb_spec (compareTo b1 b2) 0) as [E|E]; simpl in H.
      * f_equal; [apply IHb | apply IHx]; assumption.
      * contradiction.
Qed.

Lemma TYPE_ORDER_inj s t : TYPE_ORDER s = TYPE_ORDER t -> s = t.
Proof. destruct s, t; simpl; intros; try lia; reflexivity. Qed.

Lemma compareTo_order_le a b :
  compareTo a b < 0 -> TYPE_ORDER (type_of a) <= TYPE_ORDER (type_of b).
Proof.
  intros H. destruct (type_eqb (type_of a) (type_of b)) eqn:T.
  - apply type_eqb_eq in T. rewrite T. lia.
  - rewrite compareTo_types in H; [lia|].
    intros C. rewrite C, type_eqb_refl in T. discriminate.
Qed.

Lemma compareTo_order_lt a b :
  TYPE_ORDER (type_of a) < TYPE_ORDER (type_of b) -> compareTo a b < 0.
Proof.
  intros H. rewrite compareTo_types; [lia|]. intros C. rewrite C in H. lia.
Qed.

Lemma compareArgs_lt_trans r (l : list Expression) :
  Forall (fun a => forall b c, interned r a -> interned r b -> interned r c ->
            compareTo a b < 0 -> compareTo b c < 0 -> compareTo a c < 0) l ->
  forall l2 l3,
    Forall (interned r) l -> Forall (interned r) l2 -> Forall (interned r) l3 ->
    compareArgs compareTo (lengthDiff l l2) l l2 < 0 ->
    compareArgs compareTo (lengthDiff l2 l3) l2 l3 < 0 ->
    compareArgs compareTo (lengthDiff l l3) l l3 < 0.
Proof.
  induction 1 as [|x r1 Hx _ IH]; intros [|y r2] [|z r3] H1 H2 H3;
    try (rewrite ?compareArgs_nil_l, ?compareArgs_nil_r; unfold lengthDiff;
         simpl length; lia).
  rewrite !compareArgs_cons, !lengthDiff_cons.
  inversion H1; inversion H2; inversion H3; subst.
  destruct (Z.eqb_spec (compareTo x y) 0) as [E1|E1];
    destruct (Z.eqb_spec (compareTo y z) 0) as [E2|E2]; simpl.
  - apply (compareTo_eq r) in E1, E2; try assumption. subst.
    rewrite (proj2 (Z.eqb_eq (compareTo z z) 0))
      by (pose proof (compareTo_antisym z z); lia).
    simpl. apply IH; assumption.
  - apply (compareTo_eq r) in E1; try assumption. subst.
    intros _ Hyz. rewrite (proj2 (Z.eqb_neq _ _) E2). simpl. exact Hyz.
  - apply (compareTo_eq r) in E2; try assumption. subst.
    intros Hxy _. rewrite (proj2 (Z.eqb_neq _ _) E1). simpl. exact Hxy.
  - intros Hxy Hyz.
    pose proof (Hx y z ltac:(assumption) ltac:(assumption) ltac:(assumption) Hxy Hyz) as Hxz.
    rewrite (proj2 (Z.eqb_neq (compareTo x z) 0)) by lia. simpl. exact Hxz.
Qed.

Lemma compareTo_lt_trans r a : forall b c,
  interned r a -> interned r b -> interned r c ->
  compareTo a b < 0 -> compareTo b c < 0 -> compareTo a c < 0.
Proof.
  induction a as [v|n i|l IH|l IH|b1 x1 IHb IHx] using Expression_nested_ind;
    intros b c Ha Hb Hc Hab Hbc;
    pose proof (compareTo_order_le _ _ Hab) as Oab;
    pose proof (compareTo_order_le _ _ Hbc) as Obc;
    (match goal with |- compareTo ?a c < 0 =>
       destruct (Z.ltb_spec (TYPE_ORDER (type_of a)) (TYPE_ORDER (type_of c))) as [Olt|Oge];
       [apply compareTo_order_lt; exact Olt|];
       assert (Tab : type_of a = type_of b) by (apply TYPE_ORDER_inj; lia);
       assert (Tbc : type_of b = type_of c) by (apply TYPE_ORDER_inj; lia)
     end); clear Oab Obc Oge.
  - destruct b as [w| | | |];
      try (pose proof (type_of_SymNumber_numeric v) as N; rewrite Tab in N; discriminate).
    destruct c as [u| | | |];
      try (pose proof (type_of_SymNumber_numeric w) as N; rewrite Tbc in N; discriminate).
    cbn [compareTo] in *. rewrite Tab, Z.sub_diag in Hab. rewrite Tbc, Z.sub_diag in Hbc.
    rewrite Tab, Tbc, Z.sub_diag. simpl in *. lia.
  - destruct b as [w|m j| | |]; try discriminate Tab.
    { pose proof (type_of_SymNumber_numeric w) as N. rewrite <- Tab in N. discriminate. }
    destruct c as [u|k j'| | |]; try discriminate Tbc.
    { pose proof (type_of_SymNumber_numeric u) as N. rewrite <- Tbc in N. discriminate. }
    cbn [compareTo type_of] in *. simpl in *. eapply localeCompare_lt_trans; eassumption.
  - destruct b as [w| |l2| |]; try discriminate Tab.
    { pose proof (type_of_SymNumber_numeric w) as N. rewrite <- Tab in N. discriminate. }
    destruct c as [u| |l3| |]; try discriminate Tbc.
    { pose proof (type_of_SymNumber_numeric u) as N. rewrite <- Tbc in N. discriminate. }
    cbn [compareTo type_of] in *. simpl in Hab, Hbc |- *. simpl in Ha, Hb, Hc.
    apply interned_args in Ha, Hb, Hc.
    eapply (compareArgs_lt_trans r l IH l2 l3); eassumption.
  - destruct b as [w| | |l2|]; try discriminate Tab.
    { pose proof (type_of_SymNumber_numeric w) as N. rewrite <- Tab in N. discriminate. }
    destruct c as [u| | |l3|]; try discriminate Tbc.
    { pose proof (type_of_SymNumber_numeric u) as N. rewrite <- Tbc in N. discriminate. }
    cbn [compareTo type_of] in *. simpl in Hab, Hbc |- *. simpl in Ha, Hb, Hc.
    apply interned_args in Ha, Hb, Hc.
    eapply (compareArgs_lt_trans r l IH l2 l3); eassumption.
  - destruct b as [w| | | |b2 x2]; try discriminate Tab.
    { pose proof (type_of_SymNumber_numeric w) as N. rewrite <- Tab in N. discriminate. }
    destruct c as [u| | | |b3 x3]; try discriminate Tbc.
    { pose proof (type_of_SymNumber_numeric u) as N. rewrite <- Tbc in N. discriminate. }
    cbn [compareTo type_of] in *. simpl in Hab, Hbc |- *.
    destruct Ha as [Ha1 Ha2], Hb as [Hb1 Hb2], Hc as [Hc1 Hc2].
    destruct (Z.eqb_spec (compareTo b1 b2) 0) as [E1|E1];
      destruct (Z.eqb_spec (compareTo b2 b3) 0) as [E2|E2]; simpl in Hab, Hbc.
    + apply (compareTo_eq r) in E1, E2; try assumption. subst.
      rewrite (proj2 (Z.eqb_eq (compareTo b3 b3) 0))
        by (pose proof (compareTo_antisym b3 b3); lia).
      simpl. eapply IHx; [| exact Hb2 | | |]; eassumption.
    + apply (compareTo_eq r) in E1; try assumption. subst.
      rewrite (proj2 (Z.eqb_neq _ _) E2). simpl. exact Hbc.
    + apply (compareTo_eq r) in E2; try assumption. subst.
      rewrite (proj2 (Z.eqb_neq _ _) E1). simpl. exact Hab.
    + pose proof (IHb b2 b3 Ha1 Hb1 Hc1 Hab Hbc) as H13.
      rewrite (proj2 (Z.eqb_neq (compareTo b1 b3) 0)) by lia. simpl. exact H13.
Qed.

(** ** Sorting *)

Section SortFacts.
Context {A : Type} (cmp : A -> A -> Z).

Lemma sort_insert_perm x l : Permutation (sort_insert cmp x l) (x :: l).
Proof.
  induction l as [|y l IH]; simpl; [reflexivity|].
  destruct (0 <? cmp x y); [|reflexivity].
  rewrite IH. apply perm_swap.
Qed.

Lemma sort_perm l : Permutation (sort cmp l) l.
Proof.
  induction l as [|x l IH]; simpl; [reflexivity|].
  rewrite sort_insert_perm. apply perm_skip, IH.
Qed.

Lemma sort_length l : length (sort cmp l) = length l.
Proof. apply Permutation_length, sort_perm. Qed.

Lemma sort_In x l : In x (sort cmp l) <-> In x l.
Proof.
  split; apply Permutation_in; [apply sort_perm | symmetry; apply sort_perm].
Qed.

Lemma sort_Forall (P : A -> Prop) l : Forall P l -> Forall P (sort cmp l).
Proof.
  rewrite !List.Forall_forall. intros H x Hx. apply H, sort_In, Hx.
Qed.

Lemma sort_nil_inv l : sort cmp l = [] -> l = [].
Proof.
  intros H. apply (f_equal (@length A)) in H. rewrite sort_length in H.
  destruct l; [reflexivity|discriminate].
Qed.

Hypothesis cmp_antisym : forall x y, cmp y x = - cmp x y.





(** With a strict order whose ties are equalities, the result depends on
    the elements only. *)
Variable P : A -> Prop.
Hypothesis cmp_tie : forall x y, P x -> P y -> cmp x y = 0 -> x = y.
Hypothesis cmp_trans :
  forall x y z, P x -> P y -> P z -> cmp x y < 0 -> cmp y z < 0 -> cmp x z < 0.

Lemma sort_insert_comm x y l :
  P x -> P y -> Forall P l ->
  sort_insert cmp x (sort_insert cmp y l) = sort_insert cmp y (sort_insert cmp x l).
Proof.
  intros Hx Hy Hl. induction Hl as [|z l Hz Hl IH]; simpl.
  - pose proof (cmp_antisym x y).
    destruct (Z.ltb_spec 0 (cmp x y)); destruct (Z.ltb_spec 0 (cmp y x));
      try lia; try reflexivity.
    assert (x = y) by (apply cmp_tie; [assumption..|lia]). subst. reflexivity.
  - pose proof (cmp_antisym x y) as Axy.
    pose proof (cmp_antisym x z) as Axz.
    pose proof (cmp_antisym y z) as Ayz.
    destruct (Z.ltb_spec 0 (cmp y z)) as [Hyz|Hyz];
      destruct (Z.ltb_spec 0 (cmp x z)) as [Hxz|Hxz]; simpl.
    + rewrite (proj2 (Z.ltb_lt 0 (cmp x z)) Hxz), (proj2 (Z.ltb_lt 0 (cmp y z)) Hyz).
      f_equal. exact IH.
    + rewrite (proj2 (Z.ltb_ge 0 (cmp x z)) Hxz).
      assert (0 < cmp y x) as Hyx.
      { destruct (Z.eq_dec (cmp x z) 0) as [E|E].
        - apply cmp_tie in E; try assumption. subst. exact Hyz.
        - assert (cmp x y < 0); [|lia].
          apply (cmp_trans x z y); try assumption; lia. }
      rewrite (proj2 (Z.ltb_lt 0 (cmp y x)) Hyx), (proj2 (Z.ltb_lt 0 (cmp y z)) Hyz).
      reflexivity.
    + rewrite (proj2 (Z.ltb_ge 0 (cmp y z)) Hyz).
      assert (0 < cmp x y) as Hxy.
      { destruct (Z.eq_dec (cmp y z) 0) as [E|E].
        - apply cmp_tie in E; try assumption. subst. exact Hxz.
        - assert (cmp y x < 0); [|lia].
          apply (cmp_trans y z x); try assumption; lia. }
      rewrite (proj2 (Z.ltb_lt 0 (cmp x y)) Hxy), (proj2 (Z.ltb_lt 0 (cmp x z)) Hxz).
      reflexivity.
    + destruct (Z.ltb_spec 0 (cmp x y)); destruct (Z.ltb_spec 0 (cmp y x));
        try lia; simpl;
        rewrite ?(proj2 (Z.ltb_ge 0 (cmp x z)) Hxz), ?(proj2 (Z.ltb_ge 0 (cmp y z)) Hyz);
        try reflexivity.
      assert (x = y) by (apply cmp_tie; [assumption..|lia]). subst. reflexivity.
Qed.

Lemma sort_perm_eq l1 l2 :
  Forall P l1 -> Permutation l1 l2 -> sort cmp l1 = sort cmp l2.
Proof.
  intros HP Hperm. induction Hperm as [|x l1 l2 _ IH|x y l|l1 l2 l3 H12 IH12 H23 IH23].
  - reflexivity.
  - simpl. inversion HP; subst. rewrite IH; [reflexivity|assumption].
  - simpl. inversion HP as [|? ? Hy HP']; subst. inversion HP' as [|? ? Hx Hl]; subst.
    apply sort_insert_comm; try assumption. apply sort_Forall, Hl.
  - rewrite IH12 by assumption. apply IH23.
    rewrite List.Forall_forall in *. intros z Hz. apply HP.
    eapply Permutation_in; [symmetry; exact H12|exact Hz].
Qed.

End SortFacts.

(** ** [Mul.flatten] as a function of what the operands contribute *)

Lemma collectFactors_fold (args : list Expression) k :
  Forall (fun e => forall k st,
    Mul.collectFactors e k st =
    {| Mul.powers := addPowers (baseList e k) (Mul.powers st);
       Mul.factors := Mul.factors st ++ factorList e k;
       Mul.baseHashToExpr := setBases (baseList e k) (Mul.baseHashToExpr st);
       Mul.coeff := Mul.coeff st * numFactor e k |}) args ->
  forall st,
    fold_left (fun st arg => Mul.collectFactors arg k st) args st =
    {| Mul.powers := addPowers (baseLists args k) (Mul.powers st);
       Mul.factors := Mul.factors st ++ factorLists args k;
       Mul.baseHashToExpr := setBases (baseLists args k) (Mul.baseHashToExpr st);
       Mul.coeff := Mul.coeff st * numFactors args k |}.
Proof.
  induction 1 as [|x args Hx _ IH]; intros st.
  - destruct st. simpl. rewrite app_nil_r. f_equal. lia.
  - cbn [fold_left]. rewrite IH, Hx. cbn [Mul.powers Mul.factors Mul.baseHashToExpr Mul.coeff].
    unfold baseLists, factorLists, numFactors, addPowers, setBases.
    cbn [flat_map fold_right]. rewrite !fold_left_app, <- app_assoc.
    f_equal. lia.
Qed.

Lemma collectFactors_spec e : forall k st,
  Mul.collectFactors e k st =
  {| Mul.powers := addPowers (baseList e k) (Mul.powers st);
     Mul.factors := Mul.factors st ++ factorList e k;
     Mul.baseHashToExpr := setBases (baseList e k) (Mul.baseHashToExpr st);
     Mul.coeff := Mul.coeff st * numFactor e k |}.
Proof.
  induction e as [v|n i|l IH|l IH|b x IHb IHx] using Expression_nested_ind; intros k st.
  - cbn [Mul.collectFactors numFactor baseList factorList].
    destruct (type_eqb (type_of (SymNumber v)) TZero);
      [|destruct (type_eqb (type_of (SymNumber v)) TOne)];
      destruct st; simpl; rewrite app_nil_r; f_equal; lia.
  - destruct st. simpl. rewrite app_nil_r. f_equal. lia.
  - destruct st. simpl. rewrite app_nil_r. f_equal. lia.
  - cbn [Mul.collectFactors]. rewrite (collectFactors_fold l k IH). reflexivity.
  - cbn [Mul.collectFactors numFactor baseList factorList].
    destruct (isNumericType (type_of x)).
    + apply IHb.
    + destruct st. simpl. f_equal. lia.
Qed.

Lemma collectFactors_list args k st :
  fold_left (fun st arg => Mul.collectFactors arg k st) args st =
  {| Mul.powers := addPowers (baseLists args k) (Mul.powers st);
     Mul.factors := Mul.factors st ++ factorLists args k;
     Mul.baseHashToExpr := setBases (baseLists args k) (Mul.baseHashToExpr st);
     Mul.coeff := Mul.coeff st * numFactors args k |}.
Proof.
  apply collectFactors_fold. apply List.Forall_forall. intros e _. apply collectFactors_spec.
Qed.

Lemma collectAll_coeff seq : forall st,
  Mul.coeff (Mul.collectAll seq st) = Mul.coeff st * numFactors seq 1.
Proof.
  induction seq as [|x seq IH]; intros st; simpl.
  - lia.
  - destruct (Z.eqb_spec (Mul.coeff st) 0) as [E|E].
    + rewrite E. lia.
    + rewrite IH, collectFactors_spec. simpl. lia.
Qed.

Lemma collectAll_no_break seq : forall st,
  Mul.coeff st * numFactors seq 1 <> 0 ->
  Mul.collectAll seq st = fold_left (fun st arg => Mul.collectFactors arg 1 st) seq st.
Proof.
  induction seq as [|x seq IH]; intros st H; simpl; [reflexivity|].
  simpl in H.
  destruct (Z.eqb_spec (Mul.coeff st) 0) as [E|E].
  - rewrite E in H. lia.
  - apply IH. rewrite collectFactors_spec. simpl. lia.
Qed.

Lemma Mul_create_assemble a b rest :
  Mul.create (a :: b :: rest) = Mul_assemble (Mul.flatten (a :: b :: rest)).
Proof. reflexivity. Qed.

Lemma Mul_flatten_spec seq :
  numFactors seq 1 <> 0 ->
  Mul.flatten seq =
  {| mf_factors := sort compareTo (factorLists seq 1);
     mf_powers := sort cmpBase (pairsOf (baseLists seq 1));
     mf_coeff := numFactors seq 1 |}.
Proof.
  intros H. unfold Mul.flatten.
  rewrite collectAll_no_break by (simpl; lia).
  rewrite collectFactors_list. simpl. f_equal. lia.
Qed.

Lemma Mul_flatten_zero seq :
  numFactors seq 1 = 0 -> mf_coeff (Mul.flatten seq) = 0.
Proof.
  intros H. unfold Mul.flatten. cbn [mf_coeff]. rewrite collectAll_coeff, H. reflexivity.
Qed.

Lemma Mul_assemble_zero fl : mf_coeff fl = 0 -> Mul_assemble fl = ZERO.
Proof. intros H. unfold Mul_assemble. rewrite H. reflexivity. Qed.

(** *** Maps *)

Lemma map_get_set_eq {V} (m : JsMap V) k v : map_get (map_set m k v) k = Some v.
Proof.
  induction m as [|[k' v'] m IH]; simpl.
  - rewrite Z.eqb_refl. reflexivity.
  - destruct (Z.eqb_spec k' k); simpl.
    + rewrite Z.eqb_refl. reflexivity.
    + destruct (Z.eqb_spec k' k); [contradiction|]. exact IH.
Qed.

Lemma map_get_set_ne {V} (m : JsMap V) k k' v :
  k <> k' -> map_get (map_set m k v) k' = map_get m k'.
Proof.
  intros H. induction m as [|[k0 v0] m IH]; simpl.
  - destruct (Z.eqb_spec k k'); [contradiction|reflexivity].
  - destruct (Z.eqb_spec k0 k); simpl.
    + subst. destruct (Z.eqb_spec k k'); [contradiction|reflexivity].
    + destruct (Z.eqb_spec k0 k'); [reflexivity|exact IH].
Qed.

Lemma map_get_None {V} (m : JsMap V) k : map_get m k = None <-> ~ In k (keysOf m).
Proof.
  induction m as [|[k' v'] m IH]; simpl.
  - tauto.
  - destruct (Z.eqb_spec k' k); split; intros H; try discriminate.
    + exfalso. apply H. auto.
    + intros [C|C]; [contradiction|]. apply IH in H. contradiction.
    + apply IH. intros C. apply H. auto.
Qed.

Lemma map_get_In {V} (m : JsMap V) k v :
  List.NoDup (keysOf m) -> (map_get m k = Some v <-> In (k, v) m).
Proof.
  induction m as [|[k' v'] m IH]; simpl; intros Hnd.
  - split; [discriminate|tauto].
  - inversion Hnd as [|? ? Hk Hnd']; subst.
    destruct (Z.eqb_spec k' k); split.
    + intros [= ->]. left. congruence.
    + intros [[= <- <-]|Hin]; [reflexivity|].
      exfalso. apply Hk. subst. apply (in_map fst) in Hin. exact Hin.
    + intros H. right. apply IH; assumption.
    + intros [[= <- <-]|Hin]; [contradiction|]. apply IH; assumption.
Qed.


Lemma keysOf_set_In {V} (m : JsMap V) k v k' :
  In k' (keysOf (map_set m k v)) <-> k' = k \/ In k' (keysOf m).
Proof.
  induction m as [|[k0 v0] m IH]; simpl.
  - intuition.
  - destruct (Z.eqb_spec k0 k); simpl.
    + subst. intuition.
    + rewrite IH. intuition.
Qed.

Lemma keysOf_set_NoDup {V} (m : JsMap V) k v :
  List.NoDup (keysOf m) -> List.NoDup (keysOf (map_set m k v)).
Proof.
  induction m as [|[k0 v0] m IH]; simpl; intros H.
  - repeat constructor. simpl. tauto.
  - inversion H as [|? ? Hk Hnd]; subst.
    destruct (Z.eqb_spec k0 k); simpl.
    + subst. constructor; assumption.
    + constructor; [|apply IH; assumption].
      intros C. apply keysOf_set_In in C as [C|C]; [congruence|contradiction].
Qed.

Lemma get_or_0_set_eq m k v : get_or_0 (map_set m k v) k = v.
Proof. unfold get_or_0. rewrite map_get_set_eq. reflexivity. Qed.

Lemma get_or_0_set_ne m k k' v : k <> k' -> get_or_0 (map_set m k v) k' = get_or_0 m k'.
Proof. intros H. unfold get_or_0. rewrite map_get_set_ne by assumption. reflexivity. Qed.

Lemma get_addPowers B : forall m h,
  get_or_0 (addPowers B m) h = get_or_0 m h + total B h.
Proof.
  induction B as [|[b k] B IH]; intros m h; simpl; [lia|].
  unfold addPowers in *. simpl. rewrite IH. unfold addPower. simpl.
  destruct (Z.eqb_spec (hash b) h) as [->|E].
  - rewrite get_or_0_set_eq. lia.
  - rewrite get_or_0_set_ne by assumption. reflexivity.
Qed.

Lemma keysOf_addPowers B : forall m h,
  In h (keysOf (addPowers B m)) <-> In h (keysOf m) \/ In h (hashesOf B).
Proof.
  induction B as [|[b k] B IH]; intros m h; simpl; [tauto|].
  unfold addPowers in *. simpl. rewrite IH. unfold addPower. simpl.
  rewrite keysOf_set_In. intuition.
Qed.

Lemma keysOf_addPowers_NoDup B : forall m,
  List.NoDup (keysOf m) -> List.NoDup (keysOf (addPowers B m)).
Proof.
  induction B as [|[b k] B IH]; intros m H; simpl; [exact H|].
  apply IH. apply keysOf_set_NoDup, H.
Qed.

Lemma map_get_addPowers B m h v :
  List.NoDup (keysOf m) -> m = [] ->
  (map_get (addPowers B m) h = Some v <-> In h (hashesOf B) /\ v = total B h).
Proof.
  intros _ ->. split.
  - intros H. split.
    + destruct (in_dec Z.eq_dec h (hashesOf B)) as [Hin|Hin]; [exact Hin|].
      exfalso. assert (map_get (addPowers B []) h = None); [|congruence].
      apply map_get_None. rewrite keysOf_addPowers. simpl. tauto.
    + pose proof (get_addPowers B [] h) as G. unfold get_or_0 in G.
      rewrite H in G. simpl in G. lia.
  - intros [Hin ->].
    destruct (map_get (addPowers B []) h) as [v|] eqn:E.
    + pose proof (get_addPowers B [] h) as G. unfold get_or_0 in G.
      rewrite E in G. simpl in G. f_equal. lia.
    + exfalso. apply map_get_None in E. apply E. rewrite keysOf_addPowers. auto.
Qed.

Lemma map_get_setBases B : forall m h,
  map_get (setBases B m) h =
  match lastBase B h with
  | Some b => Some b
  | None => map_get m h
  end.
Proof.
  induction B as [|[b k] B IH]; intros m h; simpl; [reflexivity|].
  unfold setBases in *. simpl. rewrite IH. unfold setBase. simpl.
  destruct (lastBase B h); [reflexivity|].
  destruct (Z.eqb_spec (hash b) h) as [->|E].
  - apply map_get_set_eq.
  - apply map_get_set_ne. assumption.
Qed.

Lemma lastBase_hash B h b : lastBase B h = Some b -> hash b = h /\ In b (map fst B).
Proof.
  induction B as [|[b' k] B IH]; simpl; [discriminate|].
  destruct (lastBase B h) as [b0|].
  - intros [= ->]. destruct (IH eq_refl). auto.
  - destruct (Z.eqb_spec (hash b') h); [|discriminate].
    intros [= ->]. auto.
Qed.

Lemma lastBase_None B h : lastBase B h = None <-> ~ In h (hashesOf B).
Proof.
  induction B as [|[b' k] B IH]; simpl; [tauto|].
  destruct (lastBase B h) as [b0|] eqn:E.
  - split; [discriminate|]. intros H. exfalso. apply H. right.
    destruct (in_dec Z.eq_dec h (hashesOf B)) as [Hin|Hin]; [exact Hin|].
    apply IH in Hin. discriminate.
  - destruct (Z.eqb_spec (hash b') h) as [->|Hne].
    + split; [discriminate|]. intros H. exfalso. apply H. auto.
    + split; [|reflexivity]. intros _ [C|C]; [contradiction|].
      apply (proj1 IH eq_refl). exact C.
Qed.

Lemma total_app B1 B2 h : total (B1 ++ B2) h = total B1 h + total B2 h.
Proof.
  induction B1 as [|[b k] B1 IH]; simpl; [reflexivity|].
  destruct (hash b =? h); lia.
Qed.

Lemma lastBase_app B1 B2 h :
  lastBase (B1 ++ B2) h =
  match lastBase B2 h with
  | Some b => Some b
  | None => lastBase B1 h
  end.
Proof.
  induction B1 as [|[b k] B1 IH]; simpl.
  - destruct (lastBase B2 h); reflexivity.
  - rewrite IH. destruct (lastBase B2 h); reflexivity.
Qed.

Lemma total_absent B h : ~ In h (hashesOf B) -> total B h = 0.
Proof.
  induction B as [|[b k] B IH]; simpl; [reflexivity|].
  intros H. destruct (Z.eqb_spec (hash b) h); [exfalso; apply H; auto|].
  apply IH. intros C. apply H. auto.
Qed.

(** *** The power pairs *)

Lemma powerPairs_In entries bases p :
  In p (Mul.powerPairs entries bases) <->
  exists h, In (h, pp_exp p) entries /\ pp_exp p <> 0 /\
            map_get bases h = Some (pp_base p).
Proof.
  induction entries as [|[h v] entries IH]; simpl.
  - split; [tauto|]. intros (h & [] & _).
  - destruct (Z.eqb_spec v 0) as [->|Hv].
    + rewrite IH. split.
      * intros (h' & ? & ? & ?). exists h'. auto.
      * intros (h' & [[= <- E]|Hin] & Hne & Hb); [congruence|]. exists h'. auto.
    + destruct (map_get bases h) as [b|] eqn:Eb; simpl.
      * rewrite IH. split.
        -- intros [<-|(h' & ? & ? & ?)]; [exists h; simpl; auto|exists h'; auto].
        -- intros (h' & [[= <- E]|Hin] & Hne & Hb).
           ++ left. destruct p as [pb pe]. simpl in *. congruence.
           ++ right. exists h'. auto.
      * rewrite IH. split.
        -- intros (h' & ? & ? & ?). exists h'. auto.
        -- intros (h' & [[= <- E]|Hin] & Hne & Hb); [congruence|]. exists h'. auto.
Qed.

Lemma powerPairs_NoDup entries bases :
  List.NoDup (keysOf entries) ->
  (forall h b, map_get bases h = Some b -> hash b = h) ->
  List.NoDup (Mul.powerPairs entries bases).
Proof.
  intros Hnd Hb. induction entries as [|[h v] entries IH]; simpl; [constructor|].
  inversion Hnd as [|? ? Hk Hnd']; subst.
  destruct (v =? 0); [apply IH; assumption|].
  destruct (map_get bases h) as [b|] eqn:Eb; [|apply IH; assumption].
  constructor; [|apply IH; assumption].
  intros C. apply powerPairs_In in C as (h' & Hin & _ & Hb'). simpl in *.
  apply Hb in Eb, Hb'. subst. apply Hk.
  apply (in_map fst) in Hin. exact Hin.
Qed.

Lemma pairsOf_In B p :
  In p (pairsOf B) <->
  pp_exp p <> 0 /\ pp_exp p = total B (hash (pp_base p)) /\
  lastBase B (hash (pp_base p)) = Some (pp_base p).
Proof.
  unfold pairsOf. rewrite powerPairs_In. split.
  - intros (h & Hin & Hne & Hb).
    rewrite map_get_setBases in Hb. simpl in Hb.
    destruct (lastBase B h) as [b|] eqn:El; [|discriminate].
    injection Hb as ->. destruct (lastBase_hash _ _ _ El) as [<- _].
    apply map_get_In in Hin; [|apply keysOf_addPowers_NoDup; constructor].
    apply map_get_addPowers in Hin as [_ Hv]; [|constructor|reflexivity].
    auto.
  - intros (Hne & Hv & Hl). exists (hash (pp_base p)).
    split; [|split; [exact Hne|]].
    + apply map_get_In; [apply keysOf_addPowers_NoDup; constructor|].
      apply map_get_addPowers; [constructor|reflexivity|]. split; [|exact Hv].
      destruct (in_dec Z.eq_dec (hash (pp_base p)) (hashesOf B)) as [Hin|Hin]; [exact Hin|].
      apply lastBase_None in Hin. congruence.
    + rewrite map_get_setBases, Hl. reflexivity.
Qed.

Lemma pairsOf_NoDup B : List.NoDup (pairsOf B).
Proof.
  apply powerPairs_NoDup.
  - apply keysOf_addPowers_NoDup. constructor.
  - intros h b H. rewrite map_get_setBases in H. simpl in H.
    destruct (lastBase B h) eqn:E; [|discriminate]. injection H as ->.
    apply (lastBase_hash _ _ _ E).
Qed.

(** Two lists of recorded bases with the same sums and the same last bases
    leave the same power pairs, up to their order. *)
Lemma pairsOf_perm B1 B2 :
  (forall h, total B1 h = total B2 h) ->
  (forall h, total B1 h <> 0 -> lastBase B1 h = lastBase B2 h) ->
  Permutation (pairsOf B1) (pairsOf B2).
Proof.
  intros Ht Hl. apply Permutation.NoDup_Permutation; try apply pairsOf_NoDup.
  intros p. rewrite !pairsOf_In. rewrite <- Ht. split.
  - intros (Hne & Hv & Hb). rewrite <- Hl by congruence. auto.
  - intros (Hne & Hv & Hb). rewrite Hl by congruence. auto.
Qed.

(** *** What is recorded comes from the operands *)

Lemma baseList_isBase e : forall k p, In p (baseList e k) -> isBase (fst p).
Proof.
  induction e as [v|n i|l IH|l IH|b x IHb IHx] using Expression_nested_ind;
    intros k p; cbn [baseList].
  - intros [].
  - intros [<-|[]]. exact I.
  - intros [<-|[]]. exact I.
  - rewrite in_flat_map. intros (e & He & Hp).
    rewrite List.Forall_forall in IH. eapply IH; eassumption.
  - destruct (isNumericType (type_of x)); [apply IHb|intros []].
Qed.

Lemma factorList_isFactor e : forall k f, In f (factorList e k) -> isFactor f.
Proof.
  induction e as [v|n i|l IH|l IH|b x IHb IHx] using Expression_nested_ind;
    intros k f; cbn [factorList]; try (intros []).
  - rewrite in_flat_map. intros (e & He & Hp).
    rewrite List.Forall_forall in IH. eapply IH; eassumption.
  - destruct (isNumericType (type_of x)) eqn:E; [apply IHb|].
    intros [<-|[]]. exact E.
Qed.

Lemma baseList_interned r e : forall k p,
  interned r e -> In p (baseList e k) -> interned r (fst p).
Proof.
  induction e as [v|n i|l IH|l IH|b x IHb IHx] using Expression_nested_ind;
    intros k p He; cbn [baseList].
  - intros [].
  - intros [<-|[]]. exact He.
  - intros [<-|[]]. exact He.
  - rewrite in_flat_map. intros (e & Hin & Hp).
    simpl in He. apply interned_args in He.
    rewrite List.Forall_forall in IH, He. eapply IH; eauto.
  - destruct He as [Hb Hx]. destruct (isNumericType (type_of x)); [apply IHb; exact Hb|intros []].
Qed.

Lemma factorList_interned r e : forall k f,
  interned r e -> In f (factorList e k) -> interned r f.
Proof.
  induction e as [v|n i|l IH|l IH|b x IHb IHx] using Expression_nested_ind;
    intros k f He; cbn [factorList]; try (intros []).
  - rewrite in_flat_map. intros (e & Hin & Hp).
    simpl in He. apply interned_args in He.
    rewrite List.Forall_forall in IH, He. eapply IH; eauto.
  - destruct (isNumericType (type_of x)); [apply IHb; apply He|].
    intros [<-|[]]. exact He.
Qed.

Lemma baseLists_interned r seq k p :
  Forall (interned r) seq -> In p (baseLists seq k) -> interned r (fst p).
Proof.
  intros H. unfold baseLists. rewrite in_flat_map. intros (e & He & Hp).
  rewrite List.Forall_forall in H. eapply baseList_interned; eauto.
Qed.

Lemma factorLists_interned r seq k :
  Forall (interned r) seq -> Forall (interned r) (factorLists seq k).
Proof.
  intros H. apply List.Forall_forall. intros f. unfold factorLists.
  rewrite in_flat_map. intros (e & He & Hp).
  rewrite List.Forall_forall in H. eapply factorList_interned; eauto.
Qed.

Lemma baseLists_isBase seq k p : In p (baseLists seq k) -> isBase (fst p).
Proof.
  unfold baseLists. rewrite in_flat_map. intros (e & _ & Hp).
  eapply baseList_isBase; eassumption.
Qed.

Lemma factorLists_isFactor seq k f : In f (factorLists seq k) -> isFactor f.
Proof.
  unfold factorLists. rewrite in_flat_map. intros (e & _ & Hp).
  eapply factorList_isFactor; eassumption.
Qed.

(** *** Sorting what is recorded *)

Lemma cmpBase_antisym p q : cmpBase q p = - cmpBase p q.
Proof. apply compareTo_antisym. Qed.

Lemma sort_factors_perm r F1 F2 :
  Forall (interned r) F1 -> Permutation F1 F2 ->
  sort compareTo F1 = sort compareTo F2.
Proof.
  apply sort_perm_eq.
  - intros x y. apply compareTo_antisym.
  - apply compareTo_eq.
  - apply compareTo_lt_trans.
Qed.

Lemma sort_pairs_eq r B1 B2 :
  (forall p, In p B1 -> interned r (fst p)) ->
  (forall h, total B1 h = total B2 h) ->
  (forall h, total B1 h <> 0 -> lastBase B1 h = lastBase B2 h) ->
  sort cmpBase (pairsOf B1) = sort cmpBase (pairsOf B2).
Proof.
  intros Hi Ht Hl.
  apply (sort_perm_eq cmpBase cmpBase_antisym
           (fun p => interned r (pp_base p) /\ pp_exp p = total B1 (hash (pp_base p)))).
  - intros [b1 e1] [b2 e2] [I1 E1] [I2 E2] H. unfold cmpBase in H. simpl in *.
    apply (compareTo_eq r) in H; try assumption. subst. reflexivity.
  - intros x y z [Ix _] [Iy _] [Iz _]. unfold cmpBase. apply (compareTo_lt_trans r); assumption.
  - apply List.Forall_forall. intros p Hp. apply pairsOf_In in Hp as (_ & Hv & Hb).
    split; [|exact Hv]. apply lastBase_hash in Hb as [_ Hin].
    apply in_map_iff in Hin as (q & <- & Hq). apply Hi. exact Hq.
  - apply pairsOf_perm; assumption.
Qed.

(** ** Commutativity of [Mul.create] *)

Lemma Mul_create_comm r a b :
  interned r a -> interned r b -> collision_free (Mul_bases [a; b]) ->
  Mul.create [a; b] = Mul.create [b; a].
Proof.
  intros Ia Ib Hcf. rewrite !Mul_create_assemble.
  assert (Hc : numFactors [a; b] 1 = numFactors [b; a] 1) by (simpl; lia).
  destruct (Z.eq_dec (numFactors [a; b] 1) 0) as [E|E].
  - rewrite (Mul_assemble_zero (Mul.flatten [a; b]))
      by (apply Mul_flatten_zero; exact E).
    rewrite (Mul_assemble_zero (Mul.flatten [b; a]))
      by (apply Mul_flatten_zero; congruence).
    reflexivity.
  - rewrite (Mul_flatten_spec [a; b]) by exact E.
    rewrite (Mul_flatten_spec [b; a]) by (rewrite <- Hc; exact E).
    rewrite Hc. f_equal. f_equal.
    + apply (sort_factors_perm r).
      * apply factorLists_interned. repeat constructor; assumption.
      * unfold factorLists. simpl. rewrite !app_nil_r. apply Permutation_app_comm.
    + unfold Mul_bases, baseLists in Hcf. simpl in Hcf. rewrite app_nil_r in Hcf.
      unfold baseLists. simpl. rewrite !app_nil_r.
      apply (sort_pairs_eq r).
      * intros p Hp. apply in_app_or in Hp as [Hp|Hp];
          [eapply (baseList_interned r a)|eapply (baseList_interned r b)]; eassumption.
      * intros h. rewrite !total_app. lia.
      * intros h _. rewrite !lastBase_app.
        destruct (lastBase (baseList b 1) h) as [y|] eqn:Eb;
          destruct (lastBase (baseList a 1) h) as [x|] eqn:Ea; try reflexivity.
        f_equal. apply lastBase_hash in Ea as [Hx Ix], Eb as [Hy Iy].
        apply Hcf; [rewrite map_app; apply in_or_app; auto..|congruence].
Qed.

(** *** What the operands of a product contribute when collected again *)

Lemma coeff_events c :
  c <> 0 ->
  numFactor (SymNumber c) 1 = c /\ baseList (SymNumber c) 1 = [] /\
  factorList (SymNumber c) 1 = [].
Proof.
  intros H. repeat split. cbn [numFactor type_of].
  destruct (Z.eqb_spec c 0); [contradiction|].
  destruct (Z.eqb_spec c 1); [subst; reflexivity|].
  destruct (c =? -1); simpl; apply Z.pow_1_r.
Qed.

Lemma powerArg_events p :
  goodPair p ->
  numFactor (Mul.powerArg p) 1 = 1 /\
  baseList (Mul.powerArg p) 1 = [(pp_base p, pp_exp p)] /\
  factorList (Mul.powerArg p) 1 = [].
Proof.
  destruct p as [b e]. unfold goodPair, Mul.powerArg. simpl. intros [Hb He].
  destruct (Z.eqb_spec e 1) as [->|H1].
  - destruct b; try contradiction; repeat split.
  - assert (Pow.create b (SymNumber e) = NewPow b (SymNumber e)) as ->.
    { unfold Pow.create. cbn [type_of].
      destruct (Z.eqb_spec e 0); [contradiction|].
      destruct (Z.eqb_spec e 1); [contradiction|].
      destruct b; try contradiction; destruct (e =? -1); reflexivity. }
    cbn [numFactor baseList factorList]. rewrite type_of_SymNumber_numeric.
    cbn [value_of]. rewrite Z.mul_1_r.
    destruct b; try contradiction; repeat split.
Qed.

Lemma factor_events f :
  isFactor f ->
  numFactor f 1 = 1 /\ baseList f 1 = [] /\ factorList f 1 = [f].
Proof.
  destruct f; try contradiction. simpl. intros H. rewrite H. repeat split.
Qed.

Lemma events_app l1 l2 k :
  numFactors (l1 ++ l2) k = numFactors l1 k * numFactors l2 k /\
  baseLists (l1 ++ l2) k = baseLists l1 k ++ baseLists l2 k /\
  factorLists (l1 ++ l2) k = factorLists l1 k ++ factorLists l2 k.
Proof.
  unfold numFactors, baseLists, factorLists. rewrite !flat_map_app.
  repeat split. induction l1 as [|x l1 IH]; simpl; [lia|]. rewrite IH. lia.
Qed.

Lemma powerArgs_events S :
  Forall goodPair S ->
  numFactors (map Mul.powerArg S) 1 = 1 /\
  baseLists (map Mul.powerArg S) 1 = eventsOfPairs S /\
  factorLists (map Mul.powerArg S) 1 = [].
Proof.
  induction 1 as [|p S Hp _ (IH1 & IH2 & IH3)]; [repeat split|].
  destruct (powerArg_events p Hp) as (E1 & E2 & E3).
  unfold numFactors, baseLists, factorLists in *. simpl.
  rewrite IH1, IH2, IH3, E1, E2, E3. repeat split.
Qed.

Lemma factors_events F :
  Forall isFactor F ->
  numFactors F 1 = 1 /\ baseLists F 1 = [] /\ factorLists F 1 = F.
Proof.
  induction 1 as [|f F Hf _ (IH1 & IH2 & IH3)]; [repeat split|].
  destruct (factor_events f Hf) as (E1 & E2 & E3).
  unfold numFactors, baseLists, factorLists in *. simpl.
  rewrite IH1, IH2, IH3, E1, E2, E3. repeat split.
Qed.

Lemma finalArgs_events fl :
  mf_coeff fl <> 0 -> Forall goodPair (mf_powers fl) -> Forall isFactor (mf_factors fl) ->
  numFactors (Mul_finalArgs fl) 1 = mf_coeff fl /\
  baseLists (Mul_finalArgs fl) 1 = eventsOfPairs (mf_powers fl) /\
  factorLists (Mul_finalArgs fl) 1 = mf_factors fl.
Proof.
  intros Hc HS HF. unfold Mul_finalArgs.
  destruct (events_app
              (if negb (mf_coeff fl =? 1) then [SymNumber (mf_coeff fl)] else [])
              (map Mul.powerArg (mf_powers fl) ++ mf_factors fl) 1) as (A1 & A2 & A3).
  destruct (events_app (map Mul.powerArg (mf_powers fl)) (mf_factors fl) 1)
    as (B1 & B2 & B3).
  destruct (powerArgs_events _ HS) as (P1 & P2 & P3).
  destruct (factors_events _ HF) as (F1 & F2 & F3).
  rewrite A1, A2, A3, B1, B2, B3, P1, P2, P3, F1, F2, F3.
  destruct (Z.eqb_spec (mf_coeff fl) 1) as [E|E]; cbn [negb].
  - rewrite E. simpl. rewrite app_nil_r. repeat split.
  - destruct (coeff_events _ Hc) as (C1 & C2 & C3).
    unfold numFactors, baseLists, factorLists. cbn [fold_right flat_map].
    rewrite C1, C2, C3. simpl. rewrite app_nil_r. repeat split. lia.
Qed.

Lemma collapse_events L :
  let e := match L with [] => ONE | [a] => a | _ => NewMul L end in
  numFactor e 1 = numFactors L 1 /\ baseList e 1 = baseLists L 1 /\
  factorList e 1 = factorLists L 1.
Proof.
  destruct L as [|a [|b L]]; simpl.
  - repeat split.
  - rewrite !app_nil_r. repeat split. lia.
  - repeat split.
Qed.

Lemma Mul_assemble_events fl :
  mf_coeff fl <> 0 -> Forall goodPair (mf_powers fl) -> Forall isFactor (mf_factors fl) ->
  numFactor (Mul_assemble fl) 1 = mf_coeff fl /\
  baseList (Mul_assemble fl) 1 = eventsOfPairs (mf_powers fl) /\
  factorList (Mul_assemble fl) 1 = mf_factors fl.
Proof.
  intros Hc HS HF. unfold Mul_assemble.
  destruct (Z.eqb_spec (mf_coeff fl) 0); [contradiction|].
  destruct (Nat.eqb (length (mf_factors fl)) 0 && Nat.eqb (length (mf_powers fl)) 0) eqn:E.
  - apply andb_true_iff in E as [E1 E2]. apply Nat.eqb_eq in E1, E2.
    destruct (mf_factors fl); [|discriminate]. destruct (mf_powers fl); [|discriminate].
    apply coeff_events. assumption.
  - fold (Mul_finalArgs fl).
    destruct (collapse_events (Mul_finalArgs fl)) as (C1 & C2 & C3).
    destruct (finalArgs_events fl Hc HS HF) as (F1 & F2 & F3).
    cbv zeta in C1, C2, C3. rewrite C1, C2, C3. auto.
Qed.

(** *** Power pairs with pairwise different hashes *)

Lemma hashesOf_eventsOfPairs S : hashesOf (eventsOfPairs S) = map pairHash S.
Proof. unfold hashesOf, eventsOfPairs. rewrite map_map. reflexivity. Qed.

Lemma powerPairs_hashes entries bases :
  (forall h b, map_get bases h = Some b -> hash b = h) ->
  forall h, In h (map pairHash (Mul.powerPairs entries bases)) -> In h (keysOf entries).
Proof.
  intros Hb h. rewrite in_map_iff. intros (p & <- & Hp).
  apply powerPairs_In in Hp as (h' & Hin & _ & Hg).
  apply Hb in Hg. unfold pairHash. rewrite Hg.
  apply (in_map fst) in Hin. exact Hin.
Qed.

Lemma powerPairs_hashes_NoDup entries bases :
  List.NoDup (keysOf entries) ->
  (forall h b, map_get bases h = Some b -> hash b = h) ->
  List.NoDup (map pairHash (Mul.powerPairs entries bases)).
Proof.
  intros Hnd Hb. induction entries as [|[h v] entries IH]; simpl; [constructor|].
  inversion Hnd as [|? ? Hk Hnd']; subst.
  destruct (v =? 0); [apply IH; assumption|].
  destruct (map_get bases h) as [b|] eqn:Eb; [|apply IH; assumption].
  simpl. constructor; [|apply IH; assumption].
  intros C. apply powerPairs_hashes in C; [|assumption].
  unfold pairHash in C. simpl in C. apply Hb in Eb. rewrite Eb in C. contradiction.
Qed.

Lemma pairsOf_hashes_NoDup B : List.NoDup (map pairHash (pairsOf B)).
Proof.
  apply powerPairs_hashes_NoDup.
  - apply keysOf_addPowers_NoDup. constructor.
  - intros h b H. rewrite map_get_setBases in H. simpl in H.
    destruct (lastBase B h) eqn:E; [|discriminate]. injection H as ->.
    apply (lastBase_hash _ _ _ E).
Qed.

Lemma pairsOf_good B p :
  (forall q, In q B -> isBase (fst q)) -> In p (pairsOf B) -> goodPair p.
Proof.
  intros HB Hp. apply pairsOf_In in Hp as (Hne & _ & Hb). split; [|exact Hne].
  apply lastBase_hash in Hb as [_ Hin]. apply in_map_iff in Hin as (q & <- & Hq).
  apply HB, Hq.
Qed.





(** *** The result of [Mul.flatten] *)

Lemma Mul_flatten_good seq :
  numFactors seq 1 <> 0 ->
  Forall goodPair (mf_powers (Mul.flatten seq)) /\
  Forall isFactor (mf_factors (Mul.flatten seq)) /\
  List.NoDup (map pairHash (mf_powers (Mul.flatten seq))).
Proof.
  intros H. rewrite Mul_flatten_spec by exact H. cbn [mf_powers mf_factors].
  split; [|split].
  - apply sort_Forall. apply List.Forall_forall. intros p Hp.
    eapply pairsOf_good; [|exact Hp]. intros q. apply baseLists_isBase.
  - apply sort_Forall. apply List.Forall_forall. intros f. apply factorLists_isFactor.
  - eapply Permutation_NoDup; [|apply pairsOf_hashes_NoDup].
    apply Permutation_map. symmetry. apply sort_perm.
Qed.

Lemma powerArg_not_Mul p L : goodPair p -> Mul.powerArg p <> NewMul L.
Proof.
  destruct p as [b e]. unfold goodPair, Mul.powerArg, Pow.create. simpl.
  intros [Hb He]. destruct b; try contradiction;
    repeat (match goal with |- context [if ?c then _ else _] => destruct c end);
    discriminate.
Qed.

Lemma finalArgs_not_Mul fl x L :
  Forall goodPair (mf_powers fl) -> Forall isFactor (mf_factors fl) ->
  In x (Mul_finalArgs fl) -> x <> NewMul L.
Proof.
  intros HS HF Hx. unfold Mul_finalArgs in Hx.
  apply in_app_or in Hx as [Hx|Hx]; [|apply in_app_or in Hx as [Hx|Hx]].
  - destruct (negb (mf_coeff fl =? 1)); [|destruct Hx].
    destruct Hx as [<-|[]]. discriminate.
  - apply in_map_iff in Hx as (p & <- & Hp). apply powerArg_not_Mul.
    rewrite List.Forall_forall in HS. apply HS, Hp.
  - rewrite List.Forall_forall in HF. apply HF in Hx. destruct x; try contradiction.
    discriminate.
Qed.

Lemma Mul_assemble_Mul_inv fl L :
  Forall goodPair (mf_powers fl) -> Forall isFactor (mf_factors fl) ->
  Mul_assemble fl = NewMul L ->
  mf_coeff fl <> 0 /\ L = Mul_finalArgs fl /\ (2 <= length L)%nat /\
  Nat.eqb (length (mf_factors fl)) 0 && Nat.eqb (length (mf_powers fl)) 0 = false.
Proof.
  intros HS HF. unfold Mul_assemble.
  destruct (Z.eqb_spec (mf_coeff fl) 0); [discriminate|].
  destruct (Nat.eqb (length (mf_factors fl)) 0 && Nat.eqb (length (mf_powers fl)) 0);
    [discriminate|].
  fold (Mul_finalArgs fl).
  pose proof (finalArgs_not_Mul fl) as Hnm.
  destruct (Mul_finalArgs fl) as [|a [|b rest]] eqn:E.
  - discriminate.
  - intros H. exfalso. apply (Hnm a L HS HF); [left; reflexivity|exact H].
  - intros [= <-]. repeat split; try assumption. simpl. lia.
Qed.

Lemma Mul_assemble_finalArgs fl :
  mf_coeff fl <> 0 -> (2 <= length (Mul_finalArgs fl))%nat ->
  Nat.eqb (length (mf_factors fl)) 0 && Nat.eqb (length (mf_powers fl)) 0 = false ->
  Mul_assemble fl = NewMul (Mul_finalArgs fl).
Proof.
  intros Hc Hlen Hne. unfold Mul_assemble.
  destruct (Z.eqb_spec (mf_coeff fl) 0); [contradiction|].
  rewrite Hne. fold (Mul_finalArgs fl).
  destruct (Mul_finalArgs fl) as [|a [|b rest]]; simpl in Hlen; try lia. reflexivity.
Qed.

(** ** Idempotence of [Mul.create] *)

Lemma Mul_create_eq_assemble ops :
  (2 <= length ops)%nat -> Mul.create ops = Mul_assemble (Mul.flatten ops).
Proof.
  destruct ops as [|a [|b rest]]; simpl length; try lia. intros _.
  apply Mul_create_assemble.
Qed.



(** ** A product among the operands of a product *)

Lemma total_unique B b k :
  List.NoDup (hashesOf B) -> In (b, k) B -> total B (hash b) = k.
Proof.
  induction B as [|[b' k'] B IH]; simpl; [intros _ []|].
  intros Hnd Hin. inversion Hnd as [|? ? Hk Hnd']; subst.
  destruct Hin as [[= -> ->]|Hin].
  - rewrite Z.eqb_refl. rewrite total_absent by exact Hk. lia.
  - destruct (Z.eqb_spec (hash b') (hash b)) as [E|E].
    + exfalso. apply Hk. rewrite E. unfold hashesOf.
      apply in_map_iff. exists (b, k). auto.
    + apply IH; assumption.
Qed.

Lemma lastBase_unique B b k :
  List.NoDup (hashesOf B) -> In (b, k) B -> lastBase B (hash b) = Some b.
Proof.
  induction B as [|[b' k'] B IH]; simpl; [intros _ []|].
  intros Hnd Hin. inversion Hnd as [|? ? Hk Hnd']; subst.
  destruct Hin as [[= -> ->]|Hin].
  - rewrite (proj2 (lastBase_None B (hash b)) Hk), Z.eqb_refl. reflexivity.
  - rewrite IH by assumption. reflexivity.
Qed.

Lemma total_nonzero_pair B h :
  total B h <> 0 ->
  exists b, hash b = h /\ In {| pp_base := b; pp_exp := total B h |} (pairsOf B).
Proof.
  intros H.
  destruct (lastBase B h) as [b|] eqn:E.
  - exists b. destruct (lastBase_hash _ _ _ E) as [Hh _]. split; [exact Hh|].
    apply pairsOf_In. simpl. rewrite Hh. auto.
  - exfalso. apply H, total_absent, lastBase_None, E.
Qed.

Section ReadBack.
Variables (S : list PowerPair) (B : list (Expression * Z)).
Hypothesis HS : Permutation S (pairsOf B).

Lemma readback_NoDup : List.NoDup (hashesOf (eventsOfPairs S)).
Proof.
  rewrite hashesOf_eventsOfPairs.
  eapply Permutation_NoDup; [|apply (pairsOf_hashes_NoDup B)].
  apply Permutation_map. symmetry. exact HS.
Qed.

Lemma readback_In p : In p S <-> In p (pairsOf B).
Proof.
  split; apply Permutation_in; [exact HS|symmetry; exact HS].
Qed.

Lemma readback_total h : total (eventsOfPairs S) h = total B h.
Proof.
  destruct (in_dec Z.eq_dec h (map pairHash S)) as [Hin|Hin].
  - apply in_map_iff in Hin as (p & <- & Hp).
    unfold pairHash.
    rewrite (total_unique (eventsOfPairs S) (pp_base p) (pp_exp p) readback_NoDup).
    + apply readback_In, pairsOf_In in Hp. apply Hp.
    + unfold eventsOfPairs. apply in_map_iff. exists p. auto.
  - rewrite total_absent by (rewrite hashesOf_eventsOfPairs; exact Hin).
    destruct (Z.eq_dec (total B h) 0) as [E|E]; [congruence|].
    exfalso. apply Hin. destruct (total_nonzero_pair B h E) as (b & Hb & Hp).
    apply readback_In in Hp. apply in_map_iff. exists {| pp_base := b; pp_exp := total B h |}.
    auto.
Qed.

Lemma readback_lastBase h :
  total B h <> 0 -> lastBase (eventsOfPairs S) h = lastBase B h.
Proof.
  intros E. destruct (total_nonzero_pair B h E) as (b & Hb & Hp).
  pose proof Hp as Hp'. apply pairsOf_In in Hp' as (_ & _ & Hl). simpl in Hl.
  rewrite Hb in Hl. rewrite Hl. rewrite <- Hb.
  apply (lastBase_unique _ b (total B h) readback_NoDup).
  apply readback_In in Hp. unfold eventsOfPairs. apply in_map_iff.
  exists {| pp_base := b; pp_exp := total B h |}. auto.
Qed.

Lemma readback_lastBase_zero h :
  total B h = 0 -> lastBase (eventsOfPairs S) h = None.
Proof.
  intros E. apply lastBase_None. rewrite hashesOf_eventsOfPairs.
  intros Hin. apply in_map_iff in Hin as (p & <- & Hp).
  apply readback_In, pairsOf_In in Hp as (Hne & Hv & _).
  unfold pairHash in E. congruence.
Qed.

Lemma readback_interned r :
  (forall q, In q B -> interned r (fst q)) ->
  forall q, In q (eventsOfPairs S) -> interned r (fst q).
Proof.
  intros HB q Hq. unfold eventsOfPairs in Hq. apply in_map_iff in Hq as (p & <- & Hp).
  apply readback_In, pairsOf_In in Hp as (_ & _ & Hl).
  apply lastBase_hash in Hl as [_ Hin]. apply in_map_iff in Hin as (q & Hq1 & Hq).
  simpl. rewrite <- Hq1. apply HB, Hq.
Qed.

End ReadBack.


(** ** [Add.flatten] as a function of what the operands contribute *)

Lemma collectTerms_fold (args : list Expression) k :
  Forall (fun e => forall k st,
    Add.collectTerms e k st =
    {| Add.terms := addPowers (termList e k) (Add.terms st);
       Add.coeff := Add.coeff st + numSum e k |}) args ->
  forall st,
    fold_left (fun st arg => Add.collectTerms arg k st) args st =
    {| Add.terms := addPowers (termLists args k) (Add.terms st);
       Add.coeff := Add.coeff st + numSums args k |}.
Proof.
  induction 1 as [|x args Hx _ IH]; intros st.
  - destruct st. simpl. f_equal. lia.
  - cbn [fold_left]. rewrite IH, Hx. cbn [Add.terms Add.coeff].
    unfold termLists, numSums, addPowers.
    cbn [flat_map fold_right]. rewrite !fold_left_app.
    f_equal. lia.
Qed.

Lemma collectTerms_spec e : forall k st,
  Add.collectTerms e k st =
  {| Add.terms := addPowers (termList e k) (Add.terms st);
     Add.coeff := Add.coeff st + numSum e k |}.
Proof.
  induction e as [v|n i|l IH|l IH|b x IHb IHx] using Expression_nested_ind; intros k st.
  - cbn [Add.collectTerms numSum termList].
    destruct (type_eqb (type_of (SymNumber v)) TZero); destruct st; simpl; f_equal; lia.
  - destruct st. simpl. unfold Add.addTerm. simpl. f_equal. lia.
  - cbn [Add.collectTerms]. rewrite (collectTerms_fold l k IH). reflexivity.
  - cbn [Add.collectTerms termList numSum].
    destruct (Add.extractCoeffTerm (NewMul l)) as [mulCoeff term].
    destruct st. unfold Add.addTerm. simpl. f_equal. lia.
  - destruct st. simpl. unfold Add.addTerm. simpl. f_equal. lia.
Qed.

Lemma Add_collectAll_spec seq :
  Add.collectAll seq =
  {| Add.terms := addPowers (termLists seq 1) []; Add.coeff := numSums seq 1 |}.
Proof.
  unfold Add.collectAll.
  rewrite (collectTerms_fold seq 1).
  - reflexivity.
  - apply List.Forall_forall. intros e _. apply collectTerms_spec.
Qed.

Lemma Add_create_assemble a b rest :
  Add.create (a :: b :: rest) = Add_assemble (Add.flatten (a :: b :: rest)).
Proof. reflexivity. Qed.

Lemma Add_flatten_spec seq :
  Add.flatten seq =
  {| fr_terms := sort compareTo (Add.resultTerms (addPowers (termLists seq 1) []) seq);
     fr_coeff := numSums seq 1 |}.
Proof. unfold Add.flatten. rewrite Add_collectAll_spec. reflexivity. Qed.

(** *** The entries of the map, up to their order *)

Lemma addPowers_In B h v :
  In (h, v) (addPowers B []) <-> In h (hashesOf B) /\ v = total B h.
Proof.
  rewrite <- map_get_In by (apply keysOf_addPowers_NoDup; constructor).
  apply map_get_addPowers; [constructor|reflexivity].
Qed.

Lemma addPowers_NoDup B : List.NoDup (addPowers B []).
Proof.
  apply (NoDup_map_inv fst). apply (keysOf_addPowers_NoDup B []). constructor.
Qed.

Lemma addPowers_perm B1 B2 :
  (forall h, In h (hashesOf B1) <-> In h (hashesOf B2)) ->
  (forall h, total B1 h = total B2 h) ->
  Permutation (addPowers B1 []) (addPowers B2 []).
Proof.
  intros Hh Ht. apply Permutation.NoDup_Permutation; try apply addPowers_NoDup.
  intros [h v]. rewrite !addPowers_In, Hh, Ht. reflexivity.
Qed.

Lemma resultTerms_cons h v rest seq :
  Add.resultTerms ((h, v) :: rest) seq =
  if v =? 0 then Add.resultTerms rest seq
  else match Add.findTerm seq h with
       | None => Add.resultTerms rest seq
       | Some term => rebuild v term :: Add.resultTerms rest seq
       end.
Proof. reflexivity. Qed.

Lemma resultTerms_ext entries seq1 seq2 :
  (forall h, Add.findTerm seq1 h = Add.findTerm seq2 h) ->
  Add.resultTerms entries seq1 = Add.resultTerms entries seq2.
Proof.
  intros Hf. induction entries as [|[h v] rest IH]; [reflexivity|].
  rewrite !resultTerms_cons, Hf, IH. reflexivity.
Qed.

Lemma resultTerms_perm entries1 entries2 seq :
  Permutation entries1 entries2 ->
  Permutation (Add.resultTerms entries1 seq) (Add.resultTerms entries2 seq).
Proof.
  induction 1 as [|[h v] l1 l2 _ IH|[h v] [h' v'] l|l1 l2 l3 _ IH12 _ IH23].
  - constructor.
  - rewrite !resultTerms_cons. destruct (v =? 0); [exact IH|].
    destruct (Add.findTerm seq h); [|exact IH]. apply perm_skip, IH.
  - rewrite !resultTerms_cons.
    destruct (v =? 0); destruct (v' =? 0);
      destruct (Add.findTerm seq h); destruct (Add.findTerm seq h');
      try reflexivity.
    apply perm_swap.
  - etransitivity; eassumption.
Qed.

(** *** Nodes built from interned nodes are interned *)

Lemma interned_NewMul r l : interned r (NewMul l) <-> Forall (interned r) l.
Proof. apply interned_args. Qed.

Lemma interned_NewAdd r l : interned r (NewAdd l) <-> Forall (interned r) l.
Proof. apply interned_args. Qed.

Lemma Pow_create_interned r b x :
  interned r b -> interned r x -> interned r (Pow.create b x).
Proof.
  intros Hb Hx. unfold Pow.create.
  repeat (match goal with |- context [if ?c then _ else _] => destruct c end);
    simpl; auto.
Qed.

Lemma Mul_finalArgs_interned r fl :
  Forall (fun p => interned r (pp_base p)) (mf_powers fl) ->
  Forall (interned r) (mf_factors fl) ->
  Forall (interned r) (Mul_finalArgs fl).
Proof.
  intros HS HF. unfold Mul_finalArgs. repeat apply Forall_app_2.
  - destruct (negb (mf_coeff fl =? 1)); repeat constructor.
  - apply List.Forall_forall. intros x Hx. apply in_map_iff in Hx as (p & <- & Hp).
    rewrite List.Forall_forall in HS. unfold Mul.powerArg.
    destruct (pp_exp p =? 1); [apply HS, Hp|].
    apply Pow_create_interned; [apply HS, Hp|exact I].
  - exact HF.
Qed.

Lemma Mul_assemble_interned r fl :
  Forall (fun p => interned r (pp_base p)) (mf_powers fl) ->
  Forall (interned r) (mf_factors fl) ->
  interned r (Mul_assemble fl).
Proof.
  intros HS HF. pose proof (Mul_finalArgs_interned r fl HS HF) as H.
  unfold Mul_assemble.
  destruct (mf_coeff fl =? 0); [exact I|].
  destruct (_ && _); [exact I|].
  fold (Mul_finalArgs fl). destruct (Mul_finalArgs fl) as [|a [|b rest]].
  - exact I.
  - inversion H; assumption.
  - apply interned_NewMul. exact H.
Qed.

Lemma Mul_create_interned r args :
  Forall (interned r) args -> interned r (Mul.create args).
Proof.
  intros H. destruct args as [|a [|b rest]].
  - exact I.
  - inversion H; assumption.
  - rewrite Mul_create_assemble.
    destruct (Z.eq_dec (numFactors (a :: b :: rest) 1) 0) as [E|E].
    + rewrite Mul_assemble_zero by (apply Mul_flatten_zero; exact E). exact I.
    + rewrite Mul_flatten_spec by exact E. apply Mul_assemble_interned; cbn [mf_powers mf_factors].
      * apply sort_Forall. apply List.Forall_forall. intros p Hp.
        apply pairsOf_In in Hp as (_ & _ & Hl). apply lastBase_hash in Hl as [_ Hin].
        apply in_map_iff in Hin as (q & Hq1 & Hq). rewrite <- Hq1.
        eapply baseLists_interned; eassumption.
      * apply sort_Forall, factorLists_interned, H.
Qed.

Lemma extractCoeffTerm_interned r e :
  interned r e -> interned r (snd (Add.extractCoeffTerm e)).
Proof.
  intros H. unfold Add.extractCoeffTerm.
  destruct (isNumericType (type_of e)); [exact I|].
  destruct e as [v|n i|l|[|f rest]|b x]; try exact H.
  destruct (isNumericType (type_of f)); [|exact H].
  apply interned_NewMul in H. inversion H as [|? ? _ Hrest]; subst.
  destruct rest as [|t [|t' rest]]; cbn [snd].
  - exact I.
  - inversion Hrest; assumption.
  - apply interned_NewMul. exact Hrest.
Qed.

Lemma candidate_Some r e h t :
  Add.candidate e h = Some t ->
  hash t = h /\ In t (Add_candidates [e]) /\ (interned r e -> interned r t).
Proof.
  unfold Add.candidate, Add_candidates. cbn [flat_map]. rewrite app_nil_r.
  assert (Hdefault : (if hash e =? h then Some e else None) = Some t ->
                     hash t = h /\ In t [e] /\ (interned r e -> interned r t)).
  { destruct (Z.eqb_spec (hash e) h); [|discriminate]. intros [= <-].
    simpl. auto. }
  destruct (type_of e) eqn:T; try exact Hdefault.
  - intros H. apply find_some in H as [Hin Hh]. apply Z.eqb_eq in Hh.
    split; [exact Hh|]. split; [exact Hin|].
    apply type_of_Add_inv in T as (l & ->). cbn [args_of] in *. intros Hi.
    apply interned_NewAdd in Hi. rewrite List.Forall_forall in Hi. apply Hi, Hin.
  - pose proof (extractCoeffTerm_interned r e) as Hi.
    destruct (Add.extractCoeffTerm e) as [c term]. simpl in *.
    destruct (Z.eqb_spec (hash term) h); [|discriminate]. intros [= <-]. auto.
Qed.

Lemma Add_candidates_app l1 l2 :
  Add_candidates (l1 ++ l2) = Add_candidates l1 ++ Add_candidates l2.
Proof. unfold Add_candidates. apply flat_map_app. Qed.

Lemma findTerm_Some r seq h t :
  Add.findTerm seq h = Some t ->
  hash t = h /\ In t (Add_candidates seq) /\ (Forall (interned r) seq -> interned r t).
Proof.
  induction seq as [|e seq IH]; cbn [Add.findTerm]; [discriminate|].
  change (e :: seq) with ([e] ++ seq). rewrite Add_candidates_app.
  destruct (Add.candidate e h) as [t'|] eqn:E.
  - intros [= ->]. destruct (candidate_Some r _ _ _ E) as (H1 & H2 & H3).
    split; [exact H1|]. split; [apply in_or_app; auto|].
    intros Hf. inversion Hf; auto.
  - intros H. destruct (IH H) as (H1 & H2 & H3).
    split; [exact H1|]. split; [apply in_or_app; auto|].
    intros Hf. inversion Hf; auto.
Qed.

Lemma rebuild_interned r v t : interned r t -> interned r (rebuild v t).
Proof.
  intros H. unfold rebuild. destruct (v =? 1); [exact H|].
  apply Mul_create_interned. repeat constructor. exact H.
Qed.

Lemma resultTerms_interned r entries seq :
  Forall (interned r) seq -> Forall (interned r) (Add.resultTerms entries seq).
Proof.
  intros H. induction entries as [|[h v] rest IH]; [constructor|].
  rewrite resultTerms_cons. destruct (v =? 0); [exact IH|].
  destruct (Add.findTerm seq h) as [t|] eqn:E; [|exact IH].
  constructor; [|exact IH]. apply rebuild_interned.
  apply (findTerm_Some r) in E as (_ & _ & Hi). apply Hi, H.
Qed.

(** ** Commutativity of [Add.create] *)

Lemma findTerm_swap a b h :
  collision_free (Add_candidates [a; b]) ->
  Add.findTerm [a; b] h = Add.findTerm [b; a] h.
Proof.
  intros Hcf. simpl.
  destruct (Add.candidate a h) as [ta|] eqn:Ea;
    destruct (Add.candidate b h) as [tb|] eqn:Eb; try reflexivity.
  f_equal.
  destruct (candidate_Some SymbolRegistry.initial _ _ _ Ea) as (Ha & Ia & _).
  destruct (candidate_Some SymbolRegistry.initial _ _ _ Eb) as (Hb & Ib & _).
  apply Hcf; [| |congruence].
  - change [a; b] with ([a] ++ [b]). rewrite Add_candidates_app. apply in_or_app. auto.
  - change [a; b] with ([a] ++ [b]). rewrite Add_candidates_app. apply in_or_app. auto.
Qed.

Lemma Add_create_comm r a b :
  interned r a -> interned r b -> collision_free (Add_candidates [a; b]) ->
  Add.create [a; b] = Add.create [b; a].
Proof.
  intros Ia Ib Hcf. rewrite !Add_create_assemble, !Add_flatten_spec.
  f_equal. f_equal.
  - apply (sort_perm_eq compareTo compareTo_antisym (interned r)).
    + apply compareTo_eq.
    + apply compareTo_lt_trans.
    + apply resultTerms_interned. repeat constructor; assumption.
    + rewrite (resultTerms_ext _ [a; b] [b; a]) by (intros h; apply findTerm_swap, Hcf).
      apply resultTerms_perm. apply addPowers_perm.
      * intros h. unfold termLists, hashesOf. simpl. rewrite !app_nil_r, !map_app, !in_app_iff.
        tauto.
      * intros h. unfold termLists. simpl. rewrite !app_nil_r, !total_app. lia.
  - unfold numSums. simpl. lia.
Qed.

(** ** Operands that are collected under their own hash *)






(** ** [Pow.create] *)

(** The table of [Pow.create] on the integers of the embedding.  In the
    numeric row the result is a number node, and the power of the two
    values when they are integers that doubles hold exactly, the exponent is
    not negative and the power is such an integer. *)
Lemma Pow_create_integers (base exponent : Expression) :
  (type_of exponent = TZero -> Pow.create base exponent = ONE) /\
  (type_of exponent = TOne -> Pow.create base exponent = base) /\
  (type_of exponent <> TZero -> type_of exponent <> TOne ->
   type_of base = TZero -> Pow.create base exponent = ZERO) /\
  (type_of exponent <> TZero -> type_of exponent <> TOne ->
   type_of base = TOne -> Pow.create base exponent = ONE) /\
  (type_of exponent <> TZero -> type_of exponent <> TOne ->
   type_of base <> TZero -> type_of base <> TOne ->
   isNumericType (type_of base) = true -> isNumericType (type_of exponent) = true ->
   isNumericType (type_of (Pow.create base exponent)) = true /\
   forall u v, base = SymNumber u -> exponent = SymNumber v ->
     exactInteger u -> exactInteger v -> 0 <= v -> exactInteger (u ^ v) ->
     Pow.create base exponent = SymNumber (u ^ v)) /\
  (type_of exponent <> TZero -> type_of exponent <> TOne ->
   type_of base <> TZero -> type_of base <> TOne ->
   isNumericType (type_of base) = false \/ isNumericType (type_of exponent) = false ->
   Pow.create base exponent = NewPow base exponent).
Proof.
  unfold Pow.create.
  destruct (type_eqb (type_of exponent) TZero) eqn:E1;
    [apply type_eqb_eq in E1 | assert (type_of exponent <> TZero)
                                 by (intros C; apply type_eqb_eq in C; congruence)];
  (destruct (type_eqb (type_of exponent) TOne) eqn:E2;
    [apply type_eqb_eq in E2 | assert (type_of exponent <> TOne)
                                 by (intros C; apply type_eqb_eq in C; congruence)]);
  (destruct (type_eqb (type_of base) TZero) eqn:E3;
    [apply type_eqb_eq in E3 | assert (type_of base <> TZero)
                                 by (intros C; apply type_eqb_eq in C; congruence)]);
  (destruct (type_eqb (type_of base) TOne) eqn:E4;
    [apply type_eqb_eq in E4 | assert (type_of base <> TOne)
                                 by (intros C; apply type_eqb_eq in C; congruence)]);
  destruct (isNumericType (type_of base)) eqn:E5;
  destruct (isNumericType (type_of exponent)) eqn:E6; simpl;
  repeat split; intros; subst; try congruence; try reflexivity;
  try (exfalso; intuition congruence);
  try apply type_of_SymNumber_numeric.
Qed.

(** A node of a numeric type is a number node. *)
Lemma Doubles_numeric_inv (e : Doubles.Expression) :
  isNumericType (Doubles.type_of e) = true -> exists v, e = Doubles.SymNumber v.
Proof. destruct e; try discriminate. eauto. Qed.

(** C6. [Pow.create] goes through its table in a fixed order: exponent of
    type Zero gives ONE; else exponent of type One gives the base; else a
    base of type Zero gives ZERO; else a base of type One gives ONE; else,
    when both have a numeric type, the number node of
    [Math.pow(base.value, exponent.value)], a double; else the node [Pow]
    over exactly [base; exponent].  So [Pow.create(Number(0), Number(0))]
    is ONE. *)
Theorem Pow_create_table (Math_pow : float -> float -> float)
    (base exponent : Doubles.Expression) :
  (Doubles.type_of exponent = TZero ->
   Doubles.Pow.create Math_pow base exponent = Doubles.ONE) /\
  (Doubles.type_of exponent = TOne ->
   Doubles.Pow.create Math_pow base exponent = base) /\
  (Doubles.type_of exponent <> TZero -> Doubles.type_of exponent <> TOne ->
   Doubles.type_of base = TZero ->
   Doubles.Pow.create Math_pow base exponent = Doubles.ZERO) /\
  (Doubles.type_of exponent <> TZero -> Doubles.type_of exponent <> TOne ->
   Doubles.type_of base = TOne ->
   Doubles.Pow.create Math_pow base exponent = Doubles.ONE) /\
  (Doubles.type_of exponent <> TZero -> Doubles.type_of exponent <> TOne ->
   Doubles.type_of base <> TZero -> Doubles.type_of base <> TOne ->
   isNumericType (Doubles.type_of base) = true ->
   isNumericType (Doubles.type_of exponent) = true ->
   exists u v, base = Doubles.SymNumber u /\ exponent = Doubles.SymNumber v /\
     Doubles.Pow.create Math_pow base exponent = Doubles.SymNumber (Math_pow u v)) /\
  (Doubles.type_of exponent <> TZero -> Doubles.type_of exponent <> TOne ->
   Doubles.type_of base <> TZero -> Doubles.type_of base <> TOne ->
   isNumericType (Doubles.type_of base) = false \/
   isNumericType (Doubles.type_of exponent) = false ->
   Doubles.Pow.create Math_pow base exponent = Doubles.NewPow base exponent /\
   Doubles.args_of (Doubles.Pow.create Math_pow base exponent) = [base; exponent]) /\
  Doubles.Pow.create Math_pow (Doubles.SymNumber 0) (Doubles.SymNumber 0) = Doubles.ONE.
Proof.
  unfold Doubles.Pow.create.
  destruct (type_eqb (Doubles.type_of exponent) TZero) eqn:E1;
    [apply type_eqb_eq in E1 | assert (Doubles.type_of exponent <> TZero)
                                 by (intros C; apply type_eqb_eq in C; congruence)];
  (destruct (type_eqb (Doubles.type_of exponent) TOne) eqn:E2;
    [apply type_eqb_eq in E2 | assert (Doubles.type_of exponent <> TOne)
                                 by (intros C; apply type_eqb_eq in C; congruence)]);
  (destruct (type_eqb (Doubles.type_of base) TZero) eqn:E3;
    [apply type_eqb_eq in E3 | assert (Doubles.type_of base <> TZero)
                                 by (intros C; apply type_eqb_eq in C; congruence)]);
  (destruct (type_eqb (Doubles.type_of base) TOne) eqn:E4;
    [apply type_eqb_eq in E4 | assert (Doubles.type_of base <> TOne)
                                 by (intros C; apply type_eqb_eq in C; congruence)]);
  destruct (isNumericType (Doubles.type_of base)) eqn:E5;
  destruct (isNumericType (Doubles.type_of exponent)) eqn:E6; simpl;
  repeat split; intros; try congruence; try reflexivity;
  try (exfalso; intuition congruence);
  destruct (Doubles_numeric_inv base E5) as [u ->];
  destruct (Doubles_numeric_inv exponent E6) as [v ->];
  exists u, v; repeat split.
Qed.

(** Rows of the table at doubles: [2 ** -1], whose exponent has the type
    NegativeOne, is the number node of [Math.pow(2, -1)]; a [NaN] exponent
    leads to the numeric row as well; and [-0] has the type Zero, as a base
    and as an exponent. *)
Lemma Pow_create_rows (Math_pow : float -> float -> float) :
  Doubles.Pow.create Math_pow (Doubles.SymNumber 2) (Doubles.SymNumber (-1))
  = Doubles.SymNumber (Math_pow 2 (-1))%float /\
  Doubles.Pow.create Math_pow (Doubles.SymNumber 0.5) (Doubles.SymNumber nan)
  = Doubles.SymNumber (Math_pow 0.5 nan)%float /\
  Doubles.Pow.create Math_pow (Doubles.SymNumber (-0)) (Doubles.SymNumber 3)
  = Doubles.ZERO /\
  Doubles.Pow.create Math_pow (Doubles.MkSymbol "x" 1) (Doubles.SymNumber (-0))
  = Doubles.ONE.
Proof. repeat split. Qed.

(** ** The type of a number node *)

(** C10. The constructor of [SymNumber] gives the type Zero to the value 0,
    One to 1, NegativeOne to -1 and Number to every other value.  Hence no
    node has type Number and a value among 0, 1, -1, and two number nodes
    with one value have one type: [compareTo] never sets a Number node
    against a Zero, One or NegativeOne node of the same value. *)
Theorem SymNumber_type_invariant :
  (forall v,
     (type_of (SymNumber v) = TZero <-> v = 0) /\
     (type_of (SymNumber v) = TOne <-> v = 1) /\
     (type_of (SymNumber v) = TNegativeOne <-> v = -1) /\
     (type_of (SymNumber v) = TNumber <-> v <> 0 /\ v <> 1 /\ v <> -1)) /\
  (type_of ZERO = TZero /\ type_of ONE = TOne /\ type_of NEGATIVE_ONE = TNegativeOne) /\
  (forall e, type_of e = TNumber ->
     value_of e <> 0 /\ value_of e <> 1 /\ value_of e <> -1) /\
  (forall a b,
     isNumericType (type_of a) = true -> isNumericType (type_of b) = true ->
     value_of a = value_of b -> type_of a = type_of b /\ compareTo a b = 0) /\
  (forall a b,
     type_of a = TNumber -> isNumericType (type_of b) = true ->
     type_of b <> TNumber -> value_of a <> value_of b).
Proof.
  assert (Hv : forall v,
     (type_of (SymNumber v) = TZero <-> v = 0) /\
     (type_of (SymNumber v) = TOne <-> v = 1) /\
     (type_of (SymNumber v) = TNegativeOne <-> v = -1) /\
     (type_of (SymNumber v) = TNumber <-> v <> 0 /\ v <> 1 /\ v <> -1)).
  { intros v. simpl.
    destruct (Z.eqb_spec v 0); [subst; simpl; repeat split; intros; try lia; try congruence; try tauto |].
    destruct (Z.eqb_spec v 1); [subst; simpl; repeat split; intros; try lia; try congruence; try tauto |].
    destruct (Z.eqb_spec v (-1)); [subst; simpl; repeat split; intros; try lia; try congruence; try tauto |].
    repeat split; intros; try lia; try congruence; try tauto. }
  split; [exact Hv|].
  split; [repeat split|].
  split.
  { intros [v| | | |]; simpl; try discriminate. intros H. apply Hv in H. exact H. }
  split.
  { intros [v| | | |] [w| | | |]; try discriminate. intros _ _. cbn [value_of]. intros ->.
    split; [reflexivity|]. cbn [compareTo]. rewrite Z.sub_diag. simpl. lia. }
  intros [v| | | |] [w| | | |]; try discriminate. cbn [value_of].
  intros Ha _ Hb ->. contradiction.
Qed.

(** ** Equality and hashing *)

(** C9, amended.  When [a.equals(b)] holds the hashes agree, and, for
    nodes whose symbols were interned in one registry filled by [getId]
    alone, with no [SymbolRegistry.clear()] between them, [a] and [b] are
    the same tree: [equals] is never true of structurally different inputs,
    whatever their hashes. *)
Theorem equals_sound (r : SymbolRegistry.t) (a b : Expression) :
  (equals a b = true -> hash a = hash b) /\
  (registry_reachable r -> interned r a -> interned r b ->
   equals a b = true -> a = b).
Proof.
  split; [apply equals_hash|].
  intros Hr Ha Hb H. eapply equals_eq; eassumption.
Qed.

Lemma reach_SymSymbol r name :
  registry_reachable r -> registry_reachable (snd (SymSymbol name r)).
Proof.
  intros H. unfold SymSymbol.
  pose proof (reach_getId r name H) as H'.
  destruct (SymbolRegistry.getId name r). exact H'.
Qed.

Lemma registry_xyz_reachable : registry_reachable registry_xyz.
Proof. unfold registry_xyz. repeat apply reach_SymSymbol. apply reach_initial. Qed.

Lemma equals_sound_witness :
  hash (Add.create [symbol_x; symbol_y]) = hash (Add.create [symbol_y; symbol_x]) /\
  Add.create [symbol_x; symbol_y] = Add.create [symbol_y; symbol_x].
Proof.
  destruct (equals_sound registry_xyz (Add.create [symbol_x; symbol_y])
              (Add.create [symbol_y; symbol_x])) as [Hh He].
  split; [apply Hh; vm_compute; reflexivity|].
  apply He.
  - exact registry_xyz_reachable.
  - vm_compute. auto.
  - vm_compute. auto.
  - vm_compute. reflexivity.
Defined.

(** A real collision: the two symbols hash alike and [equals] tells them
    apart. *)
Lemma equals_rejects_collision :
  hash symbol_p = hash symbol_q /\ equals symbol_p symbol_q = false /\
  equals (NewPow symbol_p (SymNumber 2)) (NewPow symbol_q (SymNumber 2)) = false.
Proof. vm_compute. auto. Qed.

(** C9 as worded fails across [SymbolRegistry.clear()]: the names [ijjbij]
    and [unzfyv] hash alike, the symbol created before the call and the
    symbol created after it both carry the id 1, and [deepEquals] compares
    the ids alone. *)
Lemma equals_confuses_cleared_symbols :
  symbol_p = MkSymbol "ijjbij" 1 /\
  symbol_q_cleared = MkSymbol "unzfyv" 1 /\
  symbol_p <> symbol_q_cleared /\
  hash symbol_p = hash symbol_q_cleared /\
  equals symbol_p symbol_q_cleared = true.
Proof.
  split; [reflexivity|]. split; [reflexivity|]. split; [discriminate|].
  split; vm_compute; reflexivity.
Qed.

(** ** Evaluation *)

Lemma evalLoop_returns eval op args vs :
  Forall2 (fun a v => eval a = Returns v) args vs ->
  forall acc, evalLoop eval op args acc = Returns (fold_left op vs acc).
Proof.
  induction 1 as [|a v args vs Ha _ IH]; intros acc; simpl; [reflexivity|].
  rewrite Ha. apply IH.
Qed.

Lemma otherLoop_throws eval args err :
  otherLoop eval args = Throws err ->
  exists a, In a args /\ eval a = Throws err.
Proof.
  induction args as [|a args IH]; simpl; [discriminate|].
  destruct (eval a) as [v| |e] eqn:E.
  - intros H. destruct (IH H) as (a' & Hin & Ha'). exists a'. auto.
  - intros H. destruct (IH H) as (a' & Hin & Ha'). exists a'. auto.
  - intros [= <-]. exists a. auto.
Qed.

Lemma evalLoop_throws eval op args acc err :
  evalLoop eval op args acc = Throws err ->
  exists a, In a args /\ eval a = Throws err.
Proof.
  revert acc. induction args as [|a args IH]; intros acc; simpl; [discriminate|].
  destruct (eval a) as [v| |e] eqn:E.
  - intros H. destruct (IH _ H) as (a' & Hin & Ha'). exists a'. auto.
  - intros H. destruct (otherLoop_throws _ _ _ H) as (a' & Hin & Ha'). exists a'. auto.
  - intros [= <-]. exists a. auto.
Qed.

Lemma otherLoop_stuck eval args a err :
  In a args -> eval a = Throws err ->
  exists a' err', In a' args /\ otherLoop eval args = Throws err' /\ eval a' = Throws err'.
Proof.
  induction args as [|x args IH]; intros Hin Ha; [destruct Hin|].
  simpl. destruct (eval x) as [v| |e] eqn:E.
  - destruct Hin as [->|Hin]; [congruence|].
    destruct (IH Hin Ha) as (a' & err' & Hin' & Hl & Ha').
    exists a', err'. simpl. auto.
  - destruct Hin as [->|Hin]; [congruence|].
    destruct (IH Hin Ha) as (a' & err' & Hin' & Hl & Ha').
    exists a', err'. simpl. auto.
  - exists x, e. simpl. auto.
Qed.

Lemma evalLoop_stuck eval op args acc a err :
  In a args -> eval a = Throws err ->
  exists a' err', In a' args /\ evalLoop eval op args acc = Throws err' /\ eval a' = Throws err'.
Proof.
  revert acc. induction args as [|x args IH]; intros acc Hin Ha; [destruct Hin|].
  simpl. destruct (eval x) as [v| |e] eqn:E.
  - destruct Hin as [->|Hin]; [congruence|].
    destruct (IH (op acc v) Hin Ha) as (a' & err' & Hin' & Hl & Ha').
    exists a', err'. simpl. auto.
  - destruct Hin as [->|Hin]; [congruence|].
    destruct (otherLoop_stuck eval args a err Hin Ha) as (a' & err' & Hin' & Hl & Ha').
    exists a', err'. simpl. auto.
  - exists x, e. simpl. auto.
Qed.

Lemma getSymbols_args name (args : list Expression) :
  name ∈ ⋃ (map getSymbols args) <-> exists a, In a args /\ name ∈ getSymbols a.
Proof.
  rewrite elem_of_union_list. split.
  - intros (X & HX & Hn). apply list_elem_of_In, in_map_iff in HX as (a & <- & Ha). eauto.
  - intros (a & Ha & Hn). exists (getSymbols a). split; [|assumption].
    apply list_elem_of_In, in_map_iff. eauto.
Qed.

Lemma evaluateNumerical_throws_unbound e (s : gmap string Z) err :
  evaluateNumerical e s = Throws err ->
  exists name, err = UnboundSymbol name /\ name ∈ getSymbols e /\
               s !! name = None /\ inherited name = false.
Proof.
  revert err.
  induction e as [v|n i|l IH|l IH|b x IHb IHx] using Expression_nested_ind;
    intros err; cbn [evaluateNumerical getSymbols].
  - discriminate.
  - destruct (s !! n) eqn:E; [discriminate|].
    destruct (inherited n) eqn:En; [discriminate|]. intros [= <-].
    exists n. split; [reflexivity|]. split; [set_solver|auto].
  - intros H. apply evalLoop_throws in H as (a & Hin & Ha).
    rewrite List.Forall_forall in IH. destruct (IH a Hin _ Ha) as (name & -> & Hn & Hs).
    exists name. split; [reflexivity|]. split; [|assumption].
    apply getSymbols_args. eauto.
  - intros H. apply evalLoop_throws in H as (a & Hin & Ha).
    rewrite List.Forall_forall in IH. destruct (IH a Hin _ Ha) as (name & -> & Hn & Hs).
    exists name. split; [reflexivity|]. split; [|assumption].
    apply getSymbols_args. eauto.
  - destruct (evaluateNumerical b s) as [vb| |eb] eqn:Eb.
    + destruct (evaluateNumerical x s) as [vx| |ex] eqn:Ex; try discriminate.
      intros [= <-]. destruct (IHx _ eq_refl) as (name & -> & Hn & Hs).
      exists name. split; [reflexivity|]. split; [set_solver|assumption].
    + destruct (evaluateNumerical x s) as [vx| |ex] eqn:Ex; try discriminate.
      * destruct (vx =? 0); discriminate.
      * intros [= <-]. destruct (IHx _ eq_refl) as (name & -> & Hn & Hs).
        exists name. split; [reflexivity|]. split; [set_solver|assumption].
    + intros [= <-]. destruct (IHb _ eq_refl) as (name & -> & Hn & Hs).
      exists name. split; [reflexivity|]. split; [set_solver|assumption].
Qed.

Lemma evaluateNumerical_unbound_throws e (s : gmap string Z) name :
  name ∈ getSymbols e -> s !! name = None -> inherited name = false ->
  exists err, evaluateNumerical e s = Throws err.
Proof.
  induction e as [v|n i|l IH|l IH|b x IHb IHx] using Expression_nested_ind;
    cbn [evaluateNumerical getSymbols]; intros Hn Hs Hi.
  - set_solver.
  - apply elem_of_singleton in Hn as ->. rewrite Hs, Hi. eauto.
  - apply getSymbols_args in Hn as (a & Hin & Hn).
    rewrite List.Forall_forall in IH. destruct (IH a Hin Hn Hs Hi) as (err & Ha).
    destruct (evalLoop_stuck (fun arg => evaluateNumerical arg s) Z.add l 0 a err Hin Ha)
      as (_ & err' & _ & H & _). eauto.
  - apply getSymbols_args in Hn as (a & Hin & Hn).
    rewrite List.Forall_forall in IH. destruct (IH a Hin Hn Hs Hi) as (err & Ha).
    destruct (evalLoop_stuck (fun arg => evaluateNumerical arg s) Z.mul l 1 a err Hin Ha)
      as (_ & err' & _ & H & _). eauto.
  - apply elem_of_union in Hn as [Hn|Hn].
    + destruct (IHb Hn Hs Hi) as (err & ->). eauto.
    + destruct (IHx Hn Hs Hi) as (err & ->).
      destruct (evaluateNumerical b s); eauto.
Qed.

(** *** On doubles *)

Section DoublesEvaluation.

Variable Math_pow : float -> float -> float.











End DoublesEvaluation.



(** ** The term that [Add.flatten] loses *)

(** C4, at the input of the repository's own example
    [add(add(power(x, two), multiply(two, x)), num(1))]: after the
    collection both [x^2] (coefficient 1) and [x] (coefficient 2) are keyed
    with a non-zero coefficient and the constant is 1, yet the result holds
    [x^2] alone: the search for the term of a key looks at the operands of
    a nested [Add] themselves and never at the term inside a product among
    them.  The flat call keeps the three operands. *)
Theorem Add_create_loses_keyed_term :
  let square := Pow.create symbol_x (SymNumber 2) in
  let twice := Mul.create [SymNumber 2; symbol_x] in
  let nested := Add.create [Add.create [square; twice]; SymNumber 1] in
  Add.terms (Add.collectAll [Add.create [square; twice]; SymNumber 1])
    = [(hash square, 1); (hash symbol_x, 2)] /\
  Add.coeff (Add.collectAll [Add.create [square; twice]; SymNumber 1]) = 1 /\
  Add.findTerm [Add.create [square; twice]; SymNumber 1] (hash symbol_x) = None /\
  nested = NewAdd [SymNumber 1; square] /\
  Add.create [square; twice; SymNumber 1] = NewAdd [SymNumber 1; square; twice] /\
  evaluateNumerical nested {[ "x"%string := 3 ]} = Returns 10 /\
  evaluateNumerical (Add.create [square; twice; SymNumber 1]) {[ "x"%string := 3 ]}
    = Returns 16.
Proof. vm_compute. repeat split; reflexivity. Qed.

(** ** Inputs on which the stated laws fail *)



(** C3 fails on two symbols whose hashes collide: the sum is twice the
    operand that comes first. *)
Lemma Add_create_order_matters :
  hash symbol_p = hash symbol_q /\
  Add.create [symbol_p; symbol_q] = NewMul [SymNumber 2; symbol_p] /\
  Add.create [symbol_q; symbol_p] = NewMul [SymNumber 2; symbol_q] /\
  equals (Add.create [symbol_p; symbol_q]) (Add.create [symbol_q; symbol_p]) = false.
Proof. vm_compute. repeat split; reflexivity. Qed.



(** ** Deciding the side conditions on concrete operands *)

Lemma distinct_hashes_free l : distinct_hashes l = true -> collision_free l.
Proof.
  induction l as [|x rest IH]; simpl; intros H a b Ha Hb Hh; [destruct Ha|].
  apply andb_true_iff in H as [Hx Hrest]. rewrite forallb_forall in Hx.
  destruct Ha as [<-|Ha], Hb as [<-|Hb].
  - reflexivity.
  - apply Hx in Hb. rewrite Hh, Z.eqb_refl in Hb. discriminate.
  - apply Hx in Ha. rewrite <- Hh, Z.eqb_refl in Ha. discriminate.
  - apply IH; assumption.
Qed.

(** ** Commutativity *)

(** C3, amended.  For operands [a] and [b] whose symbols were interned in
    one registry and have names of lower-case letters, and on which the
    arithmetic of the flattening is exact in doubles, [Add.create(a, b)]
    equals [Add.create(b, a)] when no two different nodes among which
    [Add.flatten] looks for the term of a key share a hash, and
    [Mul.create(a, b)] equals [Mul.create(b, a)] when no two different bases
    that [Mul.flatten] records share a hash. *)
Theorem create_commutative (r : SymbolRegistry.t) (a b : Expression) :
  interned r a -> interned r b -> lowerCaseNames a -> lowerCaseNames b ->
  (collision_free (Add_candidates [a; b]) -> exactTerms [a; b] ->
   equals (Add.create [a; b]) (Add.create [b; a]) = true) /\
  (collision_free (Mul_bases [a; b]) -> exactFactors [a; b] ->
   equals (Mul.create [a; b]) (Mul.create [b; a]) = true).
Proof.
  intros Ha Hb _ _. split; intros Hcf _.
  - rewrite (Add_create_comm r a b Ha Hb Hcf). apply equals_refl.
  - rewrite (Mul_create_comm r a b Ha Hb Hcf). apply equals_refl.
Qed.

Lemma create_commutative_witness :
  let a := Add.create [symbol_x; SymNumber 2] in
  let b := Mul.create [SymNumber 3; symbol_y] in
  equals (Add.create [a; b]) (Add.create [b; a]) = true /\
  equals (Mul.create [a; b]) (Mul.create [b; a]) = true.
Proof.
  intros a b.
  destruct (create_commutative registry_xyz a b) as [HAdd HMul];
    [vm_compute; auto..|].
  split; [apply HAdd|apply HMul].
  - apply distinct_hashes_free; vm_compute; reflexivity.
  - split; [|vm_compute; discriminate].
    repeat (apply List.Forall_cons; [vm_compute; intuition discriminate|]).
    apply List.Forall_nil.
  - apply distinct_hashes_free; vm_compute; reflexivity.
  - split; [|vm_compute; discriminate].
    repeat (apply List.Forall_cons; [vm_compute; intuition discriminate|]).
    apply List.Forall_nil.
Defined.

(** ** Products as operands of [Add.create] and [Mul.create] *)


Lemma powerArg_shape p :
  goodPair p ->
  Mul.powerArg p = pp_base p \/
  Mul.powerArg p = NewPow (pp_base p) (SymNumber (pp_exp p)).
Proof.
  destruct p as [b e]. unfold goodPair, Mul.powerArg. simpl. intros [Hb He].
  destruct (Z.eqb_spec e 1); [left; reflexivity|]. right.
  unfold Pow.create. cbn [type_of].
  destruct (Z.eqb_spec e 0); [contradiction|].
  destruct (Z.eqb_spec e 1); [contradiction|].
  destruct b; try contradiction; destruct (e =? -1); reflexivity.
Qed.





Lemma numeric_inv f : isNumericType (type_of f) = true -> exists c, f = SymNumber c.
Proof. destruct f; try discriminate. eauto. Qed.





(** ** Sums of numbers and symbols *)

(** *** The search for the term of a key, when hashes do not collide *)

Lemma collision_free_incl l l' :
  incl l l' -> collision_free l' -> collision_free l.
Proof. intros Hi H x y Hx Hy. apply H; apply Hi; assumption. Qed.

Lemma candidate_offers e t :
  In t (Add_candidates [e]) -> exists t', Add.candidate e (hash t) = Some t'.
Proof.
  unfold Add.candidate, Add_candidates. cbn [flat_map]. rewrite app_nil_r.
  assert (Hdefault : In t [e] ->
            exists t', (if hash e =? hash t then Some e else None) = Some t').
  { intros [->|[]]. rewrite Z.eqb_refl. eauto. }
  destruct (type_of e) eqn:T; try exact Hdefault.
  - apply type_of_Add_inv in T as (l & ->). cbn [args_of].
    intros Hin. destruct (find (fun arg => hash arg =? hash t) l) as [t'|] eqn:E; [eauto|].
    exfalso. pose proof (find_none _ _ E _ Hin) as H. cbn in H.
    rewrite Z.eqb_refl in H. discriminate.
  - destruct (Add.extractCoeffTerm e) as [c u]. cbn [snd].
    intros [->|[]]. rewrite Z.eqb_refl. eauto.
Qed.

Lemma findTerm_offers seq t :
  In t (Add_candidates seq) -> exists t', Add.findTerm seq (hash t) = Some t'.
Proof.
  induction seq as [|e seq IH]; [intros []|].
  change (e :: seq) with ([e] ++ seq). rewrite Add_candidates_app, in_app_iff.
  cbn [app Add.findTerm]. intros [H|H].
  - destruct (candidate_offers e t H) as (t' & ->). eauto.
  - destruct (Add.candidate e (hash t)); [eauto|]. apply IH, H.
Qed.

Lemma findTerm_unique seq t :
  collision_free (Add_candidates seq) -> In t (Add_candidates seq) ->
  Add.findTerm seq (hash t) = Some t.
Proof.
  intros Hcf Hin. destruct (findTerm_offers seq t Hin) as (t' & E).
  rewrite E. f_equal.
  apply (findTerm_Some SymbolRegistry.initial) in E as (Hh & Hin' & _).
  apply Hcf; assumption.
Qed.

Lemma resultTerms_ext_keys entries seq1 seq2 :
  (forall h, In h (keysOf entries) -> Add.findTerm seq1 h = Add.findTerm seq2 h) ->
  Add.resultTerms entries seq1 = Add.resultTerms entries seq2.
Proof.
  induction entries as [|[h v] rest IH]; intros Hf; [reflexivity|].
  rewrite !resultTerms_cons, (Hf h) by (left; reflexivity).
  rewrite IH by (intros h' Hh'; apply Hf; right; exact Hh'). reflexivity.
Qed.

Lemma keysOf_addPowers_iff B h : In h (keysOf (addPowers B [])) <-> In h (hashesOf B).
Proof.
  unfold keysOf. rewrite in_map_iff. split.
  - intros ([h' v] & <- & Hin). apply addPowers_In in Hin. apply Hin.
  - intros Hin. exists (h, total B h). split; [reflexivity|].
    apply addPowers_In. auto.
Qed.

(** Two operand lists that contribute the same constant and the same
    amounts under the same keys, and offer the same term for each key,
    flatten to the same result. *)
Lemma Add_flatten_ext r seq1 seq2 :
  Forall (interned r) seq1 ->
  numSums seq1 1 = numSums seq2 1 ->
  (forall h, In h (hashesOf (termLists seq1 1)) <-> In h (hashesOf (termLists seq2 1))) ->
  (forall h, total (termLists seq1 1) h = total (termLists seq2 1) h) ->
  (forall h, In h (hashesOf (termLists seq1 1)) ->
             Add.findTerm seq1 h = Add.findTerm seq2 h) ->
  Add.flatten seq1 = Add.flatten seq2.
Proof.
  intros Hi Hn Hh Ht Hf. rewrite !Add_flatten_spec, Hn. f_equal.
  apply (sort_perm_eq compareTo compareTo_antisym (interned r)).
  - apply compareTo_eq.
  - apply compareTo_lt_trans.
  - apply resultTerms_interned, Hi.
  - rewrite (resultTerms_ext_keys _ seq1 seq2)
      by (intros h Hk; apply Hf, keysOf_addPowers_iff, Hk).
    apply resultTerms_perm, addPowers_perm; assumption.
Qed.



(** *** The result terms for numbers and symbols *)



Lemma termLists_app l1 l2 k : termLists (l1 ++ l2) k = termLists l1 k ++ termLists l2 k.
Proof. unfold termLists. apply flat_map_app. Qed.

Lemma numSums_app l1 l2 k : numSums (l1 ++ l2) k = numSums l1 k + numSums l2 k.
Proof.
  unfold numSums. induction l1 as [|x l1 IH]; simpl; [reflexivity|].
  rewrite IH. lia.
Qed.



Lemma total_pos B h :
  Forall (fun entry => 0 < snd entry) B -> In h (hashesOf B) -> 0 < total B h.
Proof.
  induction 1 as [|[b k] B Hk HB IH]; [intros []|].
  cbn [hashesOf map total fst snd In] in *. intros [E|Hin].
  - rewrite E, Z.eqb_refl.
    destruct (in_dec Z.eq_dec h (hashesOf B)) as [Hin|Hin].
    + specialize (IH Hin). lia.
    + rewrite total_absent by exact Hin. lia.
  - specialize (IH Hin). destruct (hash b =? h); lia.
Qed.



(** *** What the result terms contribute when they are operands again *)





Lemma total_perm B1 B2 h : Permutation B1 B2 -> total B1 h = total B2 h.
Proof.
  induction 1 as [|[b k] l1 l2 _ IH|[b k] [b' k'] l|l1 l2 l3 _ IH12 _ IH23];
    cbn [total fst snd].
  - reflexivity.
  - rewrite IH. reflexivity.
  - destruct (hash b =? h); destruct (hash b' =? h); lia.
  - congruence.
Qed.

Lemma numSums_perm l1 l2 k : Permutation l1 l2 -> numSums l1 k = numSums l2 k.
Proof.
  unfold numSums.
  induction 1 as [|x l1 l2 _ IH|x y l|l1 l2 l3 _ IH12 _ IH23]; cbn [fold_right].
  - reflexivity.
  - rewrite IH. reflexivity.
  - lia.
  - congruence.
Qed.




(** *** The three shapes of the result of [Add.create] *)

Lemma Add_assemble_shape S c :
  (S = [] /\ Add_assemble {| fr_terms := S; fr_coeff := c |} = SymNumber c) \/
  (exists t, S = [t] /\ c = 0 /\ Add_assemble {| fr_terms := S; fr_coeff := c |} = t) \/
  (exists x y rest,
     (if negb (c =? 0) then [SymNumber c] else []) ++ S = x :: y :: rest /\
     Add_assemble {| fr_terms := S; fr_coeff := c |} = NewAdd (x :: y :: rest)).
Proof.
  unfold Add_assemble. cbn [fr_terms fr_coeff].
  destruct S as [|t [|t' others]]; [left; auto|..].
  - cbn [length Nat.eqb andb]. destruct (Z.eqb_spec c 0) as [->|Hc].
    + right. left. exists t. auto.
    + right. right. cbn [negb app]. eauto.
  - right. right. cbn [length Nat.eqb andb].
    destruct (c =? 0); cbn [negb app]; eauto.
Qed.



(** *** Idempotence on sums of numbers and symbols *)


(** *** A sum of numbers and symbols as an operand *)


Lemma numSum_number c : numSum (SymNumber c) 1 = c.
Proof.
  cbn [numSum type_of]. destruct (Z.eqb_spec c 0) as [->|H]; [reflexivity|].
  destruct (c =? 1); [cbn; lia|]. destruct (c =? -1); cbn; lia.
Qed.



(** *** Nesting of sums of numbers and symbols *)


(** ** Absorption and collection *)





(** ** Idempotence and nesting *)







(** ** The symbol registry *)

Lemma lookup_cons_ne name name' id m :
  name' <> name ->
  SymbolRegistry.lookup name ((name', id) :: m) = SymbolRegistry.lookup name m.
Proof.
  intros H. cbn [SymbolRegistry.lookup].
  destruct (String.eqb_spec name' name); [contradiction|reflexivity].
Qed.

Lemma lookup_cons_eq name id m :
  SymbolRegistry.lookup name ((name, id) :: m) = Some id.
Proof. cbn [SymbolRegistry.lookup]. rewrite String.eqb_refl. reflexivity. Qed.


Lemma registry_nextId_pos r : registry_reachable r -> 1 <= SymbolRegistry.nextId r.
Proof.
  induction 1 as [|r name _ IH]; [simpl; lia|].
  unfold SymbolRegistry.getId.
  destruct (SymbolRegistry.lookup name (SymbolRegistry.nameToId r));
    cbn [snd SymbolRegistry.nextId]; lia.
Qed.

Lemma registry_reachable_linked r : registry_reachable r -> registry_linked r.
Proof.
  induction 1 as [|r name Hr [Hlink Hrange]].
  - split; unfold registered; simpl; intros; [split|]; discriminate.
  - unfold SymbolRegistry.getId.
    destruct (SymbolRegistry.lookup name (SymbolRegistry.nameToId r)) eqn:Hl; cbn [snd].
    + split; assumption.
    + pose proof (registry_nextId_pos r Hr) as Hnext.
      unfold registered in Hlink, Hrange. split.
      * intros n i. unfold registered.
        cbn [SymbolRegistry.nameToId SymbolRegistry.idToName
             SymbolRegistry.lookup lookupName].
        destruct (String.eqb_spec name n) as [->|Hn];
          destruct (Z.eqb_spec (SymbolRegistry.nextId r) i) as [<-|Hi].
        -- split; reflexivity.
        -- split; intros E.
           ++ injection E as <-. contradiction.
           ++ apply Hlink in E. congruence.
        -- split; intros E.
           ++ apply Hrange in E. lia.
           ++ injection E as ->. contradiction.
        -- apply Hlink.
      * intros n i. unfold registered.
        cbn [SymbolRegistry.nameToId SymbolRegistry.nextId SymbolRegistry.lookup].
        destruct (String.eqb_spec name n) as [->|Hn].
        -- intros [= <-]. lia.
        -- intros E. apply Hrange in E. lia.
Qed.

Lemma getId_registers name r :
  registered (snd (SymbolRegistry.getId name r)) name (fst (SymbolRegistry.getId name r)).
Proof.
  unfold SymbolRegistry.getId, registered.
  destruct (SymbolRegistry.lookup name (SymbolRegistry.nameToId r)) eqn:E; cbn [fst snd].
  - exact E.
  - apply lookup_cons_eq.
Qed.

Lemma getId_keeps name r n i :
  registered r n i -> registered (snd (SymbolRegistry.getId name r)) n i.
Proof.
  unfold SymbolRegistry.getId, registered. intros H.
  destruct (SymbolRegistry.lookup name (SymbolRegistry.nameToId r)) eqn:E; cbn [snd].
  - exact H.
  - cbn [SymbolRegistry.nameToId]. rewrite lookup_cons_ne; [exact H|].
    intros ->. congruence.
Qed.

Lemma getId_again name r :
  SymbolRegistry.getId name (snd (SymbolRegistry.getId name r))
  = SymbolRegistry.getId name r.
Proof.
  pose proof (getId_registers name r) as H. unfold registered in H.
  unfold SymbolRegistry.getId at 1. rewrite H.
  destruct (SymbolRegistry.getId name r). reflexivity.
Qed.

(** X1: ids are stable.  A call of [getId] keeps the id of every name that
    was registered, and a second call with the same name returns the same
    id and leaves the registry as the first call left it. *)
Theorem getId_stable (name : string) (r : SymbolRegistry.t) :
  (forall n i, registered r n i ->
               registered (snd (SymbolRegistry.getId name r)) n i) /\
  SymbolRegistry.getId name (snd (SymbolRegistry.getId name r))
  = SymbolRegistry.getId name r.
Proof.
  split.
  - intros n i. apply getId_keeps.
  - apply getId_again.
Qed.

(** X2: in a registry filled by [getId] alone, the ids lie between 1 and
    [nextId - 1], two names share an id only when they are one name, and
    two calls of [getId] in a row return one id exactly when they are given
    one name. *)
Theorem getId_injective (r : SymbolRegistry.t) :
  registry_reachable r ->
  (forall n i, registered r n i -> 1 <= i < SymbolRegistry.nextId r) /\
  (forall n1 n2 i, registered r n1 i -> registered r n2 i -> n1 = n2) /\
  (forall n1 n2,
     fst (SymbolRegistry.getId n1 r)
     = fst (SymbolRegistry.getId n2 (snd (SymbolRegistry.getId n1 r)))
     <-> n1 = n2).
Proof.
  intros Hr. split; [|split].
  - apply (registry_reachable_linked r Hr).
  - apply (registry_reachable_inv r Hr).
  - intros n1 n2.
    pose proof (getId_registers n1 r) as H1.
    set (r1 := snd (SymbolRegistry.getId n1 r)) in *.
    pose proof (getId_registers n2 r1) as H2.
    assert (Hr1 : registry_reachable r1) by (apply reach_getId, Hr).
    assert (Hr2 : registry_reachable (snd (SymbolRegistry.getId n2 r1)))
      by (apply reach_getId, Hr1).
    split.
    + intros E. apply (getId_keeps n2 r1) in H1. rewrite E in H1.
      destruct (registry_reachable_inv _ Hr2) as [_ Hinj].
      apply (Hinj n1 n2 _ H1 H2).
    + intros <-. unfold r1.
      rewrite (getId_again n1 r). reflexivity.
Qed.

Lemma getId_injective_witness :
  fst (SymbolRegistry.getId "x" registry_xyz)
  = fst (SymbolRegistry.getId "y" (snd (SymbolRegistry.getId "x" registry_xyz)))
  <-> "x"%string = "y"%string.
Proof. apply (getId_injective registry_xyz registry_xyz_reachable). Defined.

(** X3: [getName] undoes [getId] for every name but the empty one, for
    which it returns the fallback [symbol_<id>]. *)
Theorem getName_getId (name : string) (r : SymbolRegistry.t) :
  registry_reachable r ->
  getName (fst (SymbolRegistry.getId name r)) (snd (SymbolRegistry.getId name r)) =
  if String.eqb name ""
  then ("symbol_" +:+ numberToString (fst (SymbolRegistry.getId name r)))%string
  else name.
Proof.
  intros Hr.
  pose proof (getId_registers name r) as H.
  destruct (registry_reachable_linked _ (reach_getId r name Hr)) as [Hlink _].
  apply Hlink in H. unfold getName. rewrite H. reflexivity.
Qed.

Lemma getName_getId_witness :
  getName (fst (SymbolRegistry.getId "y" registry_xyz))
          (snd (SymbolRegistry.getId "y" registry_xyz)) = "y"%string /\
  getName (fst (SymbolRegistry.getId "" registry_xyz))
          (snd (SymbolRegistry.getId "" registry_xyz)) = "symbol_4"%string.
Proof.
  split.
  - exact (getName_getId "y" registry_xyz registry_xyz_reachable).
  - exact (getName_getId "" registry_xyz registry_xyz_reachable).
Defined.


Lemma localeCompare_refl name : localeCompare name name = 0.
Proof.
  pose proof (localeCompare_antisym name name) as H. lia.
Qed.

(** X4: [clear] separates old symbols from new ones.  After [clear] a
    symbol created under a name has the id 1; a node of that name that
    carries another id has the same hash and compares as 0 with the new
    node, but [equals] returns false for the two. *)
Theorem clear_separates_symbols (name : string) (i : Z) (r : SymbolRegistry.t) :
  i <> 1 ->
  fst (SymSymbol name (SymbolRegistry.clear r)) = MkSymbol name 1 /\
  hash (MkSymbol name i) = hash (MkSymbol name 1) /\
  compareTo (MkSymbol name i) (MkSymbol name 1) = 0 /\
  equals (MkSymbol name i) (MkSymbol name 1) = false.
Proof.
  intros Hi. split; [reflexivity|]. split; [reflexivity|]. split.
  - cbn [compareTo type_of]. rewrite Z.sub_diag. cbn [Z.eqb negb].
    apply localeCompare_refl.
  - cbn [equals]. destruct (Z.eqb_spec i 1); [contradiction|].
    apply andb_false_r.
Qed.

Lemma clear_separates_symbols_witness :
  equals symbol_y (fst (SymSymbol "y" (SymbolRegistry.clear registry_xyz))) = false.
Proof.
  destruct (clear_separates_symbols "y" 2 registry_xyz ltac:(lia)) as (E & _ & _ & H).
  rewrite E. exact H.
Defined.


(** ** [NumericOps] *)

Lemma fold_left_add_acc (l : list Z) acc :
  fold_left (fun sum c => sum + c) l acc = acc + fold_right Z.add 0 l.
Proof.
  revert acc. induction l as [|x l IH]; intros acc; simpl; [lia|].
  rewrite IH. lia.
Qed.

(** X5: [addCoeffs] returns the sum of the coefficients, 0 for none, on
    each of its paths (none, one, two, up to ten, more than ten), when the
    coefficients and the sums that the loop accumulates from the left are
    integers that doubles hold exactly. *)
Theorem addCoeffs_sum (coeffs : list Z) :
  Forall exactInteger coeffs ->
  Forall exactInteger (accumulated Z.add 0 coeffs) ->
  NumericOps.addCoeffs coeffs = fold_right Z.add 0 coeffs.
Proof.
  intros _ _. unfold NumericOps.addCoeffs.
  destruct coeffs as [|a [|b [|c rest]]]; try (simpl; lia).
  destruct (10 <? _)%nat; rewrite fold_left_add_acc; reflexivity.
Qed.

Lemma addCoeffs_sum_witness :
  NumericOps.addCoeffs [9007199254740991; 1; -5] = 9007199254740987 /\
  NumericOps.addCoeffs [1; 2; 3; 4; 5; 6; 7; 8; 9; 10; 11; 12] = 78.
Proof.
  split.
  - apply (addCoeffs_sum [9007199254740991; 1; -5]);
      repeat (apply List.Forall_cons; [vm_compute; discriminate|]); apply List.Forall_nil.
  - apply (addCoeffs_sum [1; 2; 3; 4; 5; 6; 7; 8; 9; 10; 11; 12]);
      repeat (apply List.Forall_cons; [vm_compute; discriminate|]); apply List.Forall_nil.
Defined.

Lemma mulLoop_spec (l : list Z) result :
  NumericOps.mulLoop l result = result * fold_right Z.mul 1 l.
Proof.
  revert result. induction l as [|x l IH]; intros result; simpl; [lia|].
  destruct (Z.eqb_spec x 0) as [->|H0]; [lia|].
  destruct (Z.eqb_spec x 1) as [->|H1]; rewrite IH; lia.
Qed.

(** X6: [mulCoeffs] returns the product of the coefficients, 1 for none,
    when the coefficients and the products accumulated from the left are
    integers that doubles hold exactly; leaving at the first 0 and skipping
    the ones does not change it. *)
Theorem mulCoeffs_product (coeffs : list Z) :
  Forall exactInteger coeffs ->
  Forall exactInteger (accumulated Z.mul 1 coeffs) ->
  NumericOps.mulCoeffs coeffs = fold_right Z.mul 1 coeffs.
Proof.
  intros _ _. unfold NumericOps.mulCoeffs.
  destruct coeffs as [|a [|b [|c rest]]]; try (simpl; lia).
  rewrite mulLoop_spec. lia.
Qed.

Lemma mulCoeffs_product_witness :
  NumericOps.mulCoeffs [94906265; 94906265] = 9007199136250225 /\
  NumericOps.mulCoeffs [3; 1; -4; 5] = -60 /\
  NumericOps.mulCoeffs [3; 0; 7] = 0.
Proof.
  split; [|split].
  - apply (mulCoeffs_product [94906265; 94906265]);
      repeat (apply List.Forall_cons; [vm_compute; discriminate|]); apply List.Forall_nil.
  - apply (mulCoeffs_product [3; 1; -4; 5]);
      repeat (apply List.Forall_cons; [vm_compute; discriminate|]); apply List.Forall_nil.
  - apply (mulCoeffs_product [3; 0; 7]);
      repeat (apply List.Forall_cons; [vm_compute; discriminate|]); apply List.Forall_nil.
Defined.

Lemma gcdLoop_spec fuel : forall a b,
  0 <= a -> 0 <= b -> (Z.to_nat b < fuel)%nat ->
  NumericOps.gcdLoop fuel a b = Some (Z.gcd a b).
Proof.
  induction fuel as [|fuel IH]; intros a b Ha Hb Hfuel; [lia|].
  cbn [NumericOps.gcdLoop]. destruct (Z.eqb_spec b 0) as [->|Hne].
  - rewrite Z.gcd_0_r, Z.abs_eq by exact Ha. reflexivity.
  - assert (Hrem : 0 <= Z.rem a b < b).
    { rewrite Z.rem_mod_nonneg by lia. apply Z.mod_pos_bound. lia. }
    rewrite IH by lia. f_equal.
    rewrite Z.rem_mod_nonneg by lia.
    rewrite (Z.gcd_comm b), Z.gcd_mod by lia. apply Z.gcd_comm.
Qed.

Lemma gcd_spec fuel a b :
  (Z.abs_nat b < fuel)%nat -> NumericOps.gcd fuel a b = Some (Z.gcd a b).
Proof.
  intros Hfuel. unfold NumericOps.gcd.
  rewrite gcdLoop_spec by lia.
  rewrite Z.gcd_abs_l, Z.gcd_abs_r. reflexivity.
Qed.

(** X7: with more rounds than the absolute value of [b], the loop of
    [gcd] ends, and [gcd(a, b)] is the greatest common divisor of [a] and
    [b], which is not negative; [gcd(0, 0)] is 0. *)
Theorem gcd_correct (fuel : nat) (a b : Z) :
  (Z.abs_nat b < fuel)%nat ->
  NumericOps.gcd fuel a b = Some (Z.gcd a b).
Proof. apply gcd_spec. Qed.

Lemma gcd_correct_witness :
  NumericOps.gcd 19 (-12) 18 = Some (Z.gcd (-12) 18) /\ Z.gcd (-12) 18 = 6.
Proof. split; [apply gcd_correct; simpl; lia|reflexivity]. Defined.

Lemma gcdArrayLoop_spec fuel rest : forall result,
  0 <= result ->
  Forall (fun x => (Z.abs_nat x < fuel)%nat) rest ->
  NumericOps.gcdArrayLoop fuel rest result =
  Some (if result =? 0 then 0 else Z.gcd result (fold_right Z.gcd 0 rest)).
Proof.
  induction rest as [|x rest IH]; intros result Hres Hfuel; cbn [NumericOps.gcdArrayLoop].
  - cbn [fold_right]. rewrite Z.gcd_0_r, Z.abs_eq by exact Hres.
    destruct (result =? 0) eqn:E; [apply Z.eqb_eq in E; subst|]; reflexivity.
  - inversion Hfuel as [|? ? Hx Hrest]; subst.
    destruct (Z.ltb_spec 1 result) as [Hgt|Hle].
    + rewrite gcd_spec by exact Hx.
      rewrite IH by (try apply Z.gcd_nonneg; assumption).
      destruct (Z.eqb_spec result 0) as [->|_]; [lia|].
      destruct (Z.eqb_spec (Z.gcd result x) 0) as [E|_].
      * apply Z.gcd_eq_0_l in E. lia.
      * cbn [fold_right]. rewrite Z.gcd_assoc. reflexivity.
    + destruct (Z.eqb_spec result 0) as [->|Hne]; [reflexivity|].
      assert (result = 1) as -> by lia.
      rewrite Z.gcd_1_l. reflexivity.
Qed.

(** X8: [gcdArray] returns 1 for no number and, with enough rounds for
    each call of [gcd], the greatest common divisor of the numbers when the
    first one is not 0.  When the first number is 0 it returns 0, whatever
    the other numbers are. *)
Theorem gcdArray_spec (fuel : nat) (nums : list Z) :
  Forall (fun x => (Z.abs_nat x < fuel)%nat) nums ->
  NumericOps.gcdArray fuel nums =
  Some (match nums with
        | [] => 1
        | x :: _ => if x =? 0 then 0 else fold_right Z.gcd 0 nums
        end).
Proof.
  intros Hfuel. destruct nums as [|x [|y rest]]; cbn [NumericOps.gcdArray].
  - reflexivity.
  - cbn [fold_right]. rewrite Z.gcd_0_r.
    destruct (Z.eqb_spec x 0) as [->|_]; reflexivity.
  - inversion Hfuel as [|? ? _ Hrest]; subst.
    rewrite gcdArrayLoop_spec by (try apply Z.abs_nonneg; assumption).
    destruct (Z.eqb_spec x 0) as [->|Hx].
    + reflexivity.
    + destruct (Z.eqb_spec (Z.abs x) 0) as [E|_]; [lia|].
      rewrite Z.gcd_abs_l. reflexivity.
Qed.

Lemma gcdArray_spec_witness :
  NumericOps.gcdArray 20 [12; -18; 8] = Some 2 /\
  NumericOps.gcdArray 20 [0; 6] = Some 0.
Proof.
  split.
  - apply (gcdArray_spec 20 [12; -18; 8]). repeat constructor; simpl; lia.
  - apply (gcdArray_spec 20 [0; 6]). repeat constructor; simpl; lia.
Defined.


(** ** Hashes, equality and order *)

Lemma ushr0_range x : 0 <= ushr0 x < 2 ^ 32.
Proof. unfold ushr0, ToUint32. apply Z.mod_pos_bound. reflexivity. Qed.

(** Every hash ([fastHash], [combineHashes], and the [hash] field of
    every node) is an unsigned 32-bit integer. *)
Theorem hash_range :
  (forall data, 0 <= fastHash data < 2 ^ 32) /\
  (forall hashes, 0 <= combineHashes hashes < 2 ^ 32) /\
  (forall e, 0 <= hash e < 2 ^ 32).
Proof.
  split; [|split].
  - intros data. apply ushr0_range.
  - intros hashes. apply ushr0_range.
  - intros e. unfold hash. destruct e as [v|n i|l|l|b x]; try apply ushr0_range;
      fold hash; unfold computeHash; destruct (map hash l); apply ushr0_range.
Qed.

Lemma type_eqb_sym s t : type_eqb s t = type_eqb t s.
Proof. unfold type_eqb. apply Z.eqb_sym. Qed.

Lemma equalsArgs_sym (l : list Expression) :
  Forall (fun a => forall b, equals a b = equals b a) l ->
  forall l', equalsArgs equals l l' = equalsArgs equals l' l.
Proof.
  induction 1 as [|x l Hx _ IH]; intros [|y l']; try reflexivity.
  cbn [equalsArgs]. rewrite Hx, IH. reflexivity.
Qed.

Lemma equals_sym a : forall b, equals a b = equals b a.
Proof.
  induction a as [v|n i|l IH|l IH|b1 x1 IHb IHx] using Expression_nested_ind;
    intros [w|m j|l'|l'|b2 x2]; cbn [equals];
    rewrite (Z.eqb_sym (hash _) (hash _)), (type_eqb_sym (type_of _) (type_of _));
    try reflexivity.
  - rewrite (Z.eqb_sym v w). reflexivity.
  - rewrite (Z.eqb_sym i j). reflexivity.
  - rewrite (Nat.eqb_sym (length l) (length l')), (equalsArgs_sym l IH). reflexivity.
  - rewrite (Nat.eqb_sym (length l) (length l')), (equalsArgs_sym l IH). reflexivity.
  - rewrite IHb, IHx. reflexivity.
Qed.

(** X9: [equals] is reflexive and symmetric on the nodes whose numbers
    are integers that doubles hold exactly. *)
Theorem equals_reflexive_symmetric :
  (forall a, exactNumbers a -> equals a a = true) /\
  (forall a b, exactNumbers a -> exactNumbers b -> equals a b = equals b a).
Proof. split; [intros a _; apply equals_refl|intros a b _ _; apply equals_sym]. Qed.

Lemma equals_reflexive_symmetric_witness :
  let a := Add.create [symbol_x; SymNumber 2] in
  let b := Mul.create [SymNumber 3; symbol_y] in
  equals a a = true /\ equals a b = equals b a.
Proof.
  intros a b. destruct equals_reflexive_symmetric as [Hr Hs].
  split; [apply Hr|apply Hs]; vm_compute; intuition discriminate.
Defined.

(** X10: on nodes whose numbers are integers that doubles hold exactly
    and whose symbols have names of lower-case letters, swapping the
    operands of [compareTo] negates the result, so the comparator that
    [Add.flatten] and [Mul.flatten] hand to [sort] is consistent. *)
Theorem compareTo_antisymmetric (a b : Expression) :
  exactNumbers a -> exactNumbers b -> lowerCaseNames a -> lowerCaseNames b ->
  compareTo b a = - compareTo a b.
Proof. intros _ _ _ _. apply compareTo_antisym. Qed.

Lemma compareTo_antisymmetric_witness :
  let a := Add.create [symbol_x; SymNumber 2] in
  let b := Mul.create [SymNumber 3; symbol_y] in
  compareTo b a = - compareTo a b /\
  compareTo symbol_y symbol_x = - compareTo symbol_x symbol_y.
Proof.
  intros a b.
  split; apply compareTo_antisymmetric; vm_compute; intuition discriminate.
Defined.

(** X11: on nodes whose symbols were interned in one registry filled by
    [getId] alone and have names of lower-case letters, and whose numbers
    are integers that doubles hold exactly, [compareTo] returns 0 exactly
    when [equals] holds. *)
Theorem compareTo_zero_iff_equals (r : SymbolRegistry.t) (a b : Expression) :
  registry_reachable r -> interned r a -> interned r b ->
  exactNumbers a -> exactNumbers b -> lowerCaseNames a -> lowerCaseNames b ->
  (compareTo a b = 0 <-> equals a b = true).
Proof.
  intros Hr Ha Hb _ _ _ _. split; intros H.
  - rewrite (compareTo_eq r a b Ha Hb H). apply equals_refl.
  - rewrite <- (equals_eq r a b Hr Ha Hb H).
    pose proof (compareTo_antisym a a). lia.
Qed.

Lemma compareTo_zero_iff_equals_witness :
  let a := Add.create [symbol_x; SymNumber 2] in
  let b := Mul.create [SymNumber 3; symbol_y] in
  (compareTo a b = 0 <-> equals a b = true) /\
  (compareTo a a = 0 <-> equals a a = true).
Proof.
  intros a b. split.
  - apply (compareTo_zero_iff_equals registry_xyz a b registry_xyz_reachable);
      vm_compute; intuition discriminate.
  - apply (compareTo_zero_iff_equals registry_xyz a a registry_xyz_reachable);
      vm_compute; intuition discriminate.
Defined.

(** X12: on nodes whose symbols were interned in one registry and have
    names of lower-case letters, and whose numbers are integers that
    doubles hold exactly, "compares below" is transitive. *)
Theorem compareTo_transitive (r : SymbolRegistry.t) (a b c : Expression) :
  interned r a -> interned r b -> interned r c ->
  exactNumbers a -> exactNumbers b -> exactNumbers c ->
  lowerCaseNames a -> lowerCaseNames b -> lowerCaseNames c ->
  compareTo a b < 0 -> compareTo b c < 0 -> compareTo a c < 0.
Proof. intros Ia Ib Ic _ _ _ _ _ _. apply (compareTo_lt_trans r); assumption. Qed.

Lemma compareTo_transitive_witness :
  compareTo (SymNumber 2) (Pow.create symbol_y (SymNumber 2)) < 0.
Proof.
  apply (compareTo_transitive registry_xyz (SymNumber 2) symbol_x
           (Pow.create symbol_y (SymNumber 2)));
    vm_compute; intuition discriminate.
Defined.



(** ** Numbers as operands *)

Lemma numFactor_number v : numFactor (SymNumber v) 1 = v.
Proof.
  destruct (Z.eq_dec v 0) as [->|H]; [reflexivity|].
  apply (coeff_events v H).
Qed.

Lemma numbers_contribute vs :
  numSums (map SymNumber vs) 1 = fold_right Z.add 0 vs /\
  termLists (map SymNumber vs) 1 = [] /\
  numFactors (map SymNumber vs) 1 = fold_right Z.mul 1 vs /\
  baseLists (map SymNumber vs) 1 = [] /\
  factorLists (map SymNumber vs) 1 = [].
Proof.
  induction vs as [|v vs (IH1 & IH2 & IH3 & IH4 & IH5)]; [repeat split|].
  unfold numSums, termLists, numFactors, baseLists, factorLists in *.
  cbn [map fold_right flat_map]. rewrite IH1, IH2, IH3, IH4, IH5.
  rewrite numSum_number, numFactor_number. repeat split.
Qed.

Lemma numbers_create vs :
  Add.create (map SymNumber vs) = SymNumber (fold_right Z.add 0 vs) /\
  Mul.create (map SymNumber vs) = SymNumber (fold_right Z.mul 1 vs).
Proof.
  destruct (numbers_contribute vs) as (H1 & H2 & H3 & H4 & H5).
  destruct vs as [|u [|v vs]].
  - split; reflexivity.
  - split; cbn [map fold_right Add.create Mul.create]; f_equal; lia.
  - split.
    + cbn [map] in *. rewrite Add_create_assemble, Add_flatten_spec, H1, H2.
      reflexivity.
    + cbn [map] in *. rewrite Mul_create_assemble.
      destruct (Z.eq_dec (numFactors (SymNumber u :: SymNumber v :: map SymNumber vs) 1) 0)
        as [E|E].
      * rewrite Mul_assemble_zero by (apply Mul_flatten_zero, E).
        rewrite <- H3, E. reflexivity.
      * rewrite Mul_flatten_spec by exact E. rewrite H3, H4, H5 in *.
        unfold Mul_assemble. cbn [mf_coeff mf_factors mf_powers].
        destruct (Z.eqb_spec (fold_right Z.mul 1 (u :: v :: vs)) 0); [contradiction|].
        reflexivity.
Qed.

Lemma numbers_pair u v :
  Add.create [SymNumber u; SymNumber v] = SymNumber (u + (v + 0)) /\
  Mul.create [SymNumber u; SymNumber v] = SymNumber (u * (v * 1)).
Proof. apply (numbers_create [u; v]). Qed.

(** X13: on number nodes alone, for any count of operands, [Add.create]
    returns the number node of their sum and [Mul.create] the number node
    of their product, when the numbers and the sums, or the products, that
    the loop accumulates from the left are integers that doubles hold
    exactly. *)
Theorem create_folds_numbers (vs : list Z) :
  Forall exactInteger vs ->
  (Forall exactInteger (accumulated Z.add 0 vs) ->
   Add.create (map SymNumber vs) = SymNumber (fold_left Z.add vs 0)) /\
  (Forall exactInteger (accumulated Z.mul 1 vs) ->
   Mul.create (map SymNumber vs) = SymNumber (fold_left Z.mul vs 1)).
Proof.
  intros _. destruct (numbers_create vs) as [HA HM]. split; intros _.
  - rewrite HA. f_equal. symmetry. apply fold_symmetric; intros; lia.
  - rewrite HM. f_equal. symmetry. apply fold_symmetric; intros; lia.
Qed.

Lemma create_folds_numbers_witness :
  Add.create (map SymNumber [5; -7; 0; 4]) = SymNumber 2 /\
  Mul.create (map SymNumber [5; -7; 1; 4]) = SymNumber (-140).
Proof.
  split.
  - apply (create_folds_numbers [5; -7; 0; 4]);
      repeat (apply List.Forall_cons; [vm_compute; discriminate|]); apply List.Forall_nil.
  - apply (create_folds_numbers [5; -7; 1; 4]);
      repeat (apply List.Forall_cons; [vm_compute; discriminate|]); apply List.Forall_nil.
Defined.

Lemma numFactors_In_zero ops : In ZERO ops -> numFactors ops 1 = 0.
Proof.
  unfold numFactors. induction ops as [|x ops IH]; [intros []|].
  cbn [fold_right]. intros [->|Hin].
  - reflexivity.
  - rewrite (IH Hin). lia.
Qed.

(** X14: a Zero operand in any position makes [Mul.create] return the
    Zero singleton, for any count of operands. *)
Theorem Mul_create_annihilated (ops : list Expression) :
  In ZERO ops -> Mul.create ops = ZERO.
Proof.
  intros Hin. destruct ops as [|a [|b rest]].
  - destruct Hin.
  - destruct Hin as [->|[]]. reflexivity.
  - rewrite Mul_create_assemble. apply Mul_assemble_zero, Mul_flatten_zero.
    apply numFactors_In_zero, Hin.
Qed.

Lemma Mul_create_annihilated_witness :
  Mul.create [symbol_x; Pow.create symbol_y (SymNumber 2); ZERO; symbol_z] = ZERO.
Proof. apply Mul_create_annihilated. simpl. auto. Defined.

Lemma numFactors_app l1 l2 k : numFactors (l1 ++ l2) k = numFactors l1 k * numFactors l2 k.
Proof.
  unfold numFactors. induction l1 as [|x l1 IH]; cbn [app fold_right]; [lia|].
  rewrite IH. lia.
Qed.

Lemma baseLists_app l1 l2 k : baseLists (l1 ++ l2) k = baseLists l1 k ++ baseLists l2 k.
Proof. unfold baseLists. apply flat_map_app. Qed.

Lemma factorLists_app l1 l2 k :
  factorLists (l1 ++ l2) k = factorLists l1 k ++ factorLists l2 k.
Proof. unfold factorLists. apply flat_map_app. Qed.

(** X15: among two or more other operands, a One operand in any position
    is dropped by [Mul.create]. *)
Theorem Mul_create_one_dropped (l1 l2 : list Expression) :
  (2 <= length (l1 ++ l2))%nat ->
  Mul.create (l1 ++ ONE :: l2) = Mul.create (l1 ++ l2).
Proof.
  intros Hlen.
  assert (Hlen' : (2 <= length (l1 ++ ONE :: l2))%nat).
  { rewrite length_app in *. cbn [length]. lia. }
  rewrite !Mul_create_eq_assemble by assumption.
  assert (Hn : numFactors (l1 ++ ONE :: l2) 1 = numFactors (l1 ++ l2) 1).
  { change (ONE :: l2) with ([ONE] ++ l2). rewrite !numFactors_app.
    change (numFactors [ONE] 1) with 1. lia. }
  destruct (Z.eq_dec (numFactors (l1 ++ l2) 1) 0) as [E|E].
  - rewrite !Mul_assemble_zero; [reflexivity| |]; apply Mul_flatten_zero; congruence.
  - rewrite !Mul_flatten_spec by congruence. rewrite Hn.
    change (ONE :: l2) with ([ONE] ++ l2).
    rewrite !baseLists_app, !factorLists_app. reflexivity.
Qed.

Lemma Mul_create_one_dropped_witness :
  Mul.create ([symbol_x] ++ ONE :: [symbol_y]) = Mul.create ([symbol_x] ++ [symbol_y]).
Proof. apply Mul_create_one_dropped. simpl. lia. Defined.

Lemma findTerm_app l1 l2 h :
  Add.findTerm (l1 ++ l2) h =
  match Add.findTerm l1 h with
  | Some t => Some t
  | None => Add.findTerm l2 h
  end.
Proof.
  induction l1 as [|x l1 IH]; cbn [app Add.findTerm]; [reflexivity|].
  destruct (Add.candidate x h); [reflexivity|exact IH].
Qed.

(** X16: among two or more other operands, a Zero operand in any position
    is dropped by [Add.create], provided no term that the other operands
    record has the hash of the Zero singleton. *)
Theorem Add_create_zero_dropped (l1 l2 : list Expression) :
  (2 <= length (l1 ++ l2))%nat ->
  ~ In (hash ZERO) (hashesOf (termLists (l1 ++ l2) 1)) ->
  Add.create (l1 ++ ZERO :: l2) = Add.create (l1 ++ l2).
Proof.
  intros Hlen Hfree.
  assert (Hshape : forall l, (2 <= length l)%nat ->
            Add.create l = Add_assemble (Add.flatten l)).
  { intros [|a [|b l]] H; cbn [length] in H; try lia. apply Add_create_assemble. }
  rewrite !Hshape by (rewrite ?length_app in *; cbn [length]; lia).
  rewrite !Add_flatten_spec.
  change (ZERO :: l2) with ([ZERO] ++ l2).
  rewrite !termLists_app, !numSums_app.
  change (termLists [ZERO] 1) with (@nil (Expression * Z)).
  change (numSums [ZERO] 1) with 0. cbn [app]. rewrite Z.add_0_l.
  rewrite <- termLists_app, <- numSums_app.
  rewrite (resultTerms_ext_keys _ (l1 ++ [ZERO] ++ l2) (l1 ++ l2)); [reflexivity|].
  intros h Hk. apply keysOf_addPowers_iff in Hk.
  rewrite !findTerm_app. destruct (Add.findTerm l1 h); [reflexivity|].
  cbn [Add.findTerm Add.candidate type_of ZERO Z.eqb].
  destruct (Z.eqb_spec (hash ZERO) h) as [E|_]; [|reflexivity].
  exfalso. apply Hfree. rewrite <- E in Hk. exact Hk.
Qed.

Lemma Add_create_zero_dropped_witness :
  Add.create ([symbol_x] ++ ZERO :: [Mul.create [SymNumber 2; symbol_y]; symbol_x])
  = Add.create ([symbol_x] ++ [Mul.create [SymNumber 2; symbol_y]; symbol_x]).
Proof. apply Add_create_zero_dropped; [simpl; lia|]. vm_compute. intuition discriminate. Defined.

(** ** Evaluation *)

(** X17: [evaluateNumerical] never reaches its last [throw].  It throws
    exactly when the expression has a symbol whose name is neither a key of
    the record nor the name of a property of [Object.prototype], and the
    error is then the one of such a symbol. *)
Theorem evaluateNumerical_total (e : Expression) (s : gmap string Z) :
  (forall err, evaluateNumerical e s = Throws err ->
     exists name, err = UnboundSymbol name /\ name ∈ getSymbols e /\
                  s !! name = None /\ inherited name = false) /\
  ((exists err, evaluateNumerical e s = Throws err) <->
   exists name, name ∈ getSymbols e /\ s !! name = None /\ inherited name = false).
Proof.
  split; [apply evaluateNumerical_throws_unbound|]. split.
  - intros [err H].
    apply evaluateNumerical_throws_unbound in H as (name & _ & ? & ? & ?). eauto.
  - intros (name & Hn & Hs & Hi). eapply evaluateNumerical_unbound_throws; eassumption.
Qed.

Lemma otherLoop_ext (f g : Expression -> EvalResult) (args : list Expression) :
  Forall (fun a => f a = g a) args -> otherLoop f args = otherLoop g args.
Proof.
  induction 1 as [|a args Ha _ IH]; cbn [otherLoop]; [reflexivity|].
  rewrite Ha. destruct (g a); [apply IH|apply IH|reflexivity].
Qed.

Lemma evalLoop_ext (f g : Expression -> EvalResult) op (args : list Expression) :
  Forall (fun a => f a = g a) args ->
  forall acc, evalLoop f op args acc = evalLoop g op args acc.
Proof.
  induction 1 as [|a args Ha Hargs IH]; intros acc; cbn [evalLoop]; [reflexivity|].
  rewrite Ha. destruct (g a); [apply IH|apply otherLoop_ext, Hargs|reflexivity].
Qed.

(** X18: the result of [evaluateNumerical] depends on the substitutions of
    the symbols of the expression only. *)
Theorem evaluateNumerical_coincidence (e : Expression) (s s' : gmap string Z) :
  (forall name, name ∈ getSymbols e -> s !! name = s' !! name) ->
  evaluateNumerical e s = evaluateNumerical e s'.
Proof.
  induction e as [v|n i|l IH|l IH|b x IHb IHx] using Expression_nested_ind;
    cbn [evaluateNumerical getSymbols]; intros H.
  - reflexivity.
  - rewrite (H n) by set_solver. reflexivity.
  - apply evalLoop_ext. rewrite List.Forall_forall in *. intros a Ha.
    apply IH; [exact Ha|]. intros name Hn. apply H, getSymbols_args. eauto.
  - apply evalLoop_ext. rewrite List.Forall_forall in *. intros a Ha.
    apply IH; [exact Ha|]. intros name Hn. apply H, getSymbols_args. eauto.
  - rewrite IHb, IHx by (intros name Hn; apply H; set_solver). reflexivity.
Qed.

Lemma evaluateNumerical_coincidence_witness :
  evaluateNumerical (Add.create [symbol_x; SymNumber 1]) {[ "x"%string := 3 ]}
  = evaluateNumerical (Add.create [symbol_x; SymNumber 1])
      (<[ "y"%string := 5 ]> {[ "x"%string := 3 ]}).
Proof.
  apply evaluateNumerical_coincidence. intros name Hn.
  assert (E : Add.create [symbol_x; SymNumber 1]
              = NewAdd [SymNumber 1; MkSymbol "x" 1]) by (vm_compute; reflexivity).
  rewrite E in Hn. cbn [getSymbols] in Hn.
  apply getSymbols_args in Hn as (a & [<-|[<-|[]]] & Hn); cbn [getSymbols] in Hn.
  { apply elem_of_empty in Hn. destruct Hn. }
  apply elem_of_singleton in Hn. subst name.
  reflexivity.
Defined.



(** ** What the [create] routines keep *)

Section Closure.

Variable Q : Expression -> Prop.
Hypothesis Q_number : forall v, Q (SymNumber v).
Hypothesis Q_args : forall e, Q e -> Forall Q (args_of e).
Hypothesis Q_Add : forall l, (2 <= length l)%nat -> Forall Q l -> Q (NewAdd l).
Hypothesis Q_Mul : forall l, (2 <= length l)%nat -> Forall Q l -> Q (NewMul l).
Hypothesis Q_Pow : forall b x, Q b -> Q x -> Q (NewPow b x).
Hypothesis Q_tail : forall f rest,
  Q (NewMul (f :: rest)) -> Q (match rest with [t] => t | _ => NewMul rest end).

Lemma Pow_create_closed b x : Q b -> Q x -> Q (Pow.create b x).
Proof.
  intros Hb Hx. unfold Pow.create.
  repeat (match goal with |- context [if ?c then _ else _] => destruct c end);
    auto; apply Q_number.
Qed.

Lemma baseList_closed e : forall k p, Q e -> In p (baseList e k) -> Q (fst p).
Proof.
  induction e as [v|n i|l IH|l IH|b x IHb IHx] using Expression_nested_ind;
    intros k p He; cbn [baseList].
  - intros [].
  - intros [<-|[]]. exact He.
  - intros [<-|[]]. exact He.
  - rewrite in_flat_map. intros (e & Hin & Hp).
    apply Q_args in He. cbn [args_of] in He.
    rewrite List.Forall_forall in IH, He. eapply IH; eauto.
  - apply Q_args in He. cbn [args_of] in He. inversion He as [|? ? Hb _]; subst.
    destruct (isNumericType (type_of x)); [apply IHb; exact Hb|intros []].
Qed.

Lemma factorList_closed e : forall k f, Q e -> In f (factorList e k) -> Q f.
Proof.
  induction e as [v|n i|l IH|l IH|b x IHb IHx] using Expression_nested_ind;
    intros k f He; cbn [factorList]; try (intros []).
  - rewrite in_flat_map. intros (e & Hin & Hp).
    apply Q_args in He. cbn [args_of] in He.
    rewrite List.Forall_forall in IH, He. eapply IH; eauto.
  - destruct (isNumericType (type_of x)).
    + apply Q_args in He. cbn [args_of] in He. inversion He as [|? ? Hb _]; subst.
      apply IHb; exact Hb.
    + intros [<-|[]]. exact He.
Qed.

Lemma Mul_finalArgs_closed fl :
  Forall (fun p => Q (pp_base p)) (mf_powers fl) ->
  Forall Q (mf_factors fl) ->
  Forall Q (Mul_finalArgs fl).
Proof.
  intros HS HF. unfold Mul_finalArgs. repeat apply Forall_app_2.
  - destruct (negb (mf_coeff fl =? 1)); repeat constructor. apply Q_number.
  - apply List.Forall_forall. intros x Hx. apply in_map_iff in Hx as (p & <- & Hp).
    rewrite List.Forall_forall in HS. unfold Mul.powerArg.
    destruct (pp_exp p =? 1); [apply HS, Hp|].
    apply Pow_create_closed; [apply HS, Hp|apply Q_number].
  - exact HF.
Qed.

Lemma Mul_assemble_closed fl :
  Forall (fun p => Q (pp_base p)) (mf_powers fl) ->
  Forall Q (mf_factors fl) ->
  Q (Mul_assemble fl).
Proof.
  intros HS HF. pose proof (Mul_finalArgs_closed fl HS HF) as H.
  unfold Mul_assemble.
  destruct (mf_coeff fl =? 0); [apply Q_number|].
  destruct (_ && _); [apply Q_number|].
  fold (Mul_finalArgs fl). destruct (Mul_finalArgs fl) as [|a [|b rest]].
  - apply Q_number.
  - inversion H; assumption.
  - apply Q_Mul; [cbn [length]; lia|exact H].
Qed.

Lemma Mul_create_closed args : Forall Q args -> Q (Mul.create args).
Proof.
  intros H. destruct args as [|a [|b rest]].
  - apply Q_number.
  - inversion H; assumption.
  - rewrite Mul_create_assemble.
    destruct (Z.eq_dec (numFactors (a :: b :: rest) 1) 0) as [E|E].
    + rewrite Mul_assemble_zero by (apply Mul_flatten_zero; exact E). apply Q_number.
    + rewrite Mul_flatten_spec by exact E.
      apply Mul_assemble_closed; cbn [mf_powers mf_factors].
      * apply sort_Forall. apply List.Forall_forall. intros p Hp.
        apply pairsOf_In in Hp as (_ & _ & Hl). apply lastBase_hash in Hl as [_ Hin].
        apply in_map_iff in Hin as (q & Hq1 & Hq). rewrite <- Hq1.
        unfold baseLists in Hq. apply in_flat_map in Hq as (e & He & Hq).
        rewrite List.Forall_forall in H.
        apply (baseList_closed e 1 q); [apply H, He|exact Hq].
      * apply sort_Forall. apply List.Forall_forall. intros f Hf.
        unfold factorLists in Hf. apply in_flat_map in Hf as (e & He & Hf).
        rewrite List.Forall_forall in H.
        apply (factorList_closed e 1 f); [apply H, He|exact Hf].
Qed.

Lemma Add_candidates_closed seq : Forall Q seq -> Forall Q (Add_candidates seq).
Proof.
  intros H. apply List.Forall_forall. intros t Ht.
  unfold Add_candidates in Ht. apply in_flat_map in Ht as (e & He & Ht).
  rewrite List.Forall_forall in H. specialize (H e He).
  destruct e as [v|n i|l|l|b x]; cbn [type_of args_of] in Ht.
  - assert (Hin : In t [SymNumber v]) by (repeat destruct (_ =? _); exact Ht).
    destruct Hin as [<-|[]]. exact H.
  - destruct Ht as [<-|[]]. exact H.
  - apply Q_args in H. cbn [args_of] in H. rewrite List.Forall_forall in H. apply H, Ht.
  - destruct Ht as [<-|[]]. unfold Add.extractCoeffTerm. cbn [type_of isNumericType].
    destruct l as [|f rest]; [exact H|].
    destruct (isNumericType (type_of f)); [|exact H]. cbn [snd].
    apply (Q_tail f rest H).
  - destruct Ht as [<-|[]]. exact H.
Qed.

Lemma resultTerms_closed entries seq :
  Forall Q seq -> Forall Q (Add.resultTerms entries seq).
Proof.
  intros H. induction entries as [|[h v] rest IH]; [constructor|].
  rewrite resultTerms_cons. destruct (v =? 0); [exact IH|].
  destruct (Add.findTerm seq h) as [t|] eqn:E; [|exact IH].
  constructor; [|exact IH].
  apply (findTerm_Some SymbolRegistry.initial) in E as (_ & Hin & _).
  pose proof (Add_candidates_closed seq H) as HC. rewrite List.Forall_forall in HC.
  unfold rebuild. destruct (v =? 1); [apply HC, Hin|].
  apply Mul_create_closed. repeat constructor; [apply Q_number|apply HC, Hin].
Qed.

Lemma Add_create_closed args : Forall Q args -> Q (Add.create args).
Proof.
  intros H. destruct args as [|a [|b rest]].
  - apply Q_number.
  - inversion H; assumption.
  - rewrite Add_create_assemble, Add_flatten_spec.
    set (S := sort compareTo _).
    assert (HS : Forall Q S) by (apply sort_Forall, resultTerms_closed, H).
    destruct (Add_assemble_shape S (numSums (a :: b :: rest) 1))
      as [[_ E]|[(t & Et & _ & E)|(x & y & l & El & E)]]; rewrite E.
    + apply Q_number.
    + rewrite Et in HS. inversion HS; assumption.
    + apply Q_Add; [cbn [length]; lia|]. rewrite <- El. apply Forall_app. split; [|exact HS].
      destruct (negb _); repeat constructor. apply Q_number.
Qed.

End Closure.

(** *** No new symbols *)

Lemma getSymbols_list_subseteq (l : list Expression) (S : gset string) :
  ⋃ (map getSymbols l) ⊆ S <-> Forall (fun e => getSymbols e ⊆ S) l.
Proof.
  rewrite List.Forall_forall. split.
  - intros H e He name Hn. apply H, getSymbols_args. eauto.
  - intros H name Hn. apply getSymbols_args in Hn as (e & He & Hn).
    exact (H e He name Hn).
Qed.

Lemma symbols_args (S : gset string) e :
  getSymbols e ⊆ S -> Forall (fun a => getSymbols a ⊆ S) (args_of e).
Proof.
  destruct e as [v|n i|l|l|b x]; cbn [getSymbols args_of]; intros H.
  - constructor.
  - constructor.
  - apply getSymbols_list_subseteq, H.
  - apply getSymbols_list_subseteq, H.
  - repeat constructor; set_solver.
Qed.

Lemma symbols_tail (S : gset string) f rest :
  getSymbols (NewMul (f :: rest)) ⊆ S ->
  getSymbols (match rest with [t] => t | _ => NewMul rest end) ⊆ S.
Proof.
  intros H. apply symbols_args in H. cbn [args_of] in H.
  inversion H as [|? ? _ Hrest]; subst.
  destruct rest as [|t [|t' rest]].
  - cbn [getSymbols map]. set_solver.
  - inversion Hrest; assumption.
  - cbn [getSymbols]. apply getSymbols_list_subseteq, Hrest.
Qed.

Lemma symbols_self (l : list Expression) :
  Forall (fun e => getSymbols e ⊆ ⋃ (map getSymbols l)) l.
Proof. apply getSymbols_list_subseteq. reflexivity. Qed.

Lemma create_symbols :
  (forall ops, getSymbols (Add.create ops) ⊆ ⋃ (map getSymbols ops)) /\
  (forall ops, getSymbols (Mul.create ops) ⊆ ⋃ (map getSymbols ops)) /\
  (forall b x, getSymbols (Pow.create b x) ⊆ getSymbols b ∪ getSymbols x).
Proof.
  assert (HQ : forall S : gset string,
            (forall ops, Forall (fun e => getSymbols e ⊆ S) ops ->
                         getSymbols (Add.create ops) ⊆ S) /\
            (forall ops, Forall (fun e => getSymbols e ⊆ S) ops ->
                         getSymbols (Mul.create ops) ⊆ S) /\
            (forall b x, getSymbols b ⊆ S -> getSymbols x ⊆ S ->
                         getSymbols (Pow.create b x) ⊆ S)).
  { intros S.
    assert (H1 : forall v, getSymbols (SymNumber v) ⊆ S) by (intros v; set_solver).
    assert (H3 : forall l, (2 <= length l)%nat -> Forall (fun e => getSymbols e ⊆ S) l ->
                           getSymbols (NewAdd l) ⊆ S)
      by (intros l _ H; apply getSymbols_list_subseteq, H).
    assert (H4 : forall l, (2 <= length l)%nat -> Forall (fun e => getSymbols e ⊆ S) l ->
                           getSymbols (NewMul l) ⊆ S)
      by (intros l _ H; apply getSymbols_list_subseteq, H).
    assert (H5 : forall b x, getSymbols b ⊆ S -> getSymbols x ⊆ S ->
                             getSymbols (NewPow b x) ⊆ S)
      by (intros b x Hb Hx; cbn [getSymbols]; set_solver).
    split; [|split].
    - apply (Add_create_closed _ H1 (symbols_args S) H3 H4 H5 (symbols_tail S)).
    - apply (Mul_create_closed _ H1 (symbols_args S) H4 H5).
    - apply (Pow_create_closed _ H1 H5). }
  split; [|split].
  - intros ops. apply HQ, symbols_self.
  - intros ops. apply HQ, symbols_self.
  - intros b x. apply HQ; set_solver.
Qed.

(** X19: the [create] routines invent no symbol: the symbols of the
    result are among those of the operands. *)
Theorem create_no_new_symbols :
  (forall ops, getSymbols (Add.create ops) ⊆ ⋃ (map getSymbols ops)) /\
  (forall ops, getSymbols (Mul.create ops) ⊆ ⋃ (map getSymbols ops)) /\
  (forall b x, getSymbols (Pow.create b x) ⊆ getSymbols b ∪ getSymbols x).
Proof. exact create_symbols. Qed.

(** *** Two operands or more *)

Lemma wellFormed_node (l : list Expression) :
  (fix all (l : list Expression) : Prop :=
     match l with
     | [] => True
     | x :: rest => wellFormed x /\ all rest
     end) l <-> Forall wellFormed l.
Proof.
  induction l as [|x l IH]; [split; constructor|].
  rewrite IH. split.
  - intros [H1 H2]. constructor; assumption.
  - intros H. inversion H; subst. auto.
Qed.

Lemma wellFormed_NewAdd l :
  wellFormed (NewAdd l) <-> (2 <= length l)%nat /\ Forall wellFormed l.
Proof. cbn [wellFormed]. rewrite wellFormed_node. reflexivity. Qed.

Lemma wellFormed_NewMul l :
  wellFormed (NewMul l) <-> (2 <= length l)%nat /\ Forall wellFormed l.
Proof. cbn [wellFormed]. rewrite wellFormed_node. reflexivity. Qed.

Lemma wellFormed_args e : wellFormed e -> Forall wellFormed (args_of e).
Proof.
  destruct e as [v|n i|l|l|b x]; cbn [args_of]; intros H.
  - constructor.
  - constructor.
  - apply wellFormed_NewAdd in H. apply H.
  - apply wellFormed_NewMul in H. apply H.
  - destruct H. repeat constructor; assumption.
Qed.

Lemma wellFormed_tail f rest :
  wellFormed (NewMul (f :: rest)) ->
  wellFormed (match rest with [t] => t | _ => NewMul rest end).
Proof.
  intros H. apply wellFormed_NewMul in H as [Hlen H].
  inversion H as [|? ? _ Hrest]; subst.
  destruct rest as [|t [|t' rest]].
  - cbn [length] in Hlen. lia.
  - inversion Hrest; assumption.
  - apply wellFormed_NewMul. split; [cbn [length]; lia|exact Hrest].
Qed.

Lemma create_wellFormed :
  (forall ops, Forall wellFormed ops -> wellFormed (Add.create ops)) /\
  (forall ops, Forall wellFormed ops -> wellFormed (Mul.create ops)) /\
  (forall b x, wellFormed b -> wellFormed x -> wellFormed (Pow.create b x)).
Proof.
  assert (H1 : forall v, wellFormed (SymNumber v)) by (intros v; exact I).
  assert (H3 : forall l, (2 <= length l)%nat -> Forall wellFormed l ->
                         wellFormed (NewAdd l))
    by (intros l Hl H; apply wellFormed_NewAdd; auto).
  assert (H4 : forall l, (2 <= length l)%nat -> Forall wellFormed l ->
                         wellFormed (NewMul l))
    by (intros l Hl H; apply wellFormed_NewMul; auto).
  assert (H5 : forall b x, wellFormed b -> wellFormed x -> wellFormed (NewPow b x))
    by (intros b x Hb Hx; split; assumption).
  split; [|split].
  - apply (Add_create_closed _ H1 wellFormed_args H3 H4 H5 wellFormed_tail).
  - apply (Mul_create_closed _ H1 wellFormed_args H4 H5).
  - apply (Pow_create_closed _ H1 H5).
Qed.

(** X20: every [Add] and [Mul] node of an expression built by the exported
    constructors has two operands or more, as has every product that
    [extractCoeffTerm] splits off; the branches of [toString] for no
    operand and for one operand are never taken on such an expression. *)
Theorem built_wellFormed (e : Expression) : built e -> wellFormed e.
Proof.
  induction 1 as [v|name r|args _ IH|args _ IH|b x _ IHb _ IHx].
  - exact I.
  - unfold SymSymbol. destruct (SymbolRegistry.getId name r). exact I.
  - apply create_wellFormed, List.Forall_forall, IH.
  - apply create_wellFormed, List.Forall_forall, IH.
  - apply create_wellFormed; assumption.
Qed.

Lemma built_wellFormed_witness :
  wellFormed (Add.create [Mul.create [SymNumber 2; symbol_x]; symbol_x; SymNumber 1]).
Proof.
  apply built_wellFormed. apply built_Add. intros a [<-|[<-|[<-|[]]]].
  - apply built_Mul. intros a [<-|[<-|[]]].
    + apply built_num.
    + apply (built_sym "x" SymbolRegistry.initial).
  - apply (built_sym "x" SymbolRegistry.initial).
  - apply built_num.
Defined.


(** ** The shape of what [create] returns *)

Lemma powerArg_type p :
  goodPair p ->
  type_of (Mul.powerArg p) = TSymbol \/ type_of (Mul.powerArg p) = TAdd \/
  type_of (Mul.powerArg p) = TPow.
Proof.
  intros H. destruct (powerArg_shape p H) as [-> | ->]; [|auto].
  destruct H as [Hb _]. destruct (pp_base p); try contradiction; auto.
Qed.

(** X21: a product that [Mul.create] returns for two or more operands is
    flat and has its number in front: its operands are symbols, sums and
    powers, after at most one leading number, which is neither 0 nor 1;
    there are two operands or more and none is a product. *)
Theorem Mul_create_canonical (ops L : list Expression) :
  (2 <= length ops)%nat -> Mul.create ops = NewMul L ->
  (2 <= length L)%nat /\
  exists rest,
    (L = rest \/ exists c, c <> 0 /\ c <> 1 /\ L = SymNumber c :: rest) /\
    Forall (fun x => type_of x = TSymbol \/ type_of x = TAdd \/ type_of x = TPow) rest.
Proof.
  intros Hlen H. rewrite Mul_create_eq_assemble in H by exact Hlen.
  destruct (Z.eq_dec (numFactors ops 1) 0) as [E|E].
  { rewrite Mul_assemble_zero in H by (apply Mul_flatten_zero, E). discriminate. }
  destruct (Mul_flatten_good ops E) as (HS & HF & _).
  destruct (Mul_assemble_Mul_inv _ L HS HF H) as (Hc & -> & HL & _).
  split; [exact HL|].
  exists (map Mul.powerArg (mf_powers (Mul.flatten ops)) ++ mf_factors (Mul.flatten ops)).
  split.
  - unfold Mul_finalArgs. destruct (Z.eqb_spec (mf_coeff (Mul.flatten ops)) 1) as [E1|E1].
    + left. reflexivity.
    + right. exists (mf_coeff (Mul.flatten ops)). auto.
  - apply Forall_app. split.
    + apply List.Forall_forall. intros x Hx. apply in_map_iff in Hx as (p & <- & Hp).
      rewrite List.Forall_forall in HS. apply powerArg_type, HS, Hp.
    + eapply List.Forall_impl; [|exact HF]. intros f Hf.
      destruct f; try contradiction. auto.
Qed.

Lemma Mul_create_canonical_witness :
  let ops := [symbol_y; Mul.create [SymNumber 3; symbol_x]; Pow.create symbol_y (SymNumber 2)] in
  exists L, Mul.create ops = NewMul L /\ (2 <= length L)%nat.
Proof.
  intros ops. exists [SymNumber 3; symbol_x; Pow.create symbol_y (SymNumber 3)].
  assert (H : Mul.create ops
              = NewMul [SymNumber 3; symbol_x; Pow.create symbol_y (SymNumber 3)])
    by (vm_compute; reflexivity).
  split; [exact H|].
  apply (Mul_create_canonical ops _ ltac:(simpl; lia) H).
Defined.




(** ** [Mul.create] keeps the value *)

Section Evaluation.

Variable s : gmap string Z.

Lemma evaluable_value e : evaluable s e -> evaluateNumerical e s = Returns (valueOf s e).
Proof. intros [v H]. unfold valueOf. rewrite H. reflexivity. Qed.

Lemma fold_left_mul_acc (vs : list Z) acc :
  fold_left Z.mul vs acc = acc * fold_right Z.mul 1 vs.
Proof.
  revert acc. induction vs as [|v vs IH]; intros acc; simpl; [lia|].
  rewrite IH. lia.
Qed.

Lemma evalLoop_mul_values (l : list Expression) :
  Forall (evaluable s) l ->
  evalLoop (fun arg => evaluateNumerical arg s) Z.mul l 1 = Returns (prodValues s l).
Proof.
  intros H.
  rewrite (evalLoop_returns _ Z.mul l (map (valueOf s) l)).
  - rewrite fold_left_mul_acc. f_equal. unfold prodValues.
    induction l as [|a l IH]; simpl; [reflexivity|].
    inversion H; subst. rewrite <- IH by assumption. lia.
  - induction H as [|a l Ha _ IH]; constructor; [|exact IH].
    apply evaluable_value, Ha.
Qed.

Lemma evalLoop_evaluable op (l : list Expression) : forall acc v,
  evalLoop (fun arg => evaluateNumerical arg s) op l acc = Returns v ->
  Forall (evaluable s) l.
Proof.
  induction l as [|a l IH]; intros acc v; cbn [evalLoop]; [constructor|].
  destruct (evaluateNumerical a s) as [w| |err] eqn:E; [| |discriminate].
  - intros H. constructor; [exists w; exact E|]. eapply IH, H.
  - intros H. exfalso. clear -H. induction l as [|b l IHl]; cbn [otherLoop] in H;
      [discriminate|]. destruct (evaluateNumerical b s); auto; discriminate.
Qed.

Lemma evaluable_NewMul l : evaluable s (NewMul l) -> Forall (evaluable s) l.
Proof. intros [v H]. cbn [evaluateNumerical] in H. eapply evalLoop_evaluable, H. Qed.

Lemma valueOf_NewMul l :
  Forall (evaluable s) l -> valueOf s (NewMul l) = prodValues s l.
Proof.
  intros H. unfold valueOf. cbn [evaluateNumerical].
  rewrite evalLoop_mul_values by exact H. reflexivity.
Qed.

Lemma evaluable_NewPow b x :
  evaluable s (NewPow b x) -> valueOf s x <> 0 ->
  evaluable s b /\ evaluable s x /\
  valueOf s (NewPow b x) = valueOf s b ^ valueOf s x.
Proof.
  intros [v H]. unfold valueOf, evaluable. cbn [evaluateNumerical] in *.
  destruct (evaluateNumerical b s) as [vb| |]; [| |discriminate].
  - destruct (evaluateNumerical x s) as [vx| |]; [|discriminate..]. eauto.
  - destruct (evaluateNumerical x s) as [vx| |]; [|discriminate..].
    intros Hx. destruct (Z.eqb_spec vx 0); [contradiction|discriminate].
Qed.

Lemma prodValues_app l1 l2 : prodValues s (l1 ++ l2) = prodValues s l1 * prodValues s l2.
Proof.
  unfold prodValues. induction l1 as [|a l1 IH]; cbn [app fold_right]; [lia|].
  rewrite IH. lia.
Qed.

Lemma prodBases_app B1 B2 : prodBases s (B1 ++ B2) = prodBases s B1 * prodBases s B2.
Proof.
  unfold prodBases. induction B1 as [|a B1 IH]; cbn [app fold_right]; [lia|].
  rewrite IH. lia.
Qed.

Lemma numeric_value x :
  isNumericType (type_of x) = true -> valueOf s x = value_of x.
Proof. intros H. apply numeric_inv in H as (c & ->). reflexivity. Qed.

Lemma powersKept_NewMul l k :
  powersKept (NewMul l) k <-> Forall (fun x => powersKept x k) l.
Proof.
  cbn [powersKept]. induction l as [|x l IH]; [split; constructor|].
  rewrite IH. split.
  - intros [H1 H2]. constructor; assumption.
  - intros H. inversion H; subst. auto.
Qed.

(** The value of [expr ^ exponent], taken apart as [collectFactors] does. *)
Lemma collectFactors_value e : forall k,
  0 < k -> powersKept e k -> evaluable s e ->
  Forall (fun p => evaluable s (fst p) /\ 0 < snd p) (baseList e k) /\
  Forall (evaluable s) (factorList e k) /\
  valueOf s e ^ k = numFactor e k * prodBases s (baseList e k) * prodValues s (factorList e k).
Proof.
  induction e as [v|n i|l IH|l IH|b x IHb IHx] using Expression_nested_ind;
    intros k Hk Hp He.
  - split; [constructor|]. split; [constructor|].
    cbn [baseList factorList prodBases prodValues fold_right numFactor].
    change (valueOf s (SymNumber v)) with v.
    destruct (type_eqb (type_of (SymNumber v)) TZero) eqn:E0.
    { apply type_eqb_eq in E0. cbn [type_of] in E0.
      destruct (Z.eqb_spec v 0) as [->|]; [rewrite Z.pow_0_l by lia; reflexivity|].
      repeat destruct (_ =? _); discriminate. }
    destruct (type_eqb (type_of (SymNumber v)) TOne) eqn:E1.
    { apply type_eqb_eq in E1. cbn [type_of] in E1.
      destruct (Z.eqb_spec v 0); [discriminate|].
      destruct (Z.eqb_spec v 1) as [->|]; [rewrite Z.pow_1_l by lia; reflexivity|].
      repeat destruct (_ =? _); discriminate. }
    lia.
  - cbn [baseList factorList numFactor]. split; [repeat constructor; assumption|].
    split; [constructor|]. unfold prodBases, prodValues. cbn [fold_right fst snd]. lia.
  - cbn [baseList factorList numFactor]. split; [repeat constructor; assumption|].
    split; [constructor|]. unfold prodBases, prodValues. cbn [fold_right fst snd]. lia.
  - apply powersKept_NewMul in Hp. pose proof (evaluable_NewMul l He) as Hl.
    rewrite (valueOf_NewMul l Hl). clear He.
    cbn [baseList factorList numFactor].
    induction l as [|a l IHl].
    + repeat split; try constructor. unfold prodValues, prodBases. cbn [fold_right flat_map].
      rewrite Z.pow_1_l by lia. reflexivity.
    + inversion IH as [|? ? Ha IH']; subst. inversion Hp as [|? ? Hpa Hp']; subst.
      inversion Hl as [|? ? Hea Hl']; subst.
      destruct (Ha k Hk Hpa Hea) as (A1 & A2 & A3).
      destruct (IHl IH' Hp' Hl') as (B1 & B2 & B3).
      cbn [flat_map fold_right]. split; [apply Forall_app; auto|].
      split; [apply Forall_app; auto|].
      rewrite prodBases_app, prodValues_app.
      change (prodValues s (a :: l)) with (valueOf s a * prodValues s l).
      rewrite Z.pow_mul_l, A3, B3. ring.
  - cbn [baseList factorList numFactor powersKept] in *.
    destruct (isNumericType (type_of x)) eqn:Ex.
    + destruct Hp as [Hpos Hp].
      destruct (evaluable_NewPow b x He) as (Hb & Hx & Hv);
        [rewrite (numeric_value x Ex); lia|].
      destruct (IHb (value_of x * k) ltac:(lia) Hp Hb) as (A1 & A2 & A3).
      split; [exact A1|]. split; [exact A2|].
      rewrite Hv, (numeric_value x Ex), <- Z.pow_mul_r by lia. exact A3.
    + subst k. split; [constructor|]. split; [repeat constructor; exact He|].
      unfold prodBases, prodValues. cbn [fold_right]. lia.
Qed.


(** *** The power pairs carry the recorded product *)

Lemma prodPairs_perm P P' : Permutation P P' -> prodPairs s P = prodPairs s P'.
Proof.
  unfold prodPairs.
  induction 1 as [|p l1 l2 _ IH|p q l|l1 l2 l3 _ IH12 _ IH23]; cbn [fold_right].
  - reflexivity.
  - rewrite IH. reflexivity.
  - lia.
  - congruence.
Qed.

Lemma prodValues_perm l l' : Permutation l l' -> prodValues s l = prodValues s l'.
Proof.
  unfold prodValues.
  induction 1 as [|p l1 l2 _ IH|p q l|l1 l2 l3 _ IH12 _ IH23]; cbn [fold_right].
  - reflexivity.
  - rewrite IH. reflexivity.
  - lia.
  - congruence.
Qed.

Lemma pairsOf_cons_In b j B p :
  In p (pairsOf ((b, j) :: B)) <->
  pp_exp p <> 0 /\
  pp_exp p = (if hash b =? hash (pp_base p) then j + total B (hash (pp_base p))
              else total B (hash (pp_base p))) /\
  match lastBase B (hash (pp_base p)) with
  | Some x => Some x
  | None => if hash b =? hash (pp_base p) then Some b else None
  end = Some (pp_base p).
Proof. rewrite pairsOf_In. reflexivity. Qed.

Lemma pairsOf_cons_fresh b j B :
  ~ In (hash b) (hashesOf B) -> j <> 0 ->
  Permutation (pairsOf ((b, j) :: B)) ({| pp_base := b; pp_exp := j |} :: pairsOf B).
Proof.
  intros Hfresh Hj. apply Permutation.NoDup_Permutation.
  - apply pairsOf_NoDup.
  - constructor; [|apply pairsOf_NoDup].
    rewrite pairsOf_In. cbn [pp_base pp_exp]. intros (_ & _ & Hl).
    apply lastBase_hash in Hl as [_ Hin]. apply Hfresh.
    unfold hashesOf. apply in_map_iff in Hin as (q & <- & Hq).
    apply in_map_iff. exists q. auto.
  - intros [x e]. rewrite pairsOf_cons_In. cbn [In pp_base pp_exp].
    rewrite pairsOf_In. cbn [pp_base pp_exp].
    destruct (Z.eqb_spec (hash b) (hash x)) as [E|E].
    + rewrite <- E. rewrite (proj2 (lastBase_None B (hash b)) Hfresh).
      rewrite (total_absent B (hash b) Hfresh). split.
      * intros (He & -> & [= ->]). left. f_equal. lia.
      * intros [[= <- <-]|(_ & _ & [=])]. split; [exact Hj|]. split; [lia|reflexivity].
    + split.
      * intros (He & Ht & Hl). right. split; [exact He|]. split; [exact Ht|].
        destruct (lastBase B (hash x)); [exact Hl|discriminate].
      * intros [[= -> ->]|(He & Ht & Hl)]; [contradiction|].
        split; [exact He|]. split; [exact Ht|]. rewrite Hl. reflexivity.
Qed.

Lemma pairsOf_cons_seen b j B :
  lastBase B (hash b) = Some b ->
  total B (hash b) <> 0 -> j + total B (hash b) <> 0 ->
  exists P0,
    Permutation (pairsOf B) ({| pp_base := b; pp_exp := total B (hash b) |} :: P0) /\
    Permutation (pairsOf ((b, j) :: B))
                ({| pp_base := b; pp_exp := j + total B (hash b) |} :: P0).
Proof.
  intros Hl Ht Hjt.
  exists (List.filter (fun p => negb (hash (pp_base p) =? hash b)) (pairsOf B)).
  assert (Hnd0 : forall e,
            List.NoDup ({| pp_base := b; pp_exp := e |}
                        :: List.filter (fun p => negb (hash (pp_base p) =? hash b)) (pairsOf B))).
  { intros e. constructor; [|apply List.NoDup_filter, pairsOf_NoDup].
    rewrite List.filter_In. cbn [pp_base]. rewrite Z.eqb_refl. intros [_ [=]]. }
  split.
  - apply Permutation.NoDup_Permutation; [apply pairsOf_NoDup|apply Hnd0|].
    intros [x e]. cbn [In]. rewrite List.filter_In, pairsOf_In. cbn [pp_base pp_exp].
    destruct (Z.eqb_spec (hash x) (hash b)) as [E|E].
    + rewrite E, Hl. split.
      * intros (_ & -> & [= ->]). left. reflexivity.
      * intros [[= <- <-]|[_ [=]]]. auto.
    + split.
      * intros H. right. auto.
      * intros [[= -> _]|[H _]]; [contradiction|exact H].
  - apply Permutation.NoDup_Permutation; [apply pairsOf_NoDup|apply Hnd0|].
    intros [x e]. cbn [In]. rewrite List.filter_In, pairsOf_cons_In, pairsOf_In.
    cbn [pp_base pp_exp].
    destruct (Z.eqb_spec (hash x) (hash b)) as [E|E].
    + rewrite E, Z.eqb_refl, Hl. split.
      * intros (_ & -> & [= ->]). left. reflexivity.
      * intros [[= <- <-]|[_ [=]]]. auto.
    + destruct (Z.eqb_spec (hash b) (hash x)) as [E'|_]; [congruence|]. split.
      * intros (He & Hte & Hle). right. split; [|reflexivity].
        split; [exact He|]. split; [exact Hte|].
        destruct (lastBase B (hash x)); [exact Hle|discriminate].
      * intros [[= -> _]|[(He & Hte & Hle) _]]; [contradiction|].
        split; [exact He|]. split; [exact Hte|]. rewrite Hle. reflexivity.
Qed.

Lemma total_pos_In B h :
  Forall (fun p => 0 < snd p) B -> In h (hashesOf B) -> 0 < total B h.
Proof. apply total_pos. Qed.

Lemma total_nonneg B h : Forall (fun p : Expression * Z => 0 < snd p) B -> 0 <= total B h.
Proof.
  induction 1 as [|[b k] B Hk _ IH]; cbn [total fst snd] in *; [lia|].
  destruct (hash b =? h); lia.
Qed.

Lemma prodPairs_pairsOf B :
  collision_free (map fst B) -> Forall (fun p => 0 < snd p) B ->
  prodPairs s (pairsOf B) = prodBases s B.
Proof.
  induction B as [|[b j] B IH]; intros Hcf Hpos; [reflexivity|].
  inversion Hpos as [|? ? Hj Hpos']; subst. cbn [snd] in Hj.
  assert (Hcf' : collision_free (map fst B)).
  { intros x y Hx Hy. apply Hcf; right; assumption. }
  specialize (IH Hcf' Hpos').
  change (prodBases s ((b, j) :: B)) with (valueOf s b ^ j * prodBases s B).
  rewrite <- IH.
  destruct (in_dec Z.eq_dec (hash b) (hashesOf B)) as [Hin|Hin].
  - pose proof (total_pos B (hash b) Hpos' Hin) as Ht.
    assert (Hl : lastBase B (hash b) = Some b).
    { destruct (lastBase B (hash b)) as [x|] eqn:E.
      - f_equal. apply lastBase_hash in E as [Hh Hx].
        apply Hcf; [right; exact Hx|left; reflexivity|exact Hh].
      - apply lastBase_None in E. contradiction. }
    destruct (pairsOf_cons_seen b j B Hl ltac:(lia) ltac:(lia)) as (P0 & H1 & H2).
    rewrite (prodPairs_perm _ _ H1), (prodPairs_perm _ _ H2).
    unfold prodPairs. cbn [fold_right pp_base pp_exp].
    rewrite Z.pow_add_r by lia. ring.
  - rewrite (prodPairs_perm _ _ (pairsOf_cons_fresh b j B Hin ltac:(lia))).
    reflexivity.
Qed.

(** *** The value of what [Mul.create] puts together *)

Lemma Pow_create_base b e :
  isBase b -> e <> 0 -> e <> 1 ->
  Pow.create b (SymNumber e) = NewPow b (SymNumber e).
Proof.
  intros Hb H0 H1. unfold Pow.create. cbn [type_of].
  destruct (Z.eqb_spec e 0); [contradiction|].
  destruct (Z.eqb_spec e 1); [contradiction|].
  destruct (e =? -1); destruct b; try contradiction; reflexivity.
Qed.

Lemma powerArg_value p :
  goodPair p -> evaluable s (pp_base p) ->
  evaluable s (Mul.powerArg p) /\
  valueOf s (Mul.powerArg p) = valueOf s (pp_base p) ^ pp_exp p.
Proof.
  intros [Hb Hne] He. unfold Mul.powerArg.
  destruct (Z.eqb_spec (pp_exp p) 1) as [E|E].
  - rewrite E, Z.pow_1_r. auto.
  - rewrite (Pow_create_base _ _ Hb Hne E).
    destruct He as [v Hv]. unfold evaluable, valueOf.
    cbn [evaluateNumerical]. rewrite Hv. eauto.
Qed.

Lemma Mul_assemble_value fl :
  Forall goodPair (mf_powers fl) ->
  Forall (fun p => evaluable s (pp_base p)) (mf_powers fl) ->
  Forall (evaluable s) (mf_factors fl) ->
  evaluateNumerical (Mul_assemble fl) s =
  Returns (mf_coeff fl * prodPairs s (mf_powers fl) * prodValues s (mf_factors fl)).
Proof.
  intros Hg HeP HeF.
  assert (Hargs : Forall (evaluable s) (Mul_finalArgs fl) /\
                  prodValues s (Mul_finalArgs fl)
                  = mf_coeff fl * prodPairs s (mf_powers fl) * prodValues s (mf_factors fl)).
  { unfold Mul_finalArgs. split.
    - repeat apply Forall_app_2.
      + destruct (negb _); repeat constructor. exists (mf_coeff fl). reflexivity.
      + apply List.Forall_forall. intros x Hx. apply in_map_iff in Hx as (p & <- & Hp).
        rewrite List.Forall_forall in Hg, HeP. apply powerArg_value; auto.
      + exact HeF.
    - rewrite !prodValues_app.
      assert (E1 : prodValues s (if negb (mf_coeff fl =? 1)
                                 then [SymNumber (mf_coeff fl)] else [])
                   = mf_coeff fl).
      { destruct (Z.eqb_spec (mf_coeff fl) 1) as [->|_]; cbn [negb]; [reflexivity|].
        unfold prodValues. cbn [fold_right].
        change (valueOf s (SymNumber (mf_coeff fl))) with (mf_coeff fl). lia. }
      assert (E2 : prodValues s (map Mul.powerArg (mf_powers fl))
                   = prodPairs s (mf_powers fl)).
      { clear HeF E1. induction (mf_powers fl) as [|p P IH]; [reflexivity|].
        inversion Hg; subst. inversion HeP; subst.
        cbn [map]. unfold prodValues, prodPairs in *. cbn [fold_right].
        rewrite IH by assumption.
        destruct (powerArg_value p) as [_ ->]; auto. }
      rewrite E1, E2. ring. }
  destruct Hargs as [Hev Hprod]. rewrite <- Hprod. clear Hprod.
  unfold Mul_assemble.
  destruct (Z.eqb_spec (mf_coeff fl) 0) as [E0|E0].
  { unfold Mul_finalArgs. rewrite E0. cbn [negb Z.eqb app]. 
    unfold prodValues at 1. cbn [fold_right]. 
    change (valueOf s (SymNumber 0)) with 0. reflexivity. }
  destruct (Nat.eqb (length (mf_factors fl)) 0 && Nat.eqb (length (mf_powers fl)) 0) eqn:Eb.
  { apply andb_true_iff in Eb as [EF EP]. apply Nat.eqb_eq in EF, EP.
    apply length_zero_iff_nil in EF, EP. unfold Mul_finalArgs. rewrite EF, EP.
    cbn [map app]. rewrite app_nil_r.
    destruct (Z.eqb_spec (mf_coeff fl) 1) as [->|_]; cbn [negb].
    - reflexivity.
    - unfold prodValues. cbn [fold_right].
      change (valueOf s (SymNumber (mf_coeff fl))) with (mf_coeff fl).
      cbn [evaluateNumerical]. f_equal. lia. }
  fold (Mul_finalArgs fl).
  destruct (Mul_finalArgs fl) as [|a [|b rest]] eqn:EL.
  - reflexivity.
  - inversion Hev; subst. rewrite (evaluable_value a) by assumption.
    unfold prodValues. cbn [fold_right]. f_equal. lia.
  - cbn [evaluateNumerical]. apply evalLoop_mul_values, Hev.
Qed.

Lemma collectFactors_values ops :
  Forall (fun e => powersKept e 1) ops -> Forall (evaluable s) ops ->
  Forall (fun p => evaluable s (fst p) /\ 0 < snd p) (baseLists ops 1) /\
  Forall (evaluable s) (factorLists ops 1) /\
  prodValues s ops
  = numFactors ops 1 * prodBases s (baseLists ops 1) * prodValues s (factorLists ops 1).
Proof.
  induction ops as [|e ops IH]; intros Hp He.
  - repeat split; constructor.
  - inversion Hp as [|? ? Hpe Hp']; subst. inversion He as [|? ? Hee He']; subst.
    destruct (IH Hp' He') as (B1 & B2 & B3).
    destruct (collectFactors_value e 1 ltac:(lia) Hpe Hee) as (A1 & A2 & A3).
    unfold baseLists, factorLists, numFactors in *. cbn [flat_map fold_right].
    split; [apply Forall_app; auto|]. split; [apply Forall_app; auto|].
    rewrite prodBases_app, prodValues_app.
    change (prodValues s (e :: ops)) with (valueOf s e * prodValues s ops).
    rewrite Z.pow_1_r in A3. rewrite A3, B3. ring.
Qed.

Lemma Mul_create_value ops :
  Forall (evaluable s) ops -> Forall (fun e => powersKept e 1) ops ->
  collision_free (Mul_bases ops) ->
  evaluateNumerical (Mul.create ops) s = Returns (prodValues s ops).
Proof.
  intros He Hp Hcf. destruct ops as [|a [|b rest]].
  - reflexivity.
  - inversion He; subst. cbn [Mul.create]. rewrite (evaluable_value a) by assumption.
    unfold prodValues. cbn [fold_right]. f_equal. lia.
  - rewrite Mul_create_assemble.
    destruct (collectFactors_values _ Hp He) as (HB & HF & Hprod).
    rewrite Hprod.
    destruct (Z.eq_dec (numFactors (a :: b :: rest) 1) 0) as [E|E].
    + rewrite Mul_assemble_zero by (apply Mul_flatten_zero, E). rewrite E. reflexivity.
    + destruct (Mul_flatten_good _ E) as (Hg & _ & _).
      rewrite Mul_assemble_value.
      * rewrite Mul_flatten_spec by exact E. cbn [mf_coeff mf_powers mf_factors].
        rewrite (prodPairs_perm _ _ (sort_perm cmpBase _)).
        rewrite (prodValues_perm _ _ (sort_perm compareTo _)).
        rewrite prodPairs_pairsOf; [reflexivity|exact Hcf|].
        eapply List.Forall_impl; [|exact HB]. intros p [_ H]. exact H.
      * exact Hg.
      * rewrite Mul_flatten_spec by exact E. cbn [mf_powers].
        apply sort_Forall. apply List.Forall_forall. intros p Hin.
        apply pairsOf_In in Hin as (_ & _ & Hl). apply lastBase_hash in Hl as [_ Hin].
        apply in_map_iff in Hin as (q & Hq1 & Hq). rewrite <- Hq1.
        rewrite List.Forall_forall in HB. apply (HB q Hq).
      * rewrite Mul_flatten_spec by exact E. cbn [mf_factors].
        apply sort_Forall, HF.
Qed.

End Evaluation.

Lemma returns_values (s : gmap string Z) ops vs :
  Forall2 (fun e v => evaluateNumerical e s = Returns v) ops vs ->
  Forall (evaluable s) ops /\ vs = map (valueOf s) ops.
Proof.
  induction 1 as [|e v ops vs He _ [IH1 IH2]]; [split; constructor|].
  split; [constructor; [exists v; exact He|exact IH1]|].
  cbn [map]. unfold valueOf at 1. rewrite He, IH2. reflexivity.
Qed.

Lemma prodValues_map (s : gmap string Z) ops :
  prodValues s ops = fold_right Z.mul 1 (map (valueOf s) ops).
Proof. unfold prodValues. induction ops as [|e ops IH]; simpl; [reflexivity|]. rewrite IH. reflexivity. Qed.

(** X22: [Mul.create] keeps the value.  When [evaluateNumerical] returns
    a number for every operand, no two different bases that [Mul.flatten]
    records share a hash, every numeric exponent on the way through the
    products and powers of the operands is positive, no power with an
    exponent that is no number lies under a numeric exponent, the symbols
    have names of lower-case letters, no power inside the operands has an
    exponent of negative value, and the bound of the numbers computed from
    the product of the operands is an integer that doubles hold exactly,
    then [evaluateNumerical] returns the product of these numbers for the
    result of [Mul.create]. *)
Theorem Mul_create_sound (s : gmap string Z) (ops : list Expression) (vs : list Z) :
  Forall2 (fun e v => evaluateNumerical e s = Returns v) ops vs ->
  Forall (fun e => powersKept e 1) ops ->
  collision_free (Mul_bases ops) ->
  Forall lowerCaseNames ops ->
  Forall (nonnegExponents s) ops ->
  magnitude (valuation s) (NewMul ops) <= 2 ^ 53 ->
  evaluateNumerical (Mul.create ops) s = Returns (fold_right Z.mul 1 vs).
Proof.
  intros Hv Hp Hcf _ _ _. destruct (returns_values s ops vs Hv) as [He ->].
  rewrite <- prodValues_map. apply Mul_create_value; assumption.
Qed.

Lemma Mul_create_sound_witness :
  let s : gmap string Z := {[ "x"%string := 2; "y"%string := 3 ]} in
  let ops := [Pow.create (Mul.create [SymNumber 2; symbol_y]) (SymNumber 3);
              symbol_y; symbol_x] in
  Mul.create ops
  = NewMul [SymNumber 8; symbol_x; NewPow symbol_y (SymNumber 4)] /\
  evaluateNumerical (Mul.create ops) s = Returns 1296.
Proof.
  intros s ops. split; [vm_compute; reflexivity|].
  apply (Mul_create_sound s ops [216; 3; 2]).
  - unfold ops.
    repeat (apply List.Forall2_cons; [vm_compute; reflexivity|]). apply List.Forall2_nil.
  - unfold ops.
    repeat (apply List.Forall_cons; [vm_compute; auto|]). apply List.Forall_nil.
  - apply (collision_free_incl _ [symbol_y; symbol_x]).
    + intros e He. vm_compute in He. simpl. tauto.
    + apply distinct_hashes_free. vm_compute. reflexivity.
  - unfold ops.
    repeat (apply List.Forall_cons; [vm_compute; auto|]). apply List.Forall_nil.
  - unfold ops.
    repeat (apply List.Forall_cons; [vm_compute; intuition discriminate|]).
    apply List.Forall_nil.
  - vm_compute. discriminate.
Defined.

(** X23: [Mul.create] loses an exponent.  A power [(b^x)^k] whose inner
    exponent [x] is no number is flattened as [b^x]: [collectFactors]
    appends [b^x] to the factors without the exponent [k] under which it
    was met. *)
Theorem Mul_create_drops_exponent (b x : Expression) (k : Z) (rest : list Expression) :
  isNumericType (type_of x) = false -> rest <> [] ->
  Mul.create (NewPow (NewPow b x) (SymNumber k) :: rest)
  = Mul.create (NewPow b x :: rest).
Proof.
  intros Hx Hrest. destruct rest as [|a rest]; [contradiction|].
  rewrite !Mul_create_assemble.
  assert (E : numFactor (NewPow (NewPow b x) (SymNumber k)) 1 = numFactor (NewPow b x) 1 /\
              baseList (NewPow (NewPow b x) (SymNumber k)) 1 = baseList (NewPow b x) 1 /\
              factorList (NewPow (NewPow b x) (SymNumber k)) 1 = factorList (NewPow b x) 1).
  { cbn [numFactor baseList factorList]. rewrite type_of_SymNumber_numeric, Hx. auto. }
  destruct E as (E1 & E2 & E3).
  assert (Hn : numFactors (NewPow (NewPow b x) (SymNumber k) :: a :: rest) 1
               = numFactors (NewPow b x :: a :: rest) 1).
  { unfold numFactors. cbn [fold_right]. rewrite E1. reflexivity. }
  destruct (Z.eq_dec (numFactors (NewPow b x :: a :: rest) 1) 0) as [E|E].
  - rewrite !Mul_assemble_zero; [reflexivity| |]; apply Mul_flatten_zero; congruence.
  - rewrite !Mul_flatten_spec by congruence. rewrite Hn.
    unfold baseLists, factorLists. cbn [flat_map]. rewrite E2, E3. reflexivity.
Qed.

Lemma Mul_create_drops_exponent_witness :
  let s : gmap string Z := {[ "x"%string := 2; "y"%string := 3 ]} in
  let p := Pow.create (Pow.create symbol_x symbol_y) (SymNumber 2) in
  Mul.create [p; symbol_y] = Mul.create [NewPow symbol_x symbol_y; symbol_y] /\
  evaluateNumerical p s = Returns 64 /\
  evaluateNumerical (Mul.create [p; symbol_y]) s = Returns 24.
Proof.
  intros s p. split; [|split; vm_compute; reflexivity].
  apply (Mul_create_drops_exponent symbol_x symbol_y 2 [symbol_y]);
    [reflexivity|discriminate].
Defined.



(** ** [Add.create] keeps the value *)

Section AddEvaluation.

Variable s : gmap string Z.

Lemma fold_left_add_from (vs : list Z) acc :
  fold_left Z.add vs acc = acc + fold_right Z.add 0 vs.
Proof.
  revert acc. induction vs as [|v vs IH]; intros acc; simpl; [lia|].
  rewrite IH. lia.
Qed.

Lemma evalLoop_add_values (l : list Expression) :
  Forall (evaluable s) l ->
  evalLoop (fun arg => evaluateNumerical arg s) Z.add l 0 = Returns (sumValues s l).
Proof.
  intros H.
  rewrite (evalLoop_returns _ Z.add l (map (valueOf s) l)).
  - rewrite fold_left_add_from. f_equal. unfold sumValues.
    induction l as [|a l IH]; simpl; [reflexivity|].
    inversion H; subst. rewrite <- IH by assumption. lia.
  - induction H as [|a l Ha _ IH]; constructor; [|exact IH].
    apply evaluable_value, Ha.
Qed.

Lemma evaluable_NewAdd l : evaluable s (NewAdd l) -> Forall (evaluable s) l.
Proof. intros [v H]. cbn [evaluateNumerical] in H. eapply evalLoop_evaluable, H. Qed.

Lemma valueOf_NewAdd l :
  Forall (evaluable s) l -> valueOf s (NewAdd l) = sumValues s l.
Proof.
  intros H. unfold valueOf. cbn [evaluateNumerical].
  rewrite evalLoop_add_values by exact H. reflexivity.
Qed.

Lemma sumValues_app l1 l2 : sumValues s (l1 ++ l2) = sumValues s l1 + sumValues s l2.
Proof.
  unfold sumValues. induction l1 as [|a l1 IH]; cbn [app fold_right]; [lia|].
  rewrite IH. lia.
Qed.

Lemma sumTerms_app T1 T2 : sumTerms s (T1 ++ T2) = sumTerms s T1 + sumTerms s T2.
Proof.
  unfold sumTerms. induction T1 as [|a T1 IH]; cbn [app fold_right]; [lia|].
  rewrite IH. lia.
Qed.

Lemma sumValues_perm l l' : Permutation l l' -> sumValues s l = sumValues s l'.
Proof.
  unfold sumValues.
  induction 1 as [|p l1 l2 _ IH|p q l|l1 l2 l3 _ IH12 _ IH23]; cbn [fold_right].
  - reflexivity.
  - rewrite IH. reflexivity.
  - lia.
  - congruence.
Qed.

Lemma evaluable_list_NewMul l : Forall (evaluable s) l -> evaluable s (NewMul l).
Proof.
  intros H. exists (prodValues s l). cbn [evaluateNumerical].
  apply evalLoop_mul_values, H.
Qed.

Lemma evaluable_tail f rest :
  evaluable s (NewMul (f :: rest)) ->
  evaluable s (match rest with [t] => t | _ => NewMul rest end).
Proof.
  intros H. apply evaluable_NewMul in H. inversion H as [|? ? _ Hrest]; subst.
  destruct rest as [|t [|t' rest]].
  - apply evaluable_list_NewMul. constructor.
  - inversion Hrest; assumption.
  - apply evaluable_list_NewMul, Hrest.
Qed.

Lemma candidates_evaluable seq :
  Forall (evaluable s) seq -> Forall (evaluable s) (Add_candidates seq).
Proof.
  intros H. apply List.Forall_forall. intros t Ht.
  unfold Add_candidates in Ht. apply in_flat_map in Ht as (e & He & Ht).
  rewrite List.Forall_forall in H. specialize (H e He).
  destruct e as [v|n i|l|l|b x]; cbn [type_of args_of] in Ht.
  - assert (Hin : In t [SymNumber v]) by (repeat destruct (_ =? _); exact Ht).
    destruct Hin as [<-|[]]. exact H.
  - destruct Ht as [<-|[]]. exact H.
  - apply evaluable_NewAdd in H. rewrite List.Forall_forall in H. apply H, Ht.
  - destruct Ht as [<-|[]]. unfold Add.extractCoeffTerm. cbn [type_of isNumericType].
    destruct l as [|f rest]; [exact H|].
    destruct (isNumericType (type_of f)); [|exact H]. cbn [snd].
    apply (evaluable_tail f rest H).
  - destruct Ht as [<-|[]]. exact H.
Qed.

(** *** The value of one operand, taken apart as [collectTerms] does *)

Lemma extractCoeffTerm_value l :
  evaluable s (NewMul l) ->
  valueOf s (NewMul l)
  = fst (Add.extractCoeffTerm (NewMul l)) * valueOf s (snd (Add.extractCoeffTerm (NewMul l))).
Proof.
  intros He. unfold Add.extractCoeffTerm. cbn [type_of isNumericType].
  destruct l as [|f rest]; [cbn [fst snd]; lia|].
  destruct (isNumericType (type_of f)) eqn:Ef; [|cbn [fst snd]; lia].
  cbn [fst snd]. pose proof (evaluable_NewMul s _ He) as Hl.
  rewrite (valueOf_NewMul s _ Hl). inversion Hl as [|? ? _ Hrest]; subst.
  change (prodValues s (f :: rest)) with (valueOf s f * prodValues s rest).
  rewrite (numeric_value s f Ef). f_equal.
  destruct rest as [|t [|t' rest]].
  - rewrite valueOf_NewMul by constructor. reflexivity.
  - unfold prodValues. cbn [fold_right]. lia.
  - rewrite valueOf_NewMul by exact Hrest. reflexivity.
Qed.

Lemma plain_operand_value e :
  evaluable s e -> type_of e <> TAdd ->
  valueOf s e = numSum e 1 + sumTerms s (termList e 1) /\
  Forall (fun p => In (fst p) (Add_candidates [e])) (termList e 1).
Proof.
  intros He Ht. destruct e as [v|n i|l|l|b x].
  - split; [|constructor]. rewrite numSum_number. cbn [termList]. 
    change (valueOf s (SymNumber v)) with v. unfold sumTerms. cbn [fold_right]. lia.
  - split; [|repeat constructor].
    cbn [numSum termList]. unfold sumTerms. cbn [fold_right fst snd]. lia.
  - contradiction Ht. reflexivity.
  - cbn [numSum termList]. rewrite (extractCoeffTerm_value l He).
    unfold Add_candidates. cbn [flat_map type_of]. rewrite app_nil_r.
    destruct (Add.extractCoeffTerm (NewMul l)) as [c t]. cbn [fst snd].
    split; [|repeat constructor].
    unfold sumTerms. cbn [fold_right fst snd]. lia.
  - split; [|repeat constructor].
    cbn [numSum termList]. unfold sumTerms. cbn [fold_right fst snd]. lia.
Qed.

Lemma operand_value e :
  evaluable s e -> flatSum e ->
  valueOf s e = numSum e 1 + sumTerms s (termList e 1) /\
  Forall (fun p => In (fst p) (Add_candidates [e])) (termList e 1).
Proof.
  intros He Hf. destruct (type_eqb (type_of e) TAdd) eqn:Et.
  - apply type_eqb_eq, type_of_Add_inv in Et as (l & ->).
    cbn [flatSum] in Hf. pose proof (evaluable_NewAdd l He) as Hl.
    rewrite (valueOf_NewAdd l Hl). clear He.
    unfold Add_candidates. cbn [flat_map type_of args_of numSum termList].
    rewrite app_nil_r.
    induction l as [|a l IH].
    + split; [reflexivity|constructor].
    + inversion Hf as [|? ? [Ha1 Ha2] Hf']; subst. inversion Hl as [|? ? Hea Hl']; subst.
      destruct (IH Hf' Hl') as [IH1 IH2].
      destruct (plain_operand_value a Hea Ha1) as [A1 A2].
      cbn [flat_map fold_right]. change (sumValues s (a :: l)) with (valueOf s a + sumValues s l).
      rewrite sumTerms_app, A1, IH1. split; [lia|].
      apply Forall_app. split.
      * eapply List.Forall_impl; [|exact A2]. intros p Hp. left.
        revert Hp. unfold Add_candidates. cbn [flat_map]. rewrite app_nil_r.
        destruct a as [v|n i|l0|l0|b x]; cbn [type_of].
        -- intros Hp.
           assert (Hin : In (fst p) [SymNumber v]) by (repeat destruct (_ =? _); exact Hp).
           destruct Hin as [<-|[]]. reflexivity.
        -- intros [<-|[]]. reflexivity.
        -- contradiction Ha1. reflexivity.
        -- contradiction Ha2. reflexivity.
        -- intros [<-|[]]. reflexivity.
      * eapply List.Forall_impl; [|exact IH2]. intros p Hp. right. exact Hp.
  - apply plain_operand_value; [exact He|].
    intros E. rewrite E in Et. discriminate.
Qed.


(** *** The map entries carry the recorded sum *)

Variable seq : list Expression.

Lemma sumEntries_set (m : JsMap Z) h j :
  sumEntries s seq (map_set m h (get_or_0 m h + j))
  = sumEntries s seq m + j * termValue s seq h.
Proof.
  unfold get_or_0. induction m as [|[k v] m IH]; cbn [map_set map_get].
  - unfold sumEntries. cbn [fold_right fst snd]. lia.
  - destruct (Z.eqb_spec k h) as [->|Hne].
    + unfold sumEntries. cbn [fold_right fst snd]. lia.
    + unfold sumEntries in *. cbn [fold_right fst snd]. rewrite IH. lia.
Qed.

Lemma sumEntries_addPowers T : forall m,
  Forall (fun p => Add.findTerm seq (hash (fst p)) = Some (fst p)) T ->
  sumEntries s seq (addPowers T m) = sumEntries s seq m + sumTerms s T.
Proof.
  induction T as [|[t j] T IH]; intros m H.
  - unfold sumTerms. cbn [addPowers fold_left fold_right]. lia.
  - inversion H as [|? ? Ht H']; subst. cbn [fst] in Ht.
    unfold addPowers in *. cbn [fold_left]. rewrite IH by exact H'.
    unfold addPower. cbn [fst snd]. rewrite sumEntries_set.
    unfold termValue. rewrite Ht. unfold sumTerms. cbn [fold_right fst snd]. lia.
Qed.

Lemma rebuild_value v t :
  evaluable s t -> powersKept t 1 -> collision_free (Mul_bases [t]) ->
  evaluable s (rebuild v t) /\ valueOf s (rebuild v t) = v * valueOf s t.
Proof.
  intros He Hp Hcf. unfold rebuild. destruct (Z.eqb_spec v 1) as [->|Hv].
  - split; [exact He|lia].
  - assert (H : evaluateNumerical (Mul.create [SymNumber v; t]) s
                = Returns (prodValues s [SymNumber v; t])).
    { apply Mul_create_value.
      - repeat constructor; [exists v; reflexivity|exact He].
      - repeat constructor. exact Hp.
      - exact Hcf. }
    split; [eexists; exact H|]. unfold valueOf at 1. rewrite H.
    unfold prodValues. cbn [fold_right]. change (valueOf s (SymNumber v)) with v. lia.
Qed.

Lemma resultTerms_value (E : JsMap Z) :
  Forall (evaluable s) seq ->
  Forall (fun t => powersKept t 1 /\ collision_free (Mul_bases [t])) (Add_candidates seq) ->
  Forall (evaluable s) (Add.resultTerms E seq) /\
  sumValues s (Add.resultTerms E seq) = sumEntries s seq E.
Proof.
  intros He Hc. pose proof (candidates_evaluable seq He) as Hce.
  rewrite List.Forall_forall in Hc, Hce.
  induction E as [|[h v] E [IH1 IH2]]; [split; [constructor|reflexivity]|].
  rewrite resultTerms_cons.
  change (sumEntries s seq ((h, v) :: E))
    with (v * termValue s seq h + sumEntries s seq E).
  unfold termValue.
  destruct (Z.eqb_spec v 0) as [->|Hv]; [split; [exact IH1|lia]|].
  destruct (Add.findTerm seq h) as [t|] eqn:Ef; [|split; [exact IH1|lia]].
  apply (findTerm_Some SymbolRegistry.initial) in Ef as (_ & Hin & _).
  destruct (Hc t Hin) as [Hp Hcf].
  destruct (rebuild_value v t (Hce t Hin) Hp Hcf) as [R1 R2].
  split; [constructor; assumption|].
  change (sumValues s (rebuild v t :: Add.resultTerms E seq))
    with (valueOf s (rebuild v t) + sumValues s (Add.resultTerms E seq)).
  rewrite R2, IH2. reflexivity.
Qed.

Lemma Add_assemble_value S c :
  Forall (evaluable s) S ->
  evaluateNumerical (Add_assemble {| fr_terms := S; fr_coeff := c |}) s
  = Returns (c + sumValues s S).
Proof.
  intros HS.
  destruct (Add_assemble_shape S c)
    as [[ES E]|[(t & Et & Ec & E)|(x & y & l & El & E)]]; rewrite E.
  - rewrite ES. cbn [evaluateNumerical]. f_equal. unfold sumValues. cbn [fold_right]. lia.
  - rewrite Et in *. inversion HS; subst. rewrite (evaluable_value s t) by assumption.
    f_equal. unfold sumValues. cbn [fold_right]. lia.
  - cbn [evaluateNumerical]. rewrite <- El. rewrite evalLoop_add_values.
    + rewrite sumValues_app. f_equal. f_equal.
      destruct (Z.eqb_spec c 0) as [->|_]; cbn [negb]; [reflexivity|].
      unfold sumValues. cbn [fold_right]. change (valueOf s (SymNumber c)) with c. lia.
    + apply Forall_app. split; [|exact HS].
      destruct (negb _); repeat constructor. exists c. reflexivity.
Qed.

Lemma collectTerms_values ops :
  Forall (evaluable s) ops -> Forall flatSum ops ->
  sumValues s ops = numSums ops 1 + sumTerms s (termLists ops 1) /\
  Forall (fun p => In (fst p) (Add_candidates ops)) (termLists ops 1).
Proof.
  induction ops as [|e ops IH]; intros He Hf.
  - split; [reflexivity|constructor].
  - inversion He as [|? ? Hee He']; subst. inversion Hf as [|? ? Hfe Hf']; subst.
    destruct (IH He' Hf') as [B1 B2]. destruct (operand_value e Hee Hfe) as [A1 A2].
    assert (T : termLists (e :: ops) 1 = termList e 1 ++ termLists ops 1) by reflexivity.
    assert (N : numSums (e :: ops) 1 = numSum e 1 + numSums ops 1) by reflexivity.
    rewrite T, N, (Add_candidates_app [e] ops : Add_candidates (e :: ops) = _).
    change (sumValues s (e :: ops)) with (valueOf s e + sumValues s ops).
    rewrite sumTerms_app, A1, B1. split; [lia|].
    apply Forall_app. split.
    + eapply List.Forall_impl; [|exact A2]. intros p Hp. apply in_or_app. left. exact Hp.
    + eapply List.Forall_impl; [|exact B2]. intros p Hp. apply in_or_app. right. exact Hp.
Qed.

End AddEvaluation.

Lemma Add_create_value (s : gmap string Z) ops :
  Forall (evaluable s) ops -> Forall flatSum ops ->
  collision_free (Add_candidates ops) ->
  Forall (fun t => powersKept t 1 /\ collision_free (Mul_bases [t])) (Add_candidates ops) ->
  evaluateNumerical (Add.create ops) s = Returns (sumValues s ops).
Proof.
  intros He Hf Hcf Hc. destruct ops as [|a [|b rest]].
  - reflexivity.
  - inversion He; subst. cbn [Add.create]. rewrite (evaluable_value s a) by assumption.
    unfold sumValues. cbn [fold_right]. f_equal. lia.
  - rewrite Add_create_assemble, Add_flatten_spec.
    destruct (collectTerms_values s _ He Hf) as [Hsum Hfound].
    destruct (resultTerms_value s (a :: b :: rest)
                (addPowers (termLists (a :: b :: rest) 1) []) He Hc) as [R1 R2].
    rewrite Add_assemble_value by (apply sort_Forall, R1).
    rewrite (sumValues_perm s _ _ (sort_perm compareTo _)), R2.
    rewrite sumEntries_addPowers.
    + rewrite Hsum. reflexivity.
    + eapply List.Forall_impl; [|exact Hfound]. intros p Hp.
      apply findTerm_unique; assumption.
Qed.

Lemma sumValues_map (s : gmap string Z) ops :
  sumValues s ops = fold_right Z.add 0 (map (valueOf s) ops).
Proof.
  unfold sumValues. induction ops as [|e ops IH]; simpl; [reflexivity|].
  rewrite IH. reflexivity.
Qed.

(** X24: [Add.create] keeps the value.  When [evaluateNumerical] returns
    a number for every operand, no operand that is a sum has a sum or a
    product among its own operands, no two different nodes among which
    [Add.flatten] looks for a term share a hash, each of these nodes meets
    the conditions under which [Mul.create] keeps the value of its product
    with a number, the symbols have names of lower-case letters, no power
    inside the operands has an exponent of negative value, and the bound of
    the numbers computed from the sum of the operands is an integer that
    doubles hold exactly, then [evaluateNumerical] returns the sum of these
    numbers for the result of [Add.create]. *)
Theorem Add_create_sound (s : gmap string Z) (ops : list Expression) (vs : list Z) :
  Forall2 (fun e v => evaluateNumerical e s = Returns v) ops vs ->
  Forall flatSum ops ->
  collision_free (Add_candidates ops) ->
  Forall (fun t => powersKept t 1 /\ collision_free (Mul_bases [t])) (Add_candidates ops) ->
  Forall lowerCaseNames ops ->
  Forall (nonnegExponents s) ops ->
  magnitude (valuation s) (NewAdd ops) <= 2 ^ 53 ->
  evaluateNumerical (Add.create ops) s = Returns (fold_right Z.add 0 vs).
Proof.
  intros Hv Hf Hcf Hc _ _ _. destruct (returns_values s ops vs Hv) as [He ->].
  rewrite <- sumValues_map. apply Add_create_value; assumption.
Qed.

Lemma Add_create_sound_witness :
  let s : gmap string Z := {[ "x"%string := 3; "y"%string := 4 ]} in
  let ops := [Add.create [symbol_x; symbol_y];
              Pow.create symbol_x (SymNumber 2);
              Mul.create [SymNumber 2; symbol_x]] in
  Add.create ops
  = NewAdd [symbol_y; NewPow symbol_x (SymNumber 2); NewMul [SymNumber 3; symbol_x]] /\
  evaluateNumerical (Add.create ops) s = Returns 22.
Proof.
  intros s ops. split; [vm_compute; reflexivity|].
  assert (EC : Add_candidates ops
               = [symbol_x; symbol_y; Pow.create symbol_x (SymNumber 2); symbol_x])
    by (vm_compute; reflexivity).
  apply (Add_create_sound s ops [7; 9; 6]).
  - unfold ops.
    repeat (apply List.Forall2_cons; [vm_compute; reflexivity|]). apply List.Forall2_nil.
  - unfold ops.
    apply List.Forall_cons;
      [change (Add.create [symbol_x; symbol_y])
         with (NewAdd [MkSymbol "x" 1; MkSymbol "y" 2]);
       repeat constructor; discriminate|].
    repeat (apply List.Forall_cons; [exact I|]). apply List.Forall_nil.
  - rewrite EC.
    apply (collision_free_incl _ [symbol_x; symbol_y; Pow.create symbol_x (SymNumber 2)]).
    + intros e He. cbn [In] in *. tauto.
    + apply distinct_hashes_free. vm_compute. reflexivity.
  - rewrite EC.
    repeat (apply List.Forall_cons;
            [split; [vm_compute; auto|apply distinct_hashes_free; vm_compute; reflexivity]|]).
    apply List.Forall_nil.
  - unfold ops.
    repeat (apply List.Forall_cons; [vm_compute; auto|]). apply List.Forall_nil.
  - unfold ops.
    repeat (apply List.Forall_cons; [vm_compute; intuition discriminate|]).
    apply List.Forall_nil.
  - vm_compute. discriminate.
Defined.


(** ** The order of the operands *)

Lemma numFactors_perm l l' k : Permutation l l' -> numFactors l k = numFactors l' k.
Proof.
  unfold numFactors.
  induction 1 as [|x l1 l2 _ IH|x y l|l1 l2 l3 _ IH12 _ IH23]; cbn [fold_right].
  - reflexivity.
  - rewrite IH. reflexivity.
  - lia.
  - congruence.
Qed.

Lemma lastBase_perm B B' h :
  Permutation B B' -> collision_free (map fst B) ->
  lastBase B h = lastBase B' h.
Proof.
  intros HP Hcf.
  assert (Hnone : forall B1 B2, Permutation B1 B2 ->
            lastBase B1 h = None -> lastBase B2 h = None).
  { intros B1 B2 H12 H. apply lastBase_None. apply lastBase_None in H.
    intros Hin. apply H. unfold hashesOf in *.
    apply (Permutation_in _ (Permutation_map _ (Permutation_sym H12)) Hin). }
  destruct (lastBase B h) as [b|] eqn:E; destruct (lastBase B' h) as [b'|] eqn:E';
    try reflexivity.
  - f_equal. apply lastBase_hash in E as [Hb Ib], E' as [Hb' Ib'].
    apply Hcf; [exact Ib| |congruence].
    apply (Permutation_in _ (Permutation_map _ (Permutation_sym HP)) Ib').
  - rewrite (Hnone B' B (Permutation_sym HP) E') in E. discriminate.
  - rewrite (Hnone B B' HP E) in E'. discriminate.
Qed.

Lemma Mul_create_perm r ops ops' :
  Permutation ops ops' -> Forall (interned r) ops ->
  collision_free (Mul_bases ops) ->
  Mul.create ops = Mul.create ops'.
Proof.
  intros HP Hi Hcf.
  destruct ops as [|a [|b rest]].
  - apply Permutation_nil in HP. subst. reflexivity.
  - apply Permutation_length_1_inv in HP. subst. reflexivity.
  - assert (Hlen : (2 <= length ops')%nat).
    { rewrite <- (Permutation_length HP). cbn [length]. lia. }
    rewrite Mul_create_assemble, (Mul_create_eq_assemble ops' Hlen).
    set (ops := a :: b :: rest) in *.
    pose proof (numFactors_perm _ _ 1 HP) as Hc.
    destruct (Z.eq_dec (numFactors ops 1) 0) as [E|E].
    + rewrite !Mul_assemble_zero; [reflexivity| |]; apply Mul_flatten_zero; congruence.
    + rewrite (Mul_flatten_spec ops) by exact E.
      rewrite (Mul_flatten_spec ops') by congruence.
      assert (HB : Permutation (baseLists ops 1) (baseLists ops' 1))
        by (unfold baseLists; apply Permutation_flat_map, HP).
      rewrite Hc. f_equal. f_equal.
      * apply (sort_factors_perm r); [apply factorLists_interned, Hi|].
        unfold factorLists. apply Permutation_flat_map, HP.
      * apply (sort_pairs_eq r).
        -- intros p Hp. eapply baseLists_interned; eassumption.
        -- intros h. apply total_perm, HB.
        -- intros h _. apply lastBase_perm; [exact HB|exact Hcf].
Qed.

Lemma findTerm_perm seq seq' h :
  Permutation seq seq' -> collision_free (Add_candidates seq) ->
  Add.findTerm seq h = Add.findTerm seq' h.
Proof.
  intros HP Hcf.
  assert (HC : Permutation (Add_candidates seq) (Add_candidates seq'))
    by (unfold Add_candidates; apply Permutation_flat_map, HP).
  assert (Hsome : forall s1 s2 c, Permutation (Add_candidates s1) (Add_candidates s2) ->
            Add.findTerm s1 h = Some c -> exists c', Add.findTerm s2 h = Some c').
  { intros s1 s2 c H12 H.
    apply (findTerm_Some SymbolRegistry.initial) in H as (Hh & Hin & _).
    rewrite <- Hh. apply findTerm_offers. apply (Permutation_in _ H12 Hin). }
  destruct (Add.findTerm seq h) as [c|] eqn:E; destruct (Add.findTerm seq' h) as [c'|] eqn:E';
    try reflexivity.
  - f_equal.
    apply (findTerm_Some SymbolRegistry.initial) in E as (Hh & Hin & _).
    apply (findTerm_Some SymbolRegistry.initial) in E' as (Hh' & Hin' & _).
    apply Hcf; [exact Hin| |congruence].
    apply (Permutation_in _ (Permutation_sym HC) Hin').
  - destruct (Hsome seq seq' c HC E) as [c' Hc']. congruence.
  - destruct (Hsome seq' seq c' (Permutation_sym HC) E') as [c Hc]. congruence.
Qed.

Lemma Add_create_perm r ops ops' :
  Permutation ops ops' -> Forall (interned r) ops ->
  collision_free (Add_candidates ops) ->
  Add.create ops = Add.create ops'.
Proof.
  intros HP Hi Hcf.
  destruct ops as [|a [|b rest]].
  - apply Permutation_nil in HP. subst. reflexivity.
  - apply Permutation_length_1_inv in HP. subst. reflexivity.
  - destruct ops' as [|a' [|b' rest']];
      try (apply Permutation_length in HP; cbn [length] in HP; lia).
    rewrite !Add_create_assemble. f_equal.
    assert (HT : Permutation (termLists (a :: b :: rest) 1) (termLists (a' :: b' :: rest') 1))
      by (unfold termLists; apply Permutation_flat_map, HP).
    apply (Add_flatten_ext r).
    + exact Hi.
    + apply numSums_perm, HP.
    + intros h. unfold hashesOf.
      split; apply Permutation_in, Permutation_map; [exact HT|symmetry; exact HT].
    + intros h. apply total_perm, HT.
    + intros h _. apply findTerm_perm; assumption.
Qed.

(** X25: the order of the operands does not matter.  For any count of
    operands whose symbols were interned in one registry and have names of
    lower-case letters, and on which the arithmetic of the flattening is
    exact in doubles, [Mul.create] returns the same node for every order of
    the operands when no two different bases that [Mul.flatten] records
    share a hash, and [Add.create] does when no two different nodes among
    which [Add.flatten] looks for a term share a hash. *)
Theorem create_order_independent (r : SymbolRegistry.t) (ops ops' : list Expression) :
  Permutation ops ops' -> Forall (interned r) ops -> Forall lowerCaseNames ops ->
  (collision_free (Mul_bases ops) -> exactFactors ops ->
   Mul.create ops = Mul.create ops') /\
  (collision_free (Add_candidates ops) -> exactTerms ops ->
   Add.create ops = Add.create ops').
Proof.
  intros HP Hi _. split; intros Hcf _.
  - apply (Mul_create_perm r); assumption.
  - apply (Add_create_perm r); assumption.
Qed.

Lemma create_order_independent_witness :
  let a := Mul.create [SymNumber 2; symbol_x] in
  let b := Pow.create symbol_y (SymNumber 2) in
  let c := Add.create [symbol_z; SymNumber 1] in
  Mul.create [a; b; c] = Mul.create [c; a; b] /\
  Add.create [a; b; c] = Add.create [c; a; b].
Proof.
  intros a b c.
  destruct (create_order_independent registry_xyz [a; b; c] [c; a; b]) as [HM HA].
  - change [c; a; b] with ([c] ++ [a; b]). change [a; b; c] with ([a; b] ++ [c]).
    apply Permutation_app_comm.
  - repeat (apply List.Forall_cons; [vm_compute; auto|]). apply List.Forall_nil.
  - repeat (apply List.Forall_cons; [vm_compute; auto|]). apply List.Forall_nil.
  - split; [apply HM|apply HA].
    + apply distinct_hashes_free; vm_compute; reflexivity.
    + split; [|vm_compute; discriminate].
      repeat (apply List.Forall_cons; [vm_compute; intuition discriminate|]).
      apply List.Forall_nil.
    + apply distinct_hashes_free; vm_compute; reflexivity.
    + split; [|vm_compute; discriminate].
      repeat (apply List.Forall_cons; [vm_compute; intuition discriminate|]).
      apply List.Forall_nil.
Defined.


(** ** Nested products *)

Lemma Mul_create_flattens_main r l1 l2 :
  (2 <= length l1)%nat -> l2 <> [] ->
  Forall (interned r) l1 -> Forall (interned r) l2 ->
  Mul.create (Mul.create l1 :: l2) = Mul.create (l1 ++ l2).
Proof.
  intros Hlen1 Hl2 I1 I2.
  assert (Hlen : (2 <= length (l1 ++ l2))%nat) by (rewrite length_app; lia).
  assert (Hlen' : (2 <= length (Mul.create l1 :: l2))%nat).
  { destruct l2; [contradiction|]. cbn [length]. lia. }
  rewrite (Mul_create_eq_assemble (l1 ++ l2) Hlen).
  rewrite (Mul_create_eq_assemble (Mul.create l1 :: l2) Hlen').
  rewrite (Mul_create_eq_assemble l1 Hlen1).
  set (m := Mul_assemble (Mul.flatten l1)).
  destruct (Z.eq_dec (numFactors l1 1) 0) as [E1|E1].
  { assert (m = ZERO) as -> by (apply Mul_assemble_zero, Mul_flatten_zero, E1).
    rewrite (Mul_assemble_zero (Mul.flatten (ZERO :: l2)))
      by (apply Mul_flatten_zero, numFactors_In_zero; left; reflexivity).
    rewrite (Mul_assemble_zero (Mul.flatten (l1 ++ l2))); [reflexivity|].
    apply Mul_flatten_zero. rewrite numFactors_app, E1. reflexivity. }
  destruct (Mul_flatten_good l1 E1) as (HS & HF & Hnd).
  assert (Hc : mf_coeff (Mul.flatten l1) <> 0)
    by (rewrite Mul_flatten_spec by exact E1; exact E1).
  destruct (Mul_assemble_events _ Hc HS HF) as (A1 & A2 & A3). fold m in A1, A2, A3.
  rewrite (Mul_flatten_spec l1) in A1, A2, A3 by exact E1.
  cbn [mf_coeff mf_powers mf_factors] in A1, A2, A3.
  assert (Hn : numFactors (m :: l2) 1 = numFactors (l1 ++ l2) 1).
  { rewrite numFactors_app. unfold numFactors at 1. cbn [fold_right]. rewrite A1.
    reflexivity. }
  destruct (Z.eq_dec (numFactors (l1 ++ l2) 1) 0) as [E|E].
  { rewrite !Mul_assemble_zero; [reflexivity| |]; apply Mul_flatten_zero; congruence. }
  rewrite (Mul_flatten_spec (m :: l2)) by congruence.
  rewrite (Mul_flatten_spec (l1 ++ l2)) by exact E.
  rewrite Hn. f_equal. f_equal.
  - rewrite factorLists_app. unfold factorLists at 1. cbn [flat_map]. rewrite A3.
    fold (factorLists l2 1).
    apply (sort_factors_perm r).
    + apply Forall_app. split.
      * apply sort_Forall, factorLists_interned, I1.
      * apply factorLists_interned, I2.
    + apply Permutation_app_tail, sort_perm.
  - rewrite baseLists_app. unfold baseLists at 1. cbn [flat_map]. rewrite A2.
    fold (baseLists l2 1).
    set (B := baseLists l1 1).
    set (S := sort cmpBase (pairsOf B)).
    assert (HSB : Permutation S (pairsOf B)) by apply sort_perm.
    assert (HB : forall q, In q B -> interned r (fst q)).
    { intros q. apply baseLists_interned, I1. }
    apply (sort_pairs_eq r).
    + intros p Hp. apply in_app_or in Hp as [Hp|Hp].
      * eapply readback_interned; eassumption.
      * eapply baseLists_interned; eassumption.
    + intros h. rewrite !total_app, (readback_total S B HSB). reflexivity.
    + intros h. rewrite !total_app, !lastBase_app, (readback_total S B HSB). intros Hne.
      destruct (lastBase (baseLists l2 1) h) as [x|] eqn:Ec; [reflexivity|].
      assert (total (baseLists l2 1) h = 0) as Z0
        by (apply total_absent, lastBase_None, Ec).
      apply (readback_lastBase S B HSB). lia.
Qed.

(** X26: a product as the first operand is flattened.  For operands
    whose symbols were interned in one registry and have names of
    lower-case letters, and on which the arithmetic of the flattening is
    exact in doubles, [Mul.create] on the result of [Mul.create(l1...)]
    followed by the operands [l2] returns what [Mul.create] returns on the
    operands [l1] followed by [l2]. *)
Theorem Mul_create_flattens (r : SymbolRegistry.t) (l1 l2 : list Expression) :
  l1 <> [] -> Forall (interned r) (l1 ++ l2) -> Forall lowerCaseNames (l1 ++ l2) ->
  exactFactors (l1 ++ l2) ->
  Mul.create (Mul.create l1 :: l2) = Mul.create (l1 ++ l2).
Proof.
  intros Hl1 Hi _ _. apply Forall_app in Hi as [I1 I2].
  destruct l1 as [|a [|b l1]]; [contradiction|reflexivity|].
  destruct l2 as [|c l2].
  - rewrite app_nil_r. reflexivity.
  - apply (Mul_create_flattens_main r); [cbn [length]; lia|discriminate|assumption..].
Qed.

Lemma Mul_create_flattens_witness :
  let l1 := [symbol_x; Pow.create symbol_y (SymNumber 2); SymNumber 3] in
  let l2 := [symbol_y; Add.create [symbol_x; SymNumber 1]] in
  Mul.create (Mul.create l1 :: l2) = Mul.create (l1 ++ l2).
Proof.
  intros l1 l2. apply (Mul_create_flattens registry_xyz l1 l2).
  - discriminate.
  - repeat (apply List.Forall_cons; [vm_compute; auto|]). apply List.Forall_nil.
  - repeat (apply List.Forall_cons; [vm_compute; auto|]). apply List.Forall_nil.
  - split; [|vm_compute; discriminate].
    repeat (apply List.Forall_cons; [vm_compute; intuition discriminate|]).
    apply List.Forall_nil.
Defined.
